(** * wave_2d_fd_perf: the 2D finite-difference wave stepper

    A shallow embedding of the two C realisations of [step]
    (vc1.c, the plain scalar loop, and vc6.c, the OpenMP row-parallel loop)
    together with the properties of the stepper that the specification
    states: the stencil update, source injection, the coefficient table,
    buffer swapping, the frame of the update and the agreement of the two
    variants.

    Conventions of the embedding.
    - C [float] values are an abstract type [F] with the operations of the
      class [FloatOps]; every operation is a function of its operands.  Two
      instances are given: IEEE binary32 (Stdlib's [SpecFloat] at precision
      24, round to nearest even) and exact rationals [Qc].
    - C [int] values are integers in [INT_MIN, INT_MAX]; an [int] operation
      whose mathematical result leaves that range is undefined behaviour and
      evaluates to [None].
    - An array is a list; reading or writing outside it is undefined
      behaviour and evaluates to [None].
    - The caller's memory [mem] holds the arrays the pointer arguments point
      to; the local pointer variables [f] and [fp] of [step] are values of
      [ptr] naming one of the two field arrays, which are distinct
      ([restrict]).
    - The iterations of an OpenMP parallel loop are executed one after the
      other in an order chosen by the runtime, a parameter of the model
      ([Vc6]).  Two iterations that access a common element of the written
      array are a data race, which is undefined behaviour: [Omp] is [Vc6]
      with that condition added to the parallel loop. *)

From Stdlib Require Import ZArith Lia QArith Qcanon.
From Stdlib Require Import Floats.SpecFloat.
From stdpp Require Import base option list.

Open Scope Z_scope.

(** ** Floating-point operations *)

Class FloatOps (F : Type) := {
  fadd : F -> F -> F;
  fsub : F -> F -> F;
  fmul : F -> F -> F;
  fdiv : F -> F -> F;
  fneg : F -> F;
  (** conversion of an [int] operand in a mixed expression *)
  of_int : Z -> F;
  (** a literal [n.0f] *)
  flit : Z -> F
}.

(** IEEE 754 binary32: 24 bits of precision, maximal exponent 128. *)
Definition b32_of_Z (z : Z) : spec_float := binary_normalize 24 128 z 0 false.

#[export] Instance binary32 : FloatOps spec_float := {|
  fadd := SFadd 24 128;
  fsub := SFsub 24 128;
  fmul := SFmul 24 128;
  fdiv := SFdiv 24 128;
  fneg := SFopp;
  of_int := b32_of_Z;
  flit := b32_of_Z
|}.

(** Exact rational arithmetic. *)
Definition Qc_of_Z (z : Z) : Qc := Q2Qc (inject_Z z).

#[export] Instance exact : FloatOps Qc := {|
  fadd := Qcplus;
  fsub := Qcminus;
  fmul := Qcmult;
  fdiv := Qcdiv;
  fneg := Qcopp;
  of_int := Qc_of_Z;
  flit := Qc_of_Z
|}.

(** ** [int] arithmetic *)

Definition INT_MIN : Z := -2147483648.
Definition INT_MAX : Z := 2147483647.

Definition in_int (z : Z) : bool := (INT_MIN <=? z) && (z <=? INT_MAX).

Definition int_of (z : Z) : option Z := if in_int z then Some z else None.

Definition iadd (a b : Z) : option Z := int_of (a + b).
Definition isub (a b : Z) : option Z := int_of (a - b).
Definition imul (a b : Z) : option Z := int_of (a * b).

(** [row * nx + col], the flat index of a cell. *)
Definition at2 (row nx col : Z) : option Z := p ← imul row nx; iadd p col.

(** ** Arrays *)

Definition ld {A} (a : list A) (i : Z) : option A :=
  if 0 <=? i then a !! Z.to_nat i else None.

Definition st {A} (a : list A) (i : Z) (v : A) : option (list A) :=
  if (0 <=? i) && (i <? Z.of_nat (length a))
  then Some (<[Z.to_nat i := v]> a) else None.

(** ** [for (i = lo; i < hi; i++) body] *)

Fixpoint for_from {S} (n : nat) (i : Z) (body : Z -> S -> option S) (s : S)
  : option S :=
  match n with
  | O => Some s
  | S n' => s' ← body i s; for_from n' (i + 1) body s'
  end.

Definition for_loop {S} (lo hi : Z) (body : Z -> S -> option S) (s : S)
  : option S :=
  for_from (Z.to_nat (hi - lo)) lo body s.

(** ** The caller's memory and the two buffer pointers *)

Inductive ptr := PA | PB.

Record mem (F : Type) := Mem {
  arrA : list F;               (* the array passed as f *)
  arrB : list F;               (* the array passed as fp *)
  model_padded2_dt2 : list F;
  sources : list F;
  sources_x : list Z;
  sources_y : list Z
}.
Arguments Mem {F}.
Arguments arrA {F}.
Arguments arrB {F}.
Arguments model_padded2_dt2 {F}.
Arguments sources {F}.
Arguments sources_x {F}.
Arguments sources_y {F}.

Definition rd {F} (m : mem F) (p : ptr) : list F :=
  match p with PA => arrA m | PB => arrB m end.

Definition wr {F} (m : mem F) (p : ptr) (b : list F) : mem F :=
  match p with
  | PA => Mem b (arrB m) (model_padded2_dt2 m) (sources m) (sources_x m) (sources_y m)
  | PB => Mem (arrA m) b (model_padded2_dt2 m) (sources m) (sources_x m) (sources_y m)
  end.

(** The local variables [f] and [fp]. *)
Record bufs := Bufs { cur : ptr; prev : ptr }.

Definition entry : bufs := Bufs PA PB.

(** [tmp = f; f = fp; fp = tmp;] *)
Definition swap (b : bufs) : bufs :=
  let tmp := cur b in
  let f := prev b in
  let fp := tmp in
  Bufs f fp.

(** ** The sub-expression shared by both files

    [fd_coeff[k] * (f[i*nx+j+k] + f[i*nx+j-k] + f[(i+k)*nx+j] + f[(i-k)*nx+j])],
    operands evaluated left to right. *)

Definition tap {F} `{FloatOps F} (fd_coeff f : list F) (nx i j k : Z)
  : option F :=
  c ← ld fd_coeff k;
  xp ← (q ← at2 i nx j; r ← iadd q k; ld f r);
  xm ← (q ← at2 i nx j; r ← isub q k; ld f r);
  yp ← (p ← iadd i k; r ← at2 p nx j; ld f r);
  ym ← (p ← isub i k; r ← at2 p nx j; ld f r);
  Some (fmul c (fadd (fadd (fadd xp xm) yp) ym)).

(** ** [#pragma omp parallel for]

    Every iteration of the loop is executed once; the runtime chooses the
    order.  [run_list] executes the iterations in a given order, [order]
    is the runtime's choice of an order for the iteration space. *)

Fixpoint run_list {K S} (l : list K) (body : K -> S -> option S) (s : S)
  : option S :=
  match l with
  | [] => Some s
  | k :: l' => s' ← body k s; run_list l' body s'
  end.

Definition omp_parallel_for {S} (order : list Z -> list Z) (lo hi : Z)
    (body : Z -> S -> option S) (s : S) : option S :=
  run_list (order (seqZ lo (hi - lo))) body s.

(** A runtime is admissible when it runs every iteration exactly once. *)
Definition schedule (order : list Z -> list Z) : Prop :=
  forall l, order l ≡ₚ l.

(** ** vc1.c *)

Module Vc1.
Section Vc1.
Context {F : Type} `{FloatOps F}.

Definition fd_coeff (dx : F) : list F :=
  [ fdiv (fdiv (fneg (flit 924708642)) (of_int 302702400)) (fmul dx dx);
    fdiv (fdiv (flit 538137600) (of_int 302702400)) (fmul dx dx);
    fdiv (fdiv (fneg (flit 94174080)) (of_int 302702400)) (fmul dx dx);
    fdiv (fdiv (flit 22830080) (of_int 302702400)) (fmul dx dx);
    fdiv (fdiv (fneg (flit 5350800)) (of_int 302702400)) (fmul dx dx);
    fdiv (fdiv (flit 1053696) (of_int 302702400)) (fmul dx dx);
    fdiv (fdiv (fneg (flit 156800)) (of_int 302702400)) (fmul dx dx);
    fdiv (fdiv (flit 15360) (of_int 302702400)) (fmul dx dx);
    fdiv (fdiv (fneg (flit 735)) (of_int 302702400)) (fmul dx dx) ].

(** The Laplacian of the [j] loop body: lines 37-44. *)
Definition f_xx (fd_coeff f : list F) (nx i j : Z) : option F :=
  c0 ← ld fd_coeff 0;
  x ← (q ← at2 i nx j; ld f q);
  for_loop 1 9
    (fun k f_xx => t ← tap fd_coeff f nx i j k; Some (fadd f_xx t))
    (fmul (fmul (of_int 2) c0) x).

(** The body of the [j] loop: lines 37-48. *)
Definition cell (fd_coeff f model : list F) (nx i j : Z) (fp : list F)
  : option (list F) :=
  f_xx ← f_xx fd_coeff f nx i j;
  q ← at2 i nx j;
  m ← (q ← at2 i nx j; ld model q);
  x ← (q ← at2 i nx j; ld f q);
  old ← (q ← at2 i nx j; ld fp q);
  st fp q (fsub (fadd (fmul m f_xx) (fmul (of_int 2) x)) old).

(** The [i] and [j] loops: lines 35-50. *)
Definition interior (fd_coeff f model : list F) (nx ny nxi : Z) (fp : list F)
  : option (list F) :=
  hi ← isub ny 8;
  for_loop 8 hi
    (fun i fp => hj ← iadd nxi 8;
                 for_loop 8 hj (cell fd_coeff f model nx i) fp) fp.

(** The body of the source loop: lines 53-57. *)
Definition inject (model srcs : list F) (srcs_x srcs_y : list Z)
    (nx source_len step i : Z) (fp : list F) : option (list F) :=
  sx ← (v ← ld srcs_x i; iadd v 8);
  sy ← (v ← ld srcs_y i; iadd v 8);
  q ← at2 sy nx sx;
  old ← ld fp q;
  m ← (q ← at2 sy nx sx; ld model q);
  a ← (p ← imul i source_len; r ← iadd p step; ld srcs r);
  st fp q (fadd old (fmul m a)).

(** One iteration of the time loop up to the swap: lines 35-58. *)
Definition body (fd_coeff : list F) (m : mem F) (b : bufs)
    (nx ny nxi num_sources source_len step : Z) : option (list F) :=
  fp1 ← interior fd_coeff (rd m (cur b)) (model_padded2_dt2 m) nx ny nxi
                 (rd m (prev b));
  for_loop 0 num_sources
    (inject (model_padded2_dt2 m) (sources m) (sources_x m) (sources_y m)
            nx source_len step) fp1.

(** One iteration of the time loop: lines 35-62. *)
Definition time_step (fd_coeff : list F)
    (nx ny nxi num_sources source_len step : Z) (s : mem F * bufs)
  : option (mem F * bufs) :=
  let '(m, b) := s in
  fp' ← body fd_coeff m b nx ny nxi num_sources source_len step;
  Some (wr m (prev b) fp', swap b).

(** The time loop with the final values of the local pointers. *)
Definition run (m : mem F) (nx ny nxi : Z) (dx : F)
    (num_sources source_len num_steps : Z) : option (mem F * bufs) :=
  let fd_coeff := fd_coeff dx in
  for_loop 0 num_steps (time_step fd_coeff nx ny nxi num_sources source_len)
           (m, entry).

Definition step (m : mem F) (nx ny nxi : Z) (dx : F)
    (num_sources source_len num_steps : Z) : option (mem F) :=
  fst <$> run m nx ny nxi dx num_sources source_len num_steps.
End Vc1.
End Vc1.

(** ** vc6.c *)

Module Vc6.
Section Vc6.
Context {F : Type} `{FloatOps F}.

(** The body of the [j] loop: lines 24-68. *)
Definition cell (fd_coeff f model : list F) (nx i j : Z) (fp : list F)
  : option (list F) :=
  c0 ← ld fd_coeff 0;
  x ← (q ← at2 i nx j; ld f q);
  t1 ← tap fd_coeff f nx i j 1;
  t2 ← tap fd_coeff f nx i j 2;
  t3 ← tap fd_coeff f nx i j 3;
  t4 ← tap fd_coeff f nx i j 4;
  t5 ← tap fd_coeff f nx i j 5;
  t6 ← tap fd_coeff f nx i j 6;
  t7 ← tap fd_coeff f nx i j 7;
  t8 ← tap fd_coeff f nx i j 8;
  let f_xx :=
    fadd (fadd (fadd (fadd (fadd (fadd (fadd (fadd
      (fmul (fmul (of_int 2) c0) x) t1) t2) t3) t4) t5) t6) t7) t8 in
  q ← at2 i nx j;
  m ← (q ← at2 i nx j; ld model q);
  x ← (q ← at2 i nx j; ld f q);
  old ← (q ← at2 i nx j; ld fp q);
  st fp q (fsub (fadd (fmul m f_xx) (fmul (of_int 2) x)) old).

(** The body of the source loop: lines 73-77. *)
Definition inject (model srcs : list F) (srcs_x srcs_y : list Z)
    (nx source_len step i : Z) (fp : list F) : option (list F) :=
  sx ← (v ← ld srcs_x i; iadd v 8);
  sy ← (v ← ld srcs_y i; iadd v 8);
  q ← at2 sy nx sx;
  old ← ld fp q;
  m ← (q ← at2 sy nx sx; ld model q);
  a ← (p ← imul i source_len; r ← iadd p step; ld srcs r);
  st fp q (fadd old (fmul m a)).

(** The parallel loop over the rows (lines 21-70), with the order in
    which the runtime executes them. *)
Definition sweep (order : list Z -> list Z) (fd_coeff f model : list F)
    (nx ny nxi : Z) (fp : list F) : option (list F) :=
  hi ← isub ny 8;
  omp_parallel_for order 8 hi
    (fun i fp => hj ← iadd nxi 8;
                 for_loop 8 hj (cell fd_coeff f model nx i) fp) fp.

(** [inner]: the parallel loop, then the source loop (lines 72-78). *)
Definition inner (order : list Z -> list Z) (f fp : list F) (nx ny nxi : Z)
    (model srcs : list F) (srcs_x srcs_y : list Z)
    (num_sources source_len : Z) (fd_coeff : list F) (step : Z)
  : option (list F) :=
  fp1 ← sweep order fd_coeff f model nx ny nxi fp;
  for_loop 0 num_sources
    (inject model srcs srcs_x srcs_y nx source_len step) fp1.

Definition fd_coeff (dx : F) : list F :=
  [ fdiv (fdiv (fneg (flit 924708642)) (of_int 302702400)) (fmul dx dx);
    fdiv (fdiv (flit 538137600) (of_int 302702400)) (fmul dx dx);
    fdiv (fdiv (fneg (flit 94174080)) (of_int 302702400)) (fmul dx dx);
    fdiv (fdiv (flit 22830080) (of_int 302702400)) (fmul dx dx);
    fdiv (fdiv (fneg (flit 5350800)) (of_int 302702400)) (fmul dx dx);
    fdiv (fdiv (flit 1053696) (of_int 302702400)) (fmul dx dx);
    fdiv (fdiv (fneg (flit 156800)) (of_int 302702400)) (fmul dx dx);
    fdiv (fdiv (flit 15360) (of_int 302702400)) (fmul dx dx);
    fdiv (fdiv (fneg (flit 735)) (of_int 302702400)) (fmul dx dx) ].

(** One iteration of the time loop: lines 110-115. *)
Definition time_step (sched : Z -> list Z -> list Z) (fd_coeff : list F)
    (nx ny nxi num_sources source_len step : Z) (s : mem F * bufs)
  : option (mem F * bufs) :=
  let '(m, b) := s in
  fp' ← inner (sched step) (rd m (cur b)) (rd m (prev b)) nx ny nxi
              (model_padded2_dt2 m) (sources m) (sources_x m) (sources_y m)
              num_sources source_len fd_coeff step;
  Some (wr m (prev b) fp', swap b).

Definition run (sched : Z -> list Z -> list Z) (m : mem F) (nx ny nxi : Z)
    (dx : F) (num_sources source_len num_steps : Z)
  : option (mem F * bufs) :=
  let fd_coeff := fd_coeff dx in
  for_loop 0 num_steps
    (time_step sched fd_coeff nx ny nxi num_sources source_len) (m, entry).

Definition step (sched : Z -> list Z -> list Z) (m : mem F) (nx ny nxi : Z)
    (dx : F) (num_sources source_len num_steps : Z) : option (mem F) :=
  fst <$> run sched m nx ny nxi dx num_sources source_len num_steps.
End Vc6.
End Vc6.

(** ** vc6.c with the data races of the parallel loop

    Iteration [i] of the parallel loop of [inner] (lines 21-70) reads and
    writes the elements fp[i*nx + j], 8 <= j < nxi + 8, and only reads
    everything else it touches ([f] and [fp] are distinct arrays).  When two
    different iterations access a common element of [fp], threads that
    execute them race on it: the behaviour of the program is undefined,
    and [Omp] gives such a loop no result, whatever order the runtime
    picks. *)

(** The flat indices of [fp] that iteration [i] reads and writes. *)
Definition row_writes (nx nxi i : Z) : list Z :=
  (fun j => i * nx + j) <$> seqZ 8 nxi.

Definition rows_conflict (nx nxi i i' : Z) : bool :=
  existsb (fun q => existsb (Z.eqb q) (row_writes nx nxi i'))
          (row_writes nx nxi i).

(** No two different iterations of the loop over [8, ny-8) conflict. *)
Definition race_free (nx ny nxi : Z) : bool :=
  forallb (fun i =>
             forallb (fun i' => (i =? i') || negb (rows_conflict nx nxi i i'))
                     (seqZ 8 (ny - 16)))
          (seqZ 8 (ny - 16)).

Module Omp.
Section Omp.
Context {F : Type} `{FloatOps F}.

(** The parallel loop over the rows (lines 21-70). *)
Definition sweep (order : list Z -> list Z) (fd_coeff f model : list F)
    (nx ny nxi : Z) (fp : list F) : option (list F) :=
  if race_free nx ny nxi
  then Vc6.sweep order fd_coeff f model nx ny nxi fp
  else None.

(** [inner]: the parallel loop, then the source loop (lines 72-78). *)
Definition inner (order : list Z -> list Z) (f fp : list F) (nx ny nxi : Z)
    (model srcs : list F) (srcs_x srcs_y : list Z)
    (num_sources source_len : Z) (fd_coeff : list F) (step : Z)
  : option (list F) :=
  fp1 ← sweep order fd_coeff f model nx ny nxi fp;
  for_loop 0 num_sources
    (Vc6.inject model srcs srcs_x srcs_y nx source_len step) fp1.

(** One iteration of the time loop: lines 110-115. *)
Definition time_step (sched : Z -> list Z -> list Z) (fd_coeff : list F)
    (nx ny nxi num_sources source_len step : Z) (s : mem F * bufs)
  : option (mem F * bufs) :=
  let '(m, b) := s in
  fp' ← inner (sched step) (rd m (cur b)) (rd m (prev b)) nx ny nxi
              (model_padded2_dt2 m) (sources m) (sources_x m) (sources_y m)
              num_sources source_len fd_coeff step;
  Some (wr m (prev b) fp', swap b).

Definition run (sched : Z -> list Z -> list Z) (m : mem F) (nx ny nxi : Z)
    (dx : F) (num_sources source_len num_steps : Z)
  : option (mem F * bufs) :=
  let fd_coeff := Vc6.fd_coeff dx in
  for_loop 0 num_steps
    (time_step sched fd_coeff nx ny nxi num_sources source_len) (m, entry).

Definition step (sched : Z -> list Z -> list Z) (m : mem F) (nx ny nxi : Z)
    (dx : F) (num_sources source_len num_steps : Z) : option (mem F) :=
  fst <$> run sched m nx ny nxi dx num_sources source_len num_steps.
End Omp.
End Omp.

(** ** The update rule in the words of the specification *)

Section Rule.
Context {F : Type} `{FloatOps F}.

(** The value stored at a flat index ([of_int 0] outside the array). *)
Definition val (a : list F) (q : Z) : F := default (of_int 0) (ld a q).

(** The value of the padded cell in row [i], column [j]. *)
Definition cellv (a : list F) (nx i j : Z) : F := val a (i * nx + j).

(** The sum of the four neighbours at offset [k]: +x, -x, +y, -y. *)
Definition neighbours (f : list F) (nx i j k : Z) : F :=
  fadd (fadd (fadd (cellv f nx i (j + k)) (cellv f nx i (j - k)))
             (cellv f nx (i + k) j))
       (cellv f nx (i - k) j).

(** Twice the central coefficient times the centre value plus, for each
    tap k = 1..8, coefficient k times the neighbour sum. *)
Definition laplacian (coeff f : list F) (nx i j : Z) : F :=
  foldl (fun acc k => fadd acc (fmul (val coeff k) (neighbours f nx i j k)))
        (fmul (fmul (of_int 2) (val coeff 0)) (cellv f nx i j))
        (seqZ 1 8).

(** model_term * f_xx + 2 * current *)
Definition forcing (coeff current model : list F) (nx i j : Z) : F :=
  fadd (fmul (cellv model nx i j) (laplacian coeff current nx i j))
       (fmul (of_int 2) (cellv current nx i j)).

(** model_term * f_xx + 2 * current - previous *)
Definition leapfrog (coeff current model previous : list F) (nx i j : Z) : F :=
  fsub (forcing coeff current model nx i j) (cellv previous nx i j).

(** The numerators and the common denominator of the coefficient table. *)
Definition numerators : list Z :=
  [ -924708642; 538137600; -94174080; 22830080; -5350800;
    1053696; -156800; 15360; -735 ].

Definition denominator : Z := 302702400.

(** A numerator as the source writes it: a literal, negated when the
    numerator is negative. *)
Definition numeral (n : Z) : F :=
  if n <? 0 then fneg (flit (- n)) else flit n.

(** Numerator divided by the common denominator and by dx * dx. *)
Definition coefficient (dx : F) (n : Z) : F :=
  fdiv (fdiv (numeral n) (of_int denominator)) (fmul dx dx).

(** The padded cell of source [s]: column [sources_x[s] + 8], row
    [sources_y[s] + 8], and its flat index. *)
Definition source_col (srcs_x : list Z) (s : Z) : Z :=
  default 0 (ld srcs_x s) + 8.

Definition source_row (srcs_y : list Z) (s : Z) : Z :=
  default 0 (ld srcs_y s) + 8.

Definition source_cell (srcs_x srcs_y : list Z) (nx s : Z) : Z :=
  source_row srcs_y s * nx + source_col srcs_x s.

(** The amplitude of source [s] at time step [t]. *)
Definition amplitude (srcs : list F) (source_len s t : Z) : F :=
  val srcs (s * source_len + t).

(** The sources that map to flat index [q], in increasing index order. *)
Definition sources_at (srcs_x srcs_y : list Z) (nx num_sources q : Z)
  : list Z :=
  filter (fun s => source_cell srcs_x srcs_y nx s = q)
         (seqZ 0 num_sources).

(** The sources that map to the padded cell in row [i], column [j]. *)
Definition sources_on (srcs_x srcs_y : list Z) (num_sources i j : Z)
  : list Z :=
  filter (fun s => source_row srcs_y s = i /\ source_col srcs_x s = j)
         (seqZ 0 num_sources).

(** Adding, one source after the other, model_term * amplitude to [v]. *)
Definition accumulate (model srcs : list F) (source_len t q : Z)
    (l : list Z) (v : F) : F :=
  foldl (fun acc s =>
           fadd acc (fmul (val model q) (amplitude srcs source_len s t)))
        v l.

(** The point update both loops perform on [fp]:
    [fp[q] = a - fp[q]] for the stencil, [fp[q] += a] for a source. *)
Definition update_at (q : Z) (g : F -> F) (fp : list F) : option (list F) :=
  old ← ld fp q; st fp q (g old).

Definition stencil_at (q : Z) (a : F) : list F -> option (list F) :=
  update_at q (fsub a).

Definition add_at (q : Z) (a : F) : list F -> option (list F) :=
  update_at q (fun old => fadd old a).
End Rule.

(** Two state transformers commute when either order gives the same
    result, undefined behaviour included. *)
Definition commute {S} (u v : S -> option S) : Prop :=
  forall s, u s ≫= v = v s ≫= u.

(** The interior region [8, ny-8) x [8, nxi+8), as a predicate and as the
    list of its cells in row-major order. *)
Definition interior_cell (ny nxi i j : Z) : Prop :=
  8 <= i < ny - 8 /\ 8 <= j < nxi + 8.

#[export] Instance interior_cell_dec ny nxi i j : Decision (interior_cell ny nxi i j).
Proof. unfold interior_cell. apply _. Defined.

Definition interior_cells (ny nxi : Z) : list (Z * Z) :=
  i ← seqZ 8 (ny - 16); pair i <$> seqZ 8 nxi.

(** ** Well-formed calls

    The caller's obligations: the three grids have ny * nx cells, the
    interior with its halo of 8 fits in a row, every flat index is an
    [int], the source tables have [num_sources] entries and at least
    [num_steps] samples each, and every source lies in the interior. *)

Definition wf_grid (nx ny nxi : Z) : bool :=
  (0 <=? ny) && (0 <=? nxi) && (nxi + 16 <=? nx) && (ny * nx <=? INT_MAX).

Definition wf_bufs {F} (m : mem F) (nx ny : Z) : bool :=
  (Z.of_nat (length (arrA m)) =? ny * nx)
  && (Z.of_nat (length (arrB m)) =? ny * nx)
  && (Z.of_nat (length (model_padded2_dt2 m)) =? ny * nx).

Definition wf_sources {F} (m : mem F) (ny nxi num_sources source_len num_steps : Z)
  : bool :=
  (0 <=? num_sources) && (0 <=? source_len)
  && (num_sources * source_len <=? INT_MAX)
  && (num_steps <=? source_len)
  && (Z.of_nat (length (sources_x m)) =? num_sources)
  && (Z.of_nat (length (sources_y m)) =? num_sources)
  && (Z.of_nat (length (sources m)) =? num_sources * source_len)
  && forallb (fun x => (0 <=? x) && (x <? nxi)) (sources_x m)
  && forallb (fun y => (0 <=? y) && (y <? ny - 16)) (sources_y m).

Definition wf_call {F} (m : mem F) (nx ny nxi num_sources source_len num_steps : Z)
  : bool :=
  wf_grid nx ny nxi && wf_bufs m nx ny
  && wf_sources m ny nxi num_sources source_len num_steps.

(** A buffer transformer writes only at the flat indices in [P]: where it
    is defined it keeps the length and every element outside [P]. *)
Definition writes_only {A} (P : Z -> Prop) (u : list A -> option (list A))
  : Prop :=
  forall s s', u s = Some s' ->
    length s' = length s /\ forall q, ~ P q -> ld s' q = ld s q.

(** The flat indices of the interior cells. *)
Definition interior_index (nx ny nxi q : Z) : Prop :=
  exists i j, interior_cell ny nxi i j /\ q = i * nx + j.

(** [mem_frame P m m']: memory [m'] differs from [m] at most at the flat
    indices in [P] of the two field arrays. *)
Definition mem_frame {F} (P : Z -> Prop) (m m' : mem F) : Prop :=
  length (arrA m') = length (arrA m) /\
  length (arrB m') = length (arrB m) /\
  (forall q, ~ P q ->
     ld (arrA m') q = ld (arrA m) q /\ ld (arrB m') q = ld (arrB m) q) /\
  model_padded2_dt2 m' = model_padded2_dt2 m /\
  sources m' = sources m /\
  sources_x m' = sources_x m /\
  sources_y m' = sources_y m.

(** Every source the loop visits lies in the interior. *)
Definition sources_inside {F} (m : mem F) (ny nxi num_sources : Z) : Prop :=
  forall s, 0 <= s < num_sources ->
    (forall x, ld (sources_x m) s = Some x -> 0 <= x < nxi) /\
    (forall y, ld (sources_y m) s = Some y -> 0 <= y < ny - 16).

(** ** The consistency sums of the coefficient table, in exact arithmetic *)

(** sum(coeff[1..8]) *)
Definition tap_sum (coeff : list Qc) : Qc :=
  foldl Qcplus 0%Qc (val coeff <$> seqZ 1 8).

(** 2*coeff[0] + 2*sum(coeff[1..8])*4, as the specification writes it. *)
Definition claimed_sum (coeff : list Qc) : Qc :=
  (Qc_of_Z 2 * val coeff 0 + Qc_of_Z 2 * tap_sum coeff * Qc_of_Z 4)%Qc.

(** 2*coeff[0] + sum(coeff[1..8])*4: the centre is weighted twice and each
    tap four times, as in [f_xx]. *)
Definition weight_sum (coeff : list Qc) : Qc :=
  (Qc_of_Z 2 * val coeff 0 + tap_sum coeff * Qc_of_Z 4)%Qc.

(** ** A small call in binary32

    An 18 x 18 grid whose interior is the 2 x 2 block of rows and columns
    8 and 9; three sources, two of them on the padded cell (8, 8), with two
    samples each; a runtime that executes the rows last to first. *)

Module Demo.
Definition nx : Z := 18.
Definition ny : Z := 18.
Definition nxi : Z := 2.
Definition num_sources : Z := 3.
Definition source_len : Z := 2.
Definition num_steps : Z := 2.
Definition dx : spec_float := b32_of_Z 1.

Definition ramp (k : Z) : list spec_float :=
  (fun q => b32_of_Z (q mod k)) <$> seqZ 0 (ny * nx).

Definition m : mem spec_float :=
  Mem (ramp 7) (ramp 5) (replicate (Z.to_nat (ny * nx)) (b32_of_Z 2))
      (b32_of_Z <$> [1; 2; 3; 4; 5; 6]) [0; 0; 1] [0; 0; 1].

Definition backwards (t : Z) (l : list Z) : list Z := reverse l.

(** The single-source scenario of the specification: a 32 x 32 grid with
    nxi = 16, model term 2 everywhere, both fields zero, one source at
    interior (4, 4) with amplitude 3. *)
Definition quiet : mem spec_float :=
  Mem (replicate 1024 (b32_of_Z 0)) (replicate 1024 (b32_of_Z 0))
      (replicate 1024 (b32_of_Z 2)) [b32_of_Z 3] [4] [4].

Definition nonzero (x : spec_float) : bool :=
  match x with S754_zero _ => false | _ => true end.
End Demo.

(** ** A call whose rows overlap

    An 18 x 18 index space with nxi = 20 on arrays of 340 cells: every
    access of the sweep is inside the arrays, and rows 8 and 9 both contain
    the flat indices 170 and 171. *)

Module DemoRace.
Definition m : mem spec_float :=
  Mem ((fun q => b32_of_Z (q mod 7)) <$> seqZ 0 340)
      ((fun q => b32_of_Z (q mod 5)) <$> seqZ 0 340)
      (replicate 340 (b32_of_Z 2)) [] [] [].

End DemoRace.

(** ** Calling [step] again

    A caller that continues a run with a second call passes the two field
    arrays in the order the first call left them and the source table
    advanced by the samples already used. *)

(** The caller's memory with the two field arrays passed in the other
    order. *)
Definition exchange {F} (m : mem F) : mem F :=
  Mem (arrB m) (arrA m) (model_padded2_dt2 m) (sources m) (sources_x m)
      (sources_y m).

Definition exchange_if {F} (c : bool) (m : mem F) : mem F :=
  if c then exchange m else m.

Definition flip (p : ptr) : ptr := match p with PA => PB | PB => PA end.

Definition flip_bufs (b : bufs) : bufs := Bufs (flip (cur b)) (flip (prev b)).

(** The caller's memory with another source table. *)
Definition with_sources {F} (s : list F) (m : mem F) : mem F :=
  Mem (arrA m) (arrB m) (model_padded2_dt2 m) s (sources_x m) (sources_y m).

(** [sources + n]: the table seen through the pointer advanced by [n]
    samples. *)
Definition advance {F} (n : Z) (s : list F) : list F := drop (Z.to_nat n) s.

(** ** What a call can see

    The cells of a field array that the sweep reads or writes: the interior
    and the four halo strips beside it.  The corners of the halo and the
    columns from nxi + 16 on are not among them. *)

Definition in_reach (ny nxi r c : Z) : Prop :=
  0 <= r < ny /\ 0 <= c < nxi + 16 /\ (8 <= r < ny - 8 \/ 8 <= c < nxi + 8).

(** Two memories that agree on everything a call of [n] time steps reads:
    the reachable cells of both field arrays, the model at the interior
    cells, the source positions and the first [n] samples of every
    source. *)
Definition same_reach {F} `{FloatOps F} (nx ny nxi num_sources source_len n : Z)
    (m m' : mem F) : Prop :=
  (forall p r c, in_reach ny nxi r c ->
     cellv (rd m p) nx r c = cellv (rd m' p) nx r c) /\
  (forall i j, interior_cell ny nxi i j ->
     cellv (model_padded2_dt2 m) nx i j = cellv (model_padded2_dt2 m') nx i j) /\
  sources_x m = sources_x m' /\ sources_y m = sources_y m' /\
  (forall s t, 0 <= s < num_sources -> 0 <= t < n ->
     amplitude (sources m) source_len s t
     = amplitude (sources m') source_len s t).

(** [Demo.m] with other values where a call of one time step does not
    look: the corner cell (0, 0) of the array passed as [f], the model at
    the halo cell (0, 0), and the second sample of the first source. *)
Module DemoReach.
Definition other : spec_float := b32_of_Z 99.

Definition m' : mem spec_float :=
  Mem (<[Z.to_nat 0 := other]> (arrA Demo.m)) (arrB Demo.m)
      (<[Z.to_nat 0 := other]> (model_padded2_dt2 Demo.m))
      (<[Z.to_nat 1 := other]> (sources Demo.m))
      (sources_x Demo.m) (sources_y Demo.m).

(** [Demo.quiet] with another value in the interior cell (20, 20) of the
    array passed as [f]. *)
Definition far : mem spec_float :=
  Mem (<[Z.to_nat (20 * 32 + 20) := other]> (arrA Demo.quiet))
      (arrB Demo.quiet) (model_padded2_dt2 Demo.quiet) (sources Demo.quiet)
      (sources_x Demo.quiet) (sources_y Demo.quiet).
End DemoReach.

(** ** What a defined call has touched *)

(** Flat index [q] is an [int] and lies inside array [a]. *)
Definition readable {A} (a : list A) (q : Z) : Prop :=
  0 <= q < Z.of_nat (length a) /\ q <= INT_MAX.

(** Every access of the stencil at cell (i, j) is inside its array: the
    centre in [f], [fp] and the model, and the four neighbours at each
    offset k = 1..8 in [f]. *)
Definition stencil_fits {A} (f fp model : list A) (nx i j : Z) : Prop :=
  readable f (i * nx + j) /\ readable fp (i * nx + j) /\
  readable model (i * nx + j) /\
  forall k, 1 <= k <= 8 ->
    readable f (i * nx + j + k) /\ readable f (i * nx + j - k) /\
    readable f ((i + k) * nx + j) /\ readable f ((i - k) * nx + j).

(** ** Calls without sources *)

(** The caller's memory with empty source tables (no element of them can be
    read), and a memory with the source tables of another. *)
Definition no_tables {F} (m : mem F) : mem F :=
  Mem (arrA m) (arrB m) (model_padded2_dt2 m) [] [] [].

Definition with_tables_of {F} (m0 m : mem F) : mem F :=
  Mem (arrA m) (arrB m) (model_padded2_dt2 m) (sources m0) (sources_x m0)
      (sources_y m0).

(** ** How far a change travels *)

(** Cell (r, c) is within [d] cells of cell (i0, j0), counting steps along
    rows and columns. *)
Definition near (i0 j0 d r c : Z) : Prop :=
  Z.abs (r - i0) + Z.abs (c - j0) <= d.

(** Two memories that agree within [d] cells of (i0, j0): on both field
    arrays, on the model at interior cells, and on the first [n] samples of
    the sources placed there; the source positions are the same. *)
Definition agree_near {F} `{FloatOps F}
    (nx ny nxi num_sources source_len n i0 j0 d : Z) (m m' : mem F) : Prop :=
  (forall p r c, 0 <= r < ny -> 0 <= c < nx -> near i0 j0 d r c ->
     cellv (rd m p) nx r c = cellv (rd m' p) nx r c) /\
  (forall r c, interior_cell ny nxi r c -> near i0 j0 d r c ->
     cellv (model_padded2_dt2 m) nx r c = cellv (model_padded2_dt2 m') nx r c) /\
  sources_x m = sources_x m' /\ sources_y m = sources_y m' /\
  (forall s t, 0 <= s < num_sources -> 0 <= t < n ->
     near i0 j0 d (source_row (sources_y m) s) (source_col (sources_x m) s) ->
     amplitude (sources m) source_len s t
     = amplitude (sources m') source_len s t).

(** * Properties *)

(** ** [int] operations and array accesses *)

Lemma int_of_Some z : INT_MIN <= z <= INT_MAX -> int_of z = Some z.
Proof.
  intros Hz. unfold int_of, in_int.
  destruct (Z.leb_spec INT_MIN z), (Z.leb_spec z INT_MAX); simpl; auto; lia.
Qed.

Lemma int_of_inv z r : int_of z = Some r -> r = z /\ INT_MIN <= z <= INT_MAX.
Proof.
  unfold int_of, in_int.
  destruct (Z.leb_spec INT_MIN z), (Z.leb_spec z INT_MAX); simpl; intros [= <-]; lia.
Qed.

Lemma at2_Some row nx col :
  INT_MIN <= row * nx <= INT_MAX -> INT_MIN <= row * nx + col <= INT_MAX ->
  at2 row nx col = Some (row * nx + col).
Proof.
  intros H1 H2. unfold at2, imul, iadd.
  rewrite (int_of_Some _ H1). simpl. now rewrite (int_of_Some _ H2).
Qed.

Lemma at2_inv row nx col q : at2 row nx col = Some q -> q = row * nx + col.
Proof.
  unfold at2, imul, iadd. destruct (int_of (row * nx)) as [p|] eqn:Hp; simpl; [|done].
  apply int_of_inv in Hp as [-> _]. intros Hq. now apply int_of_inv in Hq as [-> _].
Qed.

Lemma ld_Some {A} (a : list A) i :
  0 <= i < Z.of_nat (length a) -> exists x, ld a i = Some x.
Proof.
  intros Hi. unfold ld. destruct (Z.leb_spec 0 i); [|lia].
  apply lookup_lt_is_Some_2. lia.
Qed.

Lemma ld_inv {A} (a : list A) i x :
  ld a i = Some x -> 0 <= i < Z.of_nat (length a) /\ a !! Z.to_nat i = Some x.
Proof.
  unfold ld. destruct (Z.leb_spec 0 i); [|done]. intros Hx. split; [|done].
  apply lookup_lt_Some in Hx. lia.
Qed.

Lemma st_Some {A} (a : list A) i v :
  0 <= i < Z.of_nat (length a) -> st a i v = Some (<[Z.to_nat i := v]> a).
Proof.
  intros Hi. unfold st.
  destruct (Z.leb_spec 0 i), (Z.ltb_spec i (Z.of_nat (length a))); simpl; auto; lia.
Qed.

Lemma st_inv {A} (a a' : list A) i v :
  st a i v = Some a' ->
  0 <= i < Z.of_nat (length a) /\ a' = <[Z.to_nat i := v]> a.
Proof.
  unfold st.
  destruct (Z.leb_spec 0 i), (Z.ltb_spec i (Z.of_nat (length a))); simpl;
    intros [= <-]; split; auto; lia.
Qed.

(** ** Loops *)

Lemma for_from_seqZ {S} n lo (body : Z -> S -> option S) s :
  for_from n lo body s = run_list (seqZ lo (Z.of_nat n)) body s.
Proof.
  revert lo s. induction n as [|n IH]; intros lo s; [done|].
  rewrite seqZ_cons by lia. simpl. destruct (body lo s) as [s'|]; simpl; [|done].
  rewrite IH. do 2 f_equal; lia.
Qed.

Lemma for_loop_seqZ {S} lo hi (body : Z -> S -> option S) s :
  for_loop lo hi body s = run_list (seqZ lo (hi - lo)) body s.
Proof.
  unfold for_loop. rewrite for_from_seqZ. unfold seqZ. now rewrite Nat2Z.id.
Qed.

Lemma for_loop_empty {S} lo hi (body : Z -> S -> option S) s :
  hi <= lo -> for_loop lo hi body s = Some s.
Proof. intros Hle. unfold for_loop. now replace (Z.to_nat (hi - lo)) with O by lia. Qed.

Lemma run_list_app {K S} (l1 l2 : list K) (body : K -> S -> option S) s :
  run_list (l1 ++ l2) body s = run_list l1 body s ≫= run_list l2 body.
Proof.
  revert s. induction l1 as [|k l1 IH]; intros s; simpl; [done|].
  destruct (body k s); simpl; auto.
Qed.

Lemma for_loop_last {S} lo hi (body : Z -> S -> option S) s :
  lo <= hi -> for_loop lo (hi + 1) body s = for_loop lo hi body s ≫= body hi.
Proof.
  intros Hle. rewrite !for_loop_seqZ.
  replace (hi + 1 - lo) with (Z.of_nat (Datatypes.S (Z.to_nat (hi - lo)))) by lia.
  rewrite seqZ_S, run_list_app, Z2Nat.id by lia.
  destruct (run_list (seqZ lo (hi - lo)) body s) as [s'|]; simpl; [|done].
  replace (lo + (hi - lo)) with hi by lia. now destruct (body hi s').
Qed.

Lemma for_loop_split {S} lo mid hi (body : Z -> S -> option S) s :
  lo <= mid <= hi ->
  for_loop lo hi body s = for_loop lo mid body s ≫= for_loop mid hi body.
Proof.
  intros Hm. rewrite for_loop_seqZ.
  replace (hi - lo) with ((mid - lo) + (hi - mid)) by lia.
  rewrite seqZ_app, run_list_app by lia. rewrite <- for_loop_seqZ.
  destruct (for_loop lo mid body s) as [s'|]; simpl; [|done].
  rewrite for_loop_seqZ. do 3 f_equal. lia.
Qed.

Lemma run_list_ext {K S} (l : list K) (b1 b2 : K -> S -> option S) s :
  (forall k s, k ∈ l -> b1 k s = b2 k s) -> run_list l b1 s = run_list l b2 s.
Proof.
  revert s. induction l as [|k l IH]; intros s Hb; simpl; [done|].
  rewrite Hb by left. destruct (b2 k s); simpl; [|done].
  apply IH. intros k' s' Hk'. apply Hb. now right.
Qed.

Lemma for_loop_1_9 {S} (body : Z -> S -> option S) s :
  for_loop 1 9 body s =
  s1 ← body 1 s; s2 ← body 2 s1; s3 ← body 3 s2; s4 ← body 4 s3;
  s5 ← body 5 s4; s6 ← body 6 s5; s7 ← body 7 s6; s8 ← body 8 s7; Some s8.
Proof. reflexivity. Qed.

(** ** Commuting transformers and reordered iterations *)

Lemma commute_run_list {K S} (u : S -> option S) (l : list K)
    (body : K -> S -> option S) :
  (forall k, commute u (body k)) -> commute u (run_list l body).
Proof.
  intros Hu. induction l as [|k l IH]; intros s; simpl.
  - now destruct (u s).
  - pose proof (Hu k s) as Hk.
    destruct (body k s) as [s1|] eqn:Hb; simpl in *.
    + rewrite <- IH. destruct (u s) as [s2|]; simpl in *.
      * now rewrite Hk.
      * now rewrite <- Hk.
    + destruct (u s) as [s2|]; simpl in *; [|done]. now rewrite Hk.
Qed.

Lemma commute_guard {A S} (g : option A) (u v : A -> S -> option S) :
  (forall a, commute (u a) (v a)) ->
  commute (fun s => a ← g; u a s) (fun s => a ← g; v a s).
Proof.
  intros Huv s. destruct g as [a|]; simpl; [apply Huv|done].
Qed.

Lemma run_list_perm {K S} (l l' : list K) (body : K -> S -> option S) :
  (forall k k', commute (body k) (body k')) ->
  l ≡ₚ l' -> forall s, run_list l body s = run_list l' body s.
Proof.
  intros Hc Hp. induction Hp as [|k l l' _ IH|k k' l|l l' l'' _ IH1 _ IH2];
    intros s; simpl.
  - done.
  - destruct (body k s); simpl; auto.
  - specialize (Hc k' k s).
    destruct (body k' s) as [s1|], (body k s) as [s2|]; simpl in *;
      try done; try (now rewrite Hc); try (now rewrite <- Hc).
  - now rewrite IH1.
Qed.

(** ** One cell of the stencil *)

Ltac inv_int :=
  repeat match goal with
  | H : at2 _ _ _ = Some _ |- _ => apply at2_inv in H; subst
  | H : iadd _ _ = Some _ |- _ => apply int_of_inv in H as [-> _]
  | H : isub _ _ = Some _ |- _ => apply int_of_inv in H as [-> _]
  | H : imul _ _ = Some _ |- _ => apply int_of_inv in H as [-> _]
  end.

Section Cells.
Context {F : Type} `{FloatOps F}.

Lemma val_ld (a : list F) q x : ld a q = Some x -> val a q = x.
Proof. intros Hx. unfold val. now rewrite Hx. Qed.

Lemma tap_inv (c f : list F) nx i j k t :
  tap c f nx i j k = Some t -> t = fmul (val c k) (neighbours f nx i j k).
Proof.
  unfold tap, neighbours, cellv. intros Ht.
  simplify_option_eq. inv_int.
  repeat match goal with Hl : ld _ _ = Some _ |- _ => apply val_ld in Hl end.
  subst. now rewrite Z.add_assoc, Z.add_sub_assoc.
Qed.

(** Both files evaluate the same expression tree for a cell. *)
Lemma cell_eq (c f model : list F) nx i j fp :
  Vc6.cell c f model nx i j fp = Vc1.cell c f model nx i j fp.
Proof.
  unfold Vc6.cell, Vc1.cell, Vc1.f_xx.
  destruct (ld c 0) as [c0|]; simpl; [|done].
  destruct (at2 i nx j) as [q|]; simpl; [|done].
  destruct (ld f q) as [x|]; simpl; [|done].
  rewrite for_loop_1_9.
  destruct (tap c f nx i j 1) as [t1|]; simpl; [|done].
  destruct (tap c f nx i j 2) as [t2|]; simpl; [|done].
  destruct (tap c f nx i j 3) as [t3|]; simpl; [|done].
  destruct (tap c f nx i j 4) as [t4|]; simpl; [|done].
  destruct (tap c f nx i j 5) as [t5|]; simpl; [|done].
  destruct (tap c f nx i j 6) as [t6|]; simpl; [|done].
  destruct (tap c f nx i j 7) as [t7|]; simpl; [|done].
  destruct (tap c f nx i j 8) as [t8|]; simpl; done.
Qed.

Lemma laplacian_taps (c f : list F) nx i j c0 x t1 t2 t3 t4 t5 t6 t7 t8 :
  ld c 0 = Some c0 -> ld f (i * nx + j) = Some x ->
  tap c f nx i j 1 = Some t1 -> tap c f nx i j 2 = Some t2 ->
  tap c f nx i j 3 = Some t3 -> tap c f nx i j 4 = Some t4 ->
  tap c f nx i j 5 = Some t5 -> tap c f nx i j 6 = Some t6 ->
  tap c f nx i j 7 = Some t7 -> tap c f nx i j 8 = Some t8 ->
  fadd (fadd (fadd (fadd (fadd (fadd (fadd (fadd
      (fmul (fmul (of_int 2) c0) x) t1) t2) t3) t4) t5) t6) t7) t8
  = laplacian c f nx i j.
Proof.
  intros Hc Hx H1 H2 H3 H4 H5 H6 H7 H8.
  apply tap_inv in H1, H2, H3, H4, H5, H6, H7, H8. subst.
  unfold laplacian, cellv. now rewrite (val_ld _ _ _ Hc), (val_ld _ _ _ Hx).
Qed.

(** A cell update either is undefined whatever [fp] holds, or stores
    [forcing - fp[q]] at the cell's flat index. *)
Lemma cell_shape (c f model : list F) nx i j :
  (forall fp, Vc6.cell c f model nx i j fp = None) \/
  (forall fp, Vc6.cell c f model nx i j fp
              = stencil_at (i * nx + j) (forcing c f model nx i j) fp).
Proof.
  unfold Vc6.cell.
  destruct (ld c 0) as [c0|] eqn:Hc; simpl; [|now left].
  destruct (at2 i nx j) as [q|] eqn:Hq; simpl; [|now left].
  apply at2_inv in Hq as ->.
  destruct (ld f (i * nx + j)) as [x|] eqn:Hx; simpl; [|now left].
  destruct (tap c f nx i j 1) as [t1|] eqn:H1; simpl; [|now left].
  destruct (tap c f nx i j 2) as [t2|] eqn:H2; simpl; [|now left].
  destruct (tap c f nx i j 3) as [t3|] eqn:H3; simpl; [|now left].
  destruct (tap c f nx i j 4) as [t4|] eqn:H4; simpl; [|now left].
  destruct (tap c f nx i j 5) as [t5|] eqn:H5; simpl; [|now left].
  destruct (tap c f nx i j 6) as [t6|] eqn:H6; simpl; [|now left].
  destruct (tap c f nx i j 7) as [t7|] eqn:H7; simpl; [|now left].
  destruct (tap c f nx i j 8) as [t8|] eqn:H8; simpl; [|now left].
  destruct (ld model (i * nx + j)) as [m|] eqn:Hm; simpl; [|now left].
  right. intros fp. unfold stencil_at, update_at.
  destruct (ld fp (i * nx + j)) as [old|]; simpl; [|done].
  rewrite (laplacian_taps c f nx i j c0 x t1 t2 t3 t4 t5 t6 t7 t8) by done.
  unfold forcing, cellv. now rewrite (val_ld _ _ _ Hm), (val_ld _ _ _ Hx).
Qed.
End Cells.

(** ** Point updates, commuting cells and rows *)

Lemma commute_sym {S} (u v : S -> option S) : commute u v -> commute v u.
Proof. intros Huv s. symmetry. apply Huv. Qed.

Lemma commute_ext {S} (u u' v v' : S -> option S) :
  (forall s, u s = u' s) -> (forall s, v s = v' s) -> commute u' v' -> commute u v.
Proof.
  intros Hu Hv Hc s. specialize (Hc s). rewrite Hu, Hv.
  destruct (u' s) as [s1|], (v' s) as [s2|]; simpl in *;
    rewrite ?Hu, ?Hv; done.
Qed.

Section Points.
Context {F : Type} `{FloatOps F}.

Lemma update_at_Some q (g : F -> F) fp old :
  ld fp q = Some old -> update_at q g fp = Some (<[Z.to_nat q := g old]> fp).
Proof.
  intros Hq. unfold update_at. rewrite Hq. simpl.
  apply st_Some. now apply ld_inv in Hq as [? _].
Qed.

Lemma update_at_None q (g : F -> F) fp :
  ld fp q = None -> update_at q g fp = None.
Proof. intros Hq. unfold update_at. now rewrite Hq. Qed.

Lemma ld_insert_ne (fp : list F) q1 q2 v :
  0 <= q1 -> q1 <> q2 -> ld (<[Z.to_nat q1 := v]> fp) q2 = ld fp q2.
Proof.
  intros Hq Hne. unfold ld. destruct (Z.leb_spec 0 q2); [|done].
  apply list_lookup_insert_ne. lia.
Qed.

Lemma ld_insert_eq (fp : list F) q v :
  0 <= q < Z.of_nat (length fp) -> ld (<[Z.to_nat q := v]> fp) q = Some v.
Proof.
  intros Hq. unfold ld. destruct (Z.leb_spec 0 q); [|lia].
  apply list_lookup_insert_eq. lia.
Qed.

Lemma update_at_commute q1 q2 (g1 g2 : F -> F) :
  q1 <> q2 -> commute (update_at q1 g1) (update_at q2 g2).
Proof.
  intros Hne fp.
  destruct (ld fp q1) as [o1|] eqn:H1, (ld fp q2) as [o2|] eqn:H2.
  - rewrite (update_at_Some _ _ _ _ H1), (update_at_Some _ _ _ _ H2). simpl.
    pose proof (ld_inv _ _ _ H1) as [? _]. pose proof (ld_inv _ _ _ H2) as [? _].
    rewrite (update_at_Some q2 g2 _ o2), (update_at_Some q1 g1 _ o1)
      by (rewrite ld_insert_ne by lia; done).
    f_equal. apply list_insert_insert_ne. lia.
  - rewrite (update_at_Some _ _ _ _ H1), (update_at_None _ _ _ H2). simpl.
    apply update_at_None. pose proof (ld_inv _ _ _ H1) as [? _].
    now rewrite ld_insert_ne by lia.
  - rewrite (update_at_None _ _ _ H1), (update_at_Some _ _ _ _ H2). simpl.
    symmetry. apply update_at_None. pose proof (ld_inv _ _ _ H2) as [? _].
    now rewrite ld_insert_ne by lia.
  - now rewrite (update_at_None _ _ _ H1), (update_at_None _ _ _ H2).
Qed.

Lemma neighbours_flat (f : list F) nx i1 j1 i2 j2 k :
  i1 * nx + j1 = i2 * nx + j2 ->
  neighbours f nx i1 j1 k = neighbours f nx i2 j2 k.
Proof.
  intros Hq. unfold neighbours, cellv.
  replace (i1 * nx + (j1 + k)) with (i2 * nx + (j2 + k)) by lia.
  replace (i1 * nx + (j1 - k)) with (i2 * nx + (j2 - k)) by lia.
  replace ((i1 + k) * nx + j1) with ((i2 + k) * nx + j2) by lia.
  replace ((i1 - k) * nx + j1) with ((i2 - k) * nx + j2) by lia.
  done.
Qed.

Lemma forcing_flat (c f model : list F) nx i1 j1 i2 j2 :
  i1 * nx + j1 = i2 * nx + j2 ->
  forcing c f model nx i1 j1 = forcing c f model nx i2 j2.
Proof.
  intros Hq. unfold forcing, laplacian, cellv. rewrite Hq.
  do 2 f_equal. generalize (fmul (fmul (of_int 2) (val c 0)) (val f (i2 * nx + j2))).
  induction (seqZ 1 8) as [|k l IH]; intros a; simpl; [done|].
  rewrite (neighbours_flat f nx i1 j1 i2 j2 k Hq). apply IH.
Qed.

(** Any two cell updates of one sweep commute. *)
Lemma cell_commute (c f model : list F) nx i1 j1 i2 j2 :
  commute (Vc6.cell c f model nx i1 j1) (Vc6.cell c f model nx i2 j2).
Proof.
  intros fp.
  destruct (cell_shape c f model nx i1 j1) as [N1|S1],
           (cell_shape c f model nx i2 j2) as [N2|S2].
  - now rewrite N1, N2.
  - rewrite N1. simpl. destruct (Vc6.cell c f model nx i2 j2 fp); simpl; auto.
  - rewrite N2. simpl. destruct (Vc6.cell c f model nx i1 j1 fp); simpl; auto.
  - destruct (decide (i1 * nx + j1 = i2 * nx + j2)) as [Heq|Hne].
    + rewrite S1, S2, Heq, (forcing_flat c f model nx i1 j1 i2 j2 Heq).
      destruct (stencil_at _ _ fp) as [fp'|]; simpl; [|done].
      now rewrite S1, S2, Heq, (forcing_flat c f model nx i1 j1 i2 j2 Heq).
    + rewrite S1, S2.
      pose proof (update_at_commute _ _ (fsub (forcing c f model nx i1 j1))
        (fsub (forcing c f model nx i2 j2)) Hne fp) as Hc.
      unfold stencil_at.
      destruct (update_at (i1 * nx + j1) _ fp) as [fp1|],
               (update_at (i2 * nx + j2) _ fp) as [fp2|]; simpl in *;
        rewrite ?S1, ?S2; done.
Qed.

(** Rows of one sweep commute, so the runtime's order is immaterial. *)
Lemma row_commute (c f model : list F) nx nxi i1 i2 :
  commute (fun fp => hj ← iadd nxi 8; for_loop 8 hj (Vc6.cell c f model nx i1) fp)
          (fun fp => hj ← iadd nxi 8; for_loop 8 hj (Vc6.cell c f model nx i2) fp).
Proof.
  apply (commute_guard (iadd nxi 8)
           (fun hj => for_loop 8 hj (Vc6.cell c f model nx i1))
           (fun hj => for_loop 8 hj (Vc6.cell c f model nx i2))).
  intros hj.
  apply (commute_ext _ (run_list (seqZ 8 (hj - 8)) (Vc6.cell c f model nx i1))
                     _ (run_list (seqZ 8 (hj - 8)) (Vc6.cell c f model nx i2)));
    try (intros fp; apply for_loop_seqZ).
  apply commute_run_list. intros j2. apply commute_sym.
  apply commute_run_list. intros j1. apply commute_sym, cell_commute.
Qed.

Lemma parallel_for_rows (order : list Z -> list Z) (c f model : list F)
    nx nxi lo hi fp :
  schedule order ->
  omp_parallel_for order lo hi
    (fun i fp => hj ← iadd nxi 8; for_loop 8 hj (Vc6.cell c f model nx i) fp) fp
  = for_loop lo hi
    (fun i fp => hj ← iadd nxi 8; for_loop 8 hj (Vc6.cell c f model nx i) fp) fp.
Proof.
  intros Ho. unfold omp_parallel_for. rewrite for_loop_seqZ.
  apply run_list_perm; [|apply Ho].
  intros i1 i2. apply row_commute.
Qed.
End Points.

(** ** Sweeps of point updates *)

Lemma run_list_fmap {K K' S} (h : K -> K') (l : list K)
    (body : K' -> S -> option S) s :
  run_list (h <$> l) body s = run_list l (fun k => body (h k)) s.
Proof.
  revert s. induction l as [|k l IH]; intros s; simpl; [done|].
  destruct (body (h k) s); simpl; auto.
Qed.

Lemma run_list_bind {K K' S} (fl : K -> list K') (l : list K)
    (body : K' -> S -> option S) s :
  run_list (l ≫= fl) body s = run_list l (fun k s => run_list (fl k) body s) s.
Proof.
  revert s. induction l as [|k l IH]; intros s; simpl; [done|].
  rewrite run_list_app. destruct (run_list (fl k) body s); simpl; auto.
Qed.

Lemma filter_none {K} (idx : K -> Z) (l : list K) q :
  (forall k, k ∈ l -> idx k <> q) -> filter (fun k => idx k = q) l = [].
Proof.
  induction l as [|k l IH]; intros Hq; [done|].
  rewrite filter_cons. destruct (decide (idx k = q)) as [Heq|_].
  - exfalso. apply (Hq k); [left|done].
  - apply IH. intros k' Hk'. apply Hq. now right.
Qed.

Lemma filter_unique {K} (idx : K -> Z) (l : list K) k0 :
  NoDup l -> k0 ∈ l -> (forall k, k ∈ l -> idx k = idx k0 -> k = k0) ->
  filter (fun k => idx k = idx k0) l = [k0].
Proof.
  intros Hnd. induction Hnd as [|k l Hk Hnd IH]; intros Hin Hinj.
  - inversion Hin.
  - rewrite filter_cons. destruct (decide (idx k = idx k0)) as [Heq|Hne].
    + assert (k = k0) as -> by (apply Hinj; [left|done]).
      f_equal. apply filter_none. intros k Hkl Hq.
      apply Hk. rewrite <- (Hinj k); [done| now right |done].
    + apply IH.
      * apply elem_of_cons in Hin as [->|Hin]; [done|done].
      * intros k' Hk'. apply Hinj. now right.
Qed.

Lemma flat_range nx ny r c :
  0 <= r < ny -> 0 <= c < nx -> 0 <= r * nx /\ 0 <= r * nx + c < ny * nx.
Proof. intros Hr Hc. nia. Qed.

Lemma flat_inj nx r c r' c' :
  0 <= c < nx -> 0 <= c' < nx -> r * nx + c = r' * nx + c' -> r = r' /\ c = c'.
Proof.
  intros Hc Hc' Heq.
  assert ((r - r') * nx = c' - c) as Hd by lia.
  assert (r = r') as -> by (destruct (Z.lt_trichotomy r r') as [?|[?|?]]; nia).
  lia.
Qed.

Lemma elem_of_interior_cells ny nxi i j :
  (i, j) ∈ interior_cells ny nxi <-> interior_cell ny nxi i j.
Proof.
  unfold interior_cells, interior_cell. rewrite list_elem_of_bind. split.
  - intros (i' & Hj & Hi). apply list_elem_of_fmap in Hj as (j' & [= -> ->] & Hj).
    apply elem_of_seqZ in Hi, Hj. lia.
  - intros [Hi Hj]. exists i. split.
    + apply list_elem_of_fmap. exists j. split; [done|]. apply elem_of_seqZ. lia.
    + apply elem_of_seqZ. lia.
Qed.

Lemma NoDup_interior_cells ny nxi : NoDup (interior_cells ny nxi).
Proof.
  unfold interior_cells. apply NoDup_bind.
  - intros i1 i2 [i j] _ _ H1 H2.
    apply list_elem_of_fmap in H1 as (? & [= -> ->] & _).
    apply list_elem_of_fmap in H2 as (? & [= -> ->] & _). done.
  - intros i _. apply NoDup_fmap_2; [|apply NoDup_seqZ]. now intros ? ? [= ->].
  - apply NoDup_seqZ.
Qed.

Section Sweep.
Context {F : Type} `{FloatOps F}.

Lemma ld_val (a : list F) q :
  0 <= q < Z.of_nat (length a) -> ld a q = Some (val a q).
Proof. intros Hq. destruct (ld_Some a q Hq) as [x Hx]. now rewrite (val_ld _ _ _ Hx). Qed.

Lemma val_insert (fp : list F) q q' v :
  0 <= q < Z.of_nat (length fp) ->
  val (<[Z.to_nat q := v]> fp) q' = if decide (q = q') then v else val fp q'.
Proof.
  intros Hq. unfold val. destruct (decide (q = q')) as [<-|Hne].
  - now rewrite ld_insert_eq.
  - now rewrite ld_insert_ne by lia.
Qed.

(** A sequence of point updates, read back cell by cell: the value at
    [q] is the old value run through the updates that address [q], in
    order. *)
Lemma run_points {K} (l : list K) (body : K -> list F -> option (list F))
    (idx : K -> Z) (g : K -> F -> F) (fp : list F) :
  (forall k s, k ∈ l -> body k s = update_at (idx k) (g k) s) ->
  (forall k, k ∈ l -> 0 <= idx k < Z.of_nat (length fp)) ->
  exists fp', run_list l body fp = Some fp' /\ length fp' = length fp /\
    forall q, val fp' q
              = foldl (fun acc k => g k acc) (val fp q)
                      (filter (fun k => idx k = q) l).
Proof.
  revert fp. induction l as [|k l IH]; intros fp Hb Hr.
  - exists fp. simpl. auto.
  - simpl. rewrite Hb by left.
    assert (0 <= idx k < Z.of_nat (length fp)) as Hk by (apply Hr; left).
    rewrite (update_at_Some _ _ _ _ (ld_val fp _ Hk)). simpl.
    destruct (IH (<[Z.to_nat (idx k) := g k (val fp (idx k))]> fp))
      as (fp' & Hrun & Hlen & Hval).
    + intros k' s Hk'. apply Hb. now right.
    + intros k' Hk'. rewrite length_insert. apply Hr. now right.
    + exists fp'. split; [done|]. split; [now rewrite Hlen, length_insert|].
      intros q. rewrite Hval, val_insert, filter_cons by done.
      destruct (decide (idx k = q)) as [<-|Hne]; done.
Qed.
End Sweep.

(** ** The sweep over the interior *)

Lemma for_loop_ext {S} lo hi (b1 b2 : Z -> S -> option S) s :
  (forall k s, b1 k s = b2 k s) -> for_loop lo hi b1 s = for_loop lo hi b2 s.
Proof. intros Hb. rewrite !for_loop_seqZ. apply run_list_ext. auto. Qed.

Section Variants.
Context {F : Type} `{FloatOps F}.

(** The row-parallel sweep of vc6.c computes what the nested loops of
    vc1.c compute, whatever order the runtime picks. *)
Lemma sweep_eq (order : list Z -> list Z) (c f model : list F) nx ny nxi fp :
  schedule order ->
  Vc6.sweep order c f model nx ny nxi fp
  = Vc1.interior c f model nx ny nxi fp.
Proof.
  intros Ho. unfold Vc6.sweep, Vc1.interior. destruct (isub ny 8) as [hi|]; simpl; [|done].
  rewrite parallel_for_rows by done. apply for_loop_ext. intros i s.
  destruct (iadd nxi 8) as [hj|]; simpl; [|done].
  apply for_loop_ext. intros j s'. apply cell_eq.
Qed.
End Variants.

Section Defined.
Context {F : Type} `{FloatOps F}.
Variables (nx ny nxi : Z).
Hypothesis Hgrid : wf_grid nx ny nxi = true.

Lemma wf_grid_inv :
  0 <= ny /\ 0 <= nxi /\ nxi + 16 <= nx /\ ny * nx <= INT_MAX.
Proof.
  unfold wf_grid in Hgrid. rewrite !andb_true_iff, !Z.leb_le in Hgrid. lia.
Qed.

Lemma int_flat r c :
  0 <= r < ny -> 0 <= c < nx ->
  INT_MIN <= r * nx <= INT_MAX /\ INT_MIN <= r * nx + c <= INT_MAX.
Proof.
  intros Hr Hc. pose proof wf_grid_inv as (? & ? & ? & ?).
  pose proof (flat_range nx ny r c Hr Hc). unfold INT_MIN, INT_MAX in *. lia.
Qed.

Lemma at2_grid r c :
  0 <= r < ny -> 0 <= c < nx -> at2 r nx c = Some (r * nx + c).
Proof. intros Hr Hc. destruct (int_flat r c Hr Hc). now apply at2_Some. Qed.

Lemma ld_grid (a : list F) r c :
  Z.of_nat (length a) = ny * nx -> 0 <= r < ny -> 0 <= c < nx ->
  ld a (r * nx + c) = Some (cellv a nx r c).
Proof.
  intros Ha Hr Hc. apply ld_val. rewrite Ha.
  pose proof (flat_range nx ny r c Hr Hc). lia.
Qed.

Lemma tap_defined (c f : list F) i j k :
  length c = 9%nat -> Z.of_nat (length f) = ny * nx ->
  1 <= k <= 8 -> 8 <= i < ny - 8 -> 8 <= j < nx - 8 ->
  tap c f nx i j k = Some (fmul (val c k) (neighbours f nx i j k)).
Proof.
  intros Hc Hf Hk Hi Hj. pose proof wf_grid_inv as (? & ? & ? & ?).
  assert (is_Some (tap c f nx i j k)) as [t Ht]; [|now rewrite Ht, (tap_inv _ _ _ _ _ _ _ Ht)].
  unfold tap. rewrite (ld_val c k) by lia. simpl.
  rewrite (at2_grid i j) by lia. simpl.
  unfold iadd, isub.
  destruct (int_flat i (j + k)) as [_ ?]; [lia|lia|].
  destruct (int_flat i (j - k)) as [_ ?]; [lia|lia|].
  assert (ny <= INT_MAX) by nia.
  rewrite !int_of_Some by (unfold INT_MIN, INT_MAX in *; lia). simpl.
  replace (i * nx + j + k) with (i * nx + (j + k)) by lia.
  replace (i * nx + j - k) with (i * nx + (j - k)) by lia.
  rewrite !ld_grid by lia. simpl.
  rewrite !at2_grid by lia. simpl. rewrite !ld_grid by lia. simpl. done.
Qed.

Lemma cell_defined (c f model : list F) i j fp :
  length c = 9%nat -> Z.of_nat (length f) = ny * nx ->
  Z.of_nat (length model) = ny * nx ->
  interior_cell ny nxi i j ->
  Vc6.cell c f model nx i j fp
  = stencil_at (i * nx + j) (forcing c f model nx i j) fp.
Proof.
  intros Hc Hf Hm [Hi Hj]. pose proof wf_grid_inv as (? & ? & ? & ?).
  destruct (cell_shape c f model nx i j) as [Hn|Hs]; [|apply Hs].
  exfalso. specialize (Hn model). unfold Vc6.cell in Hn.
  rewrite (ld_val c 0) in Hn by lia. simpl in Hn.
  rewrite (at2_grid i j) in Hn by lia. simpl in Hn.
  rewrite !ld_grid in Hn by lia. simpl in Hn.
  rewrite !tap_defined in Hn by lia. simpl in Hn.
  rewrite st_Some in Hn; [done|].
  pose proof (flat_range nx ny i j). lia.
Qed.

Lemma interior_flat (c f model fp : list F) :
  Vc1.interior c f model nx ny nxi fp
  = run_list (interior_cells ny nxi)
             (fun p => Vc6.cell c f model nx p.1 p.2) fp.
Proof.
  pose proof wf_grid_inv as (? & ? & ? & ?).
  unfold Vc1.interior, isub.
  rewrite int_of_Some by (assert (ny <= INT_MAX) by nia; unfold INT_MIN, INT_MAX in *; lia).
  simpl. rewrite for_loop_seqZ. unfold interior_cells.
  replace (ny - 8 - 8) with (ny - 16) by lia.
  rewrite run_list_bind. apply run_list_ext. intros i s Hi.
  apply elem_of_seqZ in Hi. unfold iadd.
  rewrite int_of_Some by (assert (nx <= INT_MAX) by nia; unfold INT_MIN, INT_MAX in *; lia).
  simpl. rewrite for_loop_seqZ, run_list_fmap.
  replace (nxi + 8 - 8) with nxi by lia.
  apply run_list_ext. intros j s' _. simpl. symmetry. apply cell_eq.
Qed.

(** The cell updates of one sweep may be executed in any order. *)
Lemma sweep_cell_order (c f model fp : list F) (l : list (Z * Z)) :
  l ≡ₚ interior_cells ny nxi ->
  run_list l (fun p => Vc6.cell c f model nx p.1 p.2) fp
  = Vc1.interior c f model nx ny nxi fp.
Proof.
  intros Hl. rewrite interior_flat. apply run_list_perm; [|done].
  intros [i1 j1] [i2 j2]. apply cell_commute.
Qed.

(** The sweep over the interior is defined and stores the leapfrog value
    in every interior cell and nothing elsewhere. *)
Lemma interior_spec (c f model fp : list F) :
  length c = 9%nat -> Z.of_nat (length f) = ny * nx ->
  Z.of_nat (length model) = ny * nx -> Z.of_nat (length fp) = ny * nx ->
  exists fp1, Vc1.interior c f model nx ny nxi fp = Some fp1 /\
    length fp1 = length fp /\
    forall i j, 0 <= i < ny -> 0 <= j < nx ->
      cellv fp1 nx i j
      = if decide (interior_cell ny nxi i j)
        then leapfrog c f model fp nx i j else cellv fp nx i j.
Proof.
  intros Hc Hf Hm Hfp. pose proof wf_grid_inv as (? & ? & ? & ?).
  rewrite interior_flat.
  destruct (run_points (interior_cells ny nxi)
              (fun p => Vc6.cell c f model nx p.1 p.2)
              (fun p => p.1 * nx + p.2)
              (fun p old => fsub (forcing c f model nx p.1 p.2) old) fp)
    as (fp1 & Hrun & Hlen & Hval).
  - intros [i j] s Hp. apply elem_of_interior_cells in Hp.
    now apply cell_defined.
  - intros [i j] Hp. apply elem_of_interior_cells in Hp as [Hi Hj]. simpl.
    pose proof (flat_range nx ny i j). lia.
  - exists fp1. split; [done|]. split; [done|]. intros i j Hi Hj.
    unfold cellv at 1. rewrite Hval.
    destruct (decide (interior_cell ny nxi i j)) as [Hin|Hout].
    + rewrite (filter_unique (fun p => p.1 * nx + p.2) _ (i, j)).
      * done.
      * apply NoDup_interior_cells.
      * now apply elem_of_interior_cells.
      * intros [i' j'] Hp Heq. apply elem_of_interior_cells in Hp as [Hi' Hj'].
        simpl in Heq. apply flat_inj in Heq as [-> ->]; [done|lia|lia].
    + rewrite filter_none; [done|].
      intros [i' j'] Hp Heq. apply elem_of_interior_cells in Hp as [Hi' Hj'].
      simpl in Heq. apply flat_inj in Heq as [-> ->]; [|lia|lia].
      apply Hout. done.
Qed.
End Defined.

(** ** The source loop *)

Lemma foldl_ext_in {A K} (f g : A -> K -> A) (l : list K) a :
  (forall a k, k ∈ l -> f a k = g a k) -> foldl f a l = foldl g a l.
Proof.
  revert a. induction l as [|k l IH]; intros a Hfg; simpl; [done|].
  rewrite Hfg by left. apply IH. intros a' k' Hk'. apply Hfg. now right.
Qed.

Lemma source_x_inside (srcs_x : list Z) nxi num_sources s :
  Z.of_nat (length srcs_x) = num_sources ->
  Forall (fun x => 0 <= x < nxi) srcs_x ->
  0 <= s < num_sources ->
  exists x, ld srcs_x s = Some x /\ 0 <= x < nxi /\ source_col srcs_x s = x + 8.
Proof.
  intros Hsx Hx Hs. destruct (ld_Some srcs_x s) as [x Hl]; [lia|].
  exists x. split; [done|]. split.
  - apply ld_inv in Hl as [_ Hl]. rewrite Forall_lookup in Hx. apply (Hx _ _ Hl).
  - unfold source_col. now rewrite Hl.
Qed.

Lemma source_y_inside (srcs_y : list Z) ny num_sources s :
  Z.of_nat (length srcs_y) = num_sources ->
  Forall (fun y => 0 <= y < ny - 16) srcs_y ->
  0 <= s < num_sources ->
  exists y, ld srcs_y s = Some y /\ 0 <= y < ny - 16 /\ source_row srcs_y s = y + 8.
Proof.
  intros Hsy Hy Hs. destruct (ld_Some srcs_y s) as [y Hl]; [lia|].
  exists y. split; [done|]. split.
  - apply ld_inv in Hl as [_ Hl]. rewrite Forall_lookup in Hy. apply (Hy _ _ Hl).
  - unfold source_row. now rewrite Hl.
Qed.

(** Every source sits on an interior cell. *)
Lemma source_interior ny nxi (srcs_x srcs_y : list Z) num_sources s :
  Z.of_nat (length srcs_x) = num_sources ->
  Z.of_nat (length srcs_y) = num_sources ->
  Forall (fun x => 0 <= x < nxi) srcs_x ->
  Forall (fun y => 0 <= y < ny - 16) srcs_y ->
  0 <= s < num_sources ->
  interior_cell ny nxi (source_row srcs_y s) (source_col srcs_x s).
Proof.
  intros Hsx Hsy Hx Hy Hs.
  destruct (source_x_inside _ _ _ _ Hsx Hx Hs) as (x & _ & ? & ->).
  destruct (source_y_inside _ _ _ _ Hsy Hy Hs) as (y & _ & ? & ->).
  unfold interior_cell. lia.
Qed.

Section Injection.
Context {F : Type} `{FloatOps F}.
Variables (nx ny nxi : Z) (model srcs : list F) (srcs_x srcs_y : list Z).
Variables (num_sources source_len : Z).
Hypothesis Hgrid : wf_grid nx ny nxi = true.
Hypothesis Hmodel : Z.of_nat (length model) = ny * nx.
Hypothesis Hlen : 0 <= source_len.
Hypothesis Hint : num_sources * source_len <= INT_MAX.
Hypothesis Hsx : Z.of_nat (length srcs_x) = num_sources.
Hypothesis Hsy : Z.of_nat (length srcs_y) = num_sources.
Hypothesis Hsrc : Z.of_nat (length srcs) = num_sources * source_len.
Hypothesis Hx : Forall (fun x => 0 <= x < nxi) srcs_x.
Hypothesis Hy : Forall (fun y => 0 <= y < ny - 16) srcs_y.

Lemma inject_defined t s fp :
  0 <= s < num_sources -> 0 <= t < source_len ->
  Vc1.inject model srcs srcs_x srcs_y nx source_len t s fp
  = add_at (source_cell srcs_x srcs_y nx s)
           (fmul (val model (source_cell srcs_x srcs_y nx s))
                 (amplitude srcs source_len s t)) fp.
Proof.
  intros Hs Ht. pose proof (wf_grid_inv nx ny nxi Hgrid) as (? & ? & ? & ?).
  destruct (source_x_inside _ _ _ _ Hsx Hx Hs) as (x & Hlx & ? & Hcol).
  destruct (source_y_inside _ _ _ _ Hsy Hy Hs) as (y & Hly & ? & Hrow).
  unfold Vc1.inject, source_cell, amplitude, add_at, update_at.
  rewrite Hlx, Hly, Hcol, Hrow. simpl. unfold iadd, imul.
  assert (nx <= INT_MAX) by nia. assert (ny <= INT_MAX) by nia.
  assert (0 <= s * source_len /\ s * source_len + t < num_sources * source_len)
    as [? ?] by nia.
  rewrite !int_of_Some by (unfold INT_MIN, INT_MAX in *; lia). simpl.
  rewrite !(at2_grid nx ny nxi Hgrid) by lia. simpl.
  destruct (ld fp ((y + 8) * nx + (x + 8))) as [old|]; simpl; [|done].
  rewrite (ld_grid nx ny) by lia. simpl.
  rewrite int_of_Some by (unfold INT_MIN, INT_MAX in *; lia). simpl.
  rewrite (ld_val srcs) by lia. simpl. done.
Qed.

(** The source loop is defined up to any source [k]; it leaves in each
    cell the value it found there plus, source after source, what the
    sources of that cell add. *)
Lemma inject_spec t k fp :
  0 <= t < source_len -> 0 <= k <= num_sources ->
  Z.of_nat (length fp) = ny * nx ->
  exists fp2,
    for_loop 0 k
      (Vc1.inject model srcs srcs_x srcs_y nx source_len t) fp = Some fp2 /\
    length fp2 = length fp /\
    forall q, val fp2 q
              = accumulate model srcs source_len t q
                  (sources_at srcs_x srcs_y nx k q) (val fp q).
Proof.
  intros Ht Hk Hfp. pose proof (wf_grid_inv nx ny nxi Hgrid) as (? & ? & ? & ?).
  rewrite for_loop_seqZ, Z.sub_0_r.
  destruct (run_points (seqZ 0 k)
              (Vc1.inject model srcs srcs_x srcs_y nx source_len t)
              (source_cell srcs_x srcs_y nx)
              (fun s old => fadd old
                 (fmul (val model (source_cell srcs_x srcs_y nx s))
                       (amplitude srcs source_len s t))) fp)
    as (fp2 & Hrun & Hl & Hval).
  - intros s fp' Hs. apply elem_of_seqZ in Hs. apply inject_defined; lia.
  - intros s Hs. apply elem_of_seqZ in Hs.
    destruct (source_interior ny nxi _ _ _ s Hsx Hsy Hx Hy) as [? ?]; [lia|].
    unfold source_cell.
    pose proof (flat_range nx ny (source_row srcs_y s) (source_col srcs_x s)).
    lia.
  - exists fp2. split; [done|]. split; [done|]. intros q. rewrite Hval.
    unfold accumulate, sources_at. apply foldl_ext_in.
    intros a s Hs. apply list_elem_of_filter in Hs as [-> _]. done.
Qed.
End Injection.

(** ** Well-formed calls and the time loop *)

Lemma forallb_Forall_range lo hi (l : list Z) :
  forallb (fun x => (lo <=? x) && (x <? hi)) l = true ->
  Forall (fun x => lo <= x < hi) l.
Proof.
  induction l as [|x l IH]; simpl; intros Hl; [constructor|].
  apply andb_true_iff in Hl as [Hx Hl]. apply andb_true_iff in Hx as [H1 H2].
  constructor; [lia|auto].
Qed.

Lemma wf_call_inv {F} (m : mem F) nx ny nxi num_sources source_len num_steps :
  wf_call m nx ny nxi num_sources source_len num_steps = true ->
  wf_grid nx ny nxi = true /\
  Z.of_nat (length (arrA m)) = ny * nx /\
  Z.of_nat (length (arrB m)) = ny * nx /\
  Z.of_nat (length (model_padded2_dt2 m)) = ny * nx /\
  0 <= num_sources /\ 0 <= source_len /\
  num_sources * source_len <= INT_MAX /\
  num_steps <= source_len /\
  Z.of_nat (length (sources_x m)) = num_sources /\
  Z.of_nat (length (sources_y m)) = num_sources /\
  Z.of_nat (length (sources m)) = num_sources * source_len /\
  Forall (fun x => 0 <= x < nxi) (sources_x m) /\
  Forall (fun y => 0 <= y < ny - 16) (sources_y m).
Proof.
  unfold wf_call, wf_bufs, wf_sources. rewrite !andb_true_iff.
  intros [[Hg [[HA HB] HM]] [[[[[[[[? ?] ?] ?] ?] ?] ?] Hx] Hy]].
  apply forallb_Forall_range in Hx, Hy. repeat split; auto; lia.
Qed.

Lemma wf_call_frame {F} P (m m' : mem F) nx ny nxi num_sources source_len num_steps :
  mem_frame P m m' ->
  wf_call m nx ny nxi num_sources source_len num_steps = true ->
  wf_call m' nx ny nxi num_sources source_len num_steps = true.
Proof.
  intros (HA & HB & _ & HM & HS & HX & HY).
  unfold wf_call, wf_bufs, wf_sources. now rewrite HA, HB, HM, HS, HX, HY.
Qed.

Lemma iter_swap n :
  Nat.iter n swap entry = if Nat.even n then entry else swap entry.
Proof.
  induction n as [|n IH]; [done|]. rewrite Nat.even_succ, <- Nat.negb_even.
  simpl. rewrite IH. now destruct (Nat.even n).
Qed.

Lemma rd_wr_same {F} (m : mem F) p b : rd (wr m p b) p = b.
Proof. now destruct p. Qed.

Lemma rd_wr_other {F} (m : mem F) p p' b : p <> p' -> rd (wr m p b) p' = rd m p'.
Proof. destruct p, p'; simpl; congruence. Qed.

Section Steps.
Context {F : Type} `{FloatOps F}.

Lemma fd_coeff_eq (dx : F) : Vc6.fd_coeff dx = Vc1.fd_coeff dx.
Proof. reflexivity. Qed.

Lemma inject_eq model srcs srcs_x srcs_y nx source_len step i (fp : list F) :
  Vc6.inject model srcs srcs_x srcs_y nx source_len step i fp
  = Vc1.inject model srcs srcs_x srcs_y nx source_len step i fp.
Proof. reflexivity. Qed.

(** One time step of vc6.c is one time step of vc1.c. *)
Lemma time_step_eq (sched : Z -> list Z -> list Z) (c : list F)
    nx ny nxi num_sources source_len t s :
  (forall t, schedule (sched t)) ->
  Vc6.time_step sched c nx ny nxi num_sources source_len t s
  = Vc1.time_step c nx ny nxi num_sources source_len t s.
Proof.
  intros Hs. destruct s as [m b]. unfold Vc6.time_step, Vc1.time_step.
  unfold Vc6.inner, Vc1.body. now rewrite sweep_eq.
Qed.

Lemma run_eq (sched : Z -> list Z -> list Z) (m : mem F)
    nx ny nxi dx num_sources source_len num_steps :
  (forall t, schedule (sched t)) ->
  Vc6.run sched m nx ny nxi dx num_sources source_len num_steps
  = Vc1.run m nx ny nxi dx num_sources source_len num_steps.
Proof.
  intros Hs. unfold Vc6.run, Vc1.run. apply for_loop_ext.
  intros t s. now apply time_step_eq.
Qed.

Lemma run_succ (m : mem F) nx ny nxi dx num_sources source_len t :
  0 <= t ->
  Vc1.run m nx ny nxi dx num_sources source_len (t + 1)
  = Vc1.run m nx ny nxi dx num_sources source_len t
    ≫= Vc1.time_step (Vc1.fd_coeff dx) nx ny nxi num_sources source_len t.
Proof. intros Ht. unfold Vc1.run. now apply for_loop_last. Qed.

(** A run of [n] steps passes through the state after [t <= n] steps and
    continues from it with steps [t], [t + 1], ... *)
Lemma run_prefix (m : mem F) nx ny nxi dx num_sources source_len t n :
  0 <= t <= n ->
  Vc1.run m nx ny nxi dx num_sources source_len n
  = Vc1.run m nx ny nxi dx num_sources source_len t
    ≫= for_loop t n
         (Vc1.time_step (Vc1.fd_coeff dx) nx ny nxi num_sources source_len).
Proof. intros Ht. unfold Vc1.run. now apply for_loop_split. Qed.

Lemma run_none (m : mem F) nx ny nxi dx num_sources source_len n :
  n <= 0 -> Vc1.run m nx ny nxi dx num_sources source_len n = Some (m, entry).
Proof. intros Hn. unfold Vc1.run. now apply for_loop_empty. Qed.

Lemma time_step_inv (c : list F) nx ny nxi num_sources source_len t m0 b0 m' b :
  Vc1.time_step c nx ny nxi num_sources source_len t (m0, b0) = Some (m', b) ->
  exists fp', Vc1.body c m0 b0 nx ny nxi num_sources source_len t = Some fp' /\
              m' = wr m0 (prev b0) fp' /\ b = swap b0.
Proof.
  unfold Vc1.time_step.
  destruct (Vc1.body c m0 b0 nx ny nxi num_sources source_len t) as [fp'|];
    simpl; [|done].
  intros [= <- <-]. now exists fp'.
Qed.

(** The state before the last of [n] time steps. *)
Lemma run_last (m m' : mem F) nx ny nxi dx num_sources source_len n b :
  0 < n ->
  Vc1.run m nx ny nxi dx num_sources source_len n = Some (m', b) ->
  exists m0 b0 fp',
    Vc1.run m nx ny nxi dx num_sources source_len (n - 1) = Some (m0, b0) /\
    Vc1.body (Vc1.fd_coeff dx) m0 b0 nx ny nxi num_sources source_len (n - 1)
      = Some fp' /\
    m' = wr m0 (prev b0) fp' /\ b = swap b0.
Proof.
  intros Hn. replace n with (n - 1 + 1) at 1 by lia. rewrite run_succ by lia.
  destruct (Vc1.run m nx ny nxi dx num_sources source_len (n - 1))
    as [[m0 b0]|]; simpl; [|done].
  intros Hs. apply time_step_inv in Hs as (fp' & ? & ? & ?).
  now exists m0, b0, fp'.
Qed.

(** The pointers after [n] time steps: one swap per step. *)
Lemma run_bufs (m m' : mem F) nx ny nxi dx num_sources source_len n b :
  Vc1.run m nx ny nxi dx num_sources source_len n = Some (m', b) ->
  b = Nat.iter (Z.to_nat n) swap entry.
Proof.
  destruct (Z.le_gt_cases n 0) as [Hn|Hn].
  - rewrite run_none by done. intros [= <- <-].
    now replace (Z.to_nat n) with O by lia.
  - replace n with (Z.of_nat (Z.to_nat n)) at 1 by lia.
    generalize (Z.to_nat n) as k. clear Hn. intros k. revert m' b.
    induction k as [|k IH]; intros m' b.
    + rewrite run_none by done. now intros [= <- <-].
    + intros Hr. apply run_last in Hr as (m0 & b0 & fp' & Hr & _ & _ & ->); [|lia].
      replace (Z.of_nat (S k) - 1) with (Z.of_nat k) in Hr by lia.
      apply IH in Hr as ->. done.
Qed.
End Steps.

(** ** What a defined run can have written *)

Lemma writes_only_run_list {A K} (P : Z -> Prop) (l : list K)
    (body : K -> list A -> option (list A)) :
  (forall k, k ∈ l -> writes_only P (body k)) -> writes_only P (run_list l body).
Proof.
  induction l as [|k l IH]; intros Hb s s'; simpl.
  - intros [= <-]. auto.
  - destruct (body k s) as [s1|] eqn:Hk; simpl; [|done]. intros Hrun.
    destruct (Hb k (list_elem_of_here _ _) s s1 Hk) as [Hl1 Hq1].
    destruct (IH (fun k' Hk' => Hb k' (list_elem_of_further _ _ _ Hk')) s1 s' Hrun)
      as [Hl2 Hq2].
    split; [congruence|]. intros q Hq. rewrite Hq2, Hq1; auto.
Qed.

Lemma writes_only_for_loop {A} (P : Z -> Prop) lo hi
    (body : Z -> list A -> option (list A)) :
  (forall k, lo <= k < hi -> writes_only P (body k)) ->
  writes_only P (for_loop lo hi body).
Proof.
  intros Hb s s'. rewrite for_loop_seqZ. apply writes_only_run_list.
  intros k Hk. apply elem_of_seqZ in Hk. apply Hb. lia.
Qed.

Lemma writes_only_st {A} (P : Z -> Prop) q (s s' : list A) v :
  P q -> st s q v = Some s' ->
  length s' = length s /\ forall q', ~ P q' -> ld s' q' = ld s q'.
Proof.
  intros Hp Hs. apply st_inv in Hs as [Hq ->]. split; [apply length_insert|].
  intros q' Hq'. unfold ld. destruct (Z.leb_spec 0 q'); [|done].
  apply list_lookup_insert_ne. intros Heq. apply Hq'.
  now replace q' with q by lia.
Qed.

(** If a loop is defined, each of its iterations was defined in the state
    it started from. *)
Lemma run_list_defined {K S} (l : list K) (body : K -> S -> option S) s s' k :
  run_list l body s = Some s' -> k ∈ l -> exists s0, is_Some (body k s0).
Proof.
  revert s. induction l as [|k' l IH]; intros s Hrun Hk; [inversion Hk|].
  simpl in Hrun. destruct (body k' s) as [s1|] eqn:Hb; simpl in Hrun; [|done].
  apply elem_of_cons in Hk as [->|Hk].
  - exists s. now rewrite Hb.
  - eapply IH; eauto.
Qed.

Lemma for_loop_defined {S} lo hi (body : Z -> S -> option S) s s' k :
  for_loop lo hi body s = Some s' -> lo <= k < hi ->
  exists s0, is_Some (body k s0).
Proof.
  rewrite for_loop_seqZ. intros Hrun Hk.
  apply (run_list_defined _ _ _ _ k Hrun). apply elem_of_seqZ. lia.
Qed.

Section Written.
Context {F : Type} `{FloatOps F}.

Lemma cell_writes (c f model : list F) nx ny nxi i j :
  interior_cell ny nxi i j ->
  writes_only (interior_index nx ny nxi) (Vc1.cell c f model nx i j).
Proof.
  intros Hij fp fp'. rewrite <- cell_eq.
  destruct (cell_shape c f model nx i j) as [Hn|Hs]; [now rewrite Hn|].
  rewrite Hs. unfold stencil_at, update_at.
  destruct (ld fp (i * nx + j)) as [old|]; simpl; [|done].
  apply writes_only_st. now exists i, j.
Qed.

Lemma interior_writes (c f model : list F) nx ny nxi :
  writes_only (interior_index nx ny nxi) (Vc1.interior c f model nx ny nxi).
Proof.
  intros fp fp'. unfold Vc1.interior.
  destruct (isub ny 8) as [hi|] eqn:Hhi; simpl; [|done].
  apply int_of_inv in Hhi as [-> _].
  apply writes_only_for_loop. intros i Hi fp1 fp1'.
  destruct (iadd nxi 8) as [hj|] eqn:Hhj; simpl; [|done].
  apply int_of_inv in Hhj as [-> _].
  apply writes_only_for_loop. intros j Hj. now apply cell_writes.
Qed.

Lemma inject_writes (model srcs : list F) (srcs_x srcs_y : list Z)
    nx ny nxi source_len t s :
  (forall x, ld srcs_x s = Some x -> 0 <= x < nxi) ->
  (forall y, ld srcs_y s = Some y -> 0 <= y < ny - 16) ->
  writes_only (interior_index nx ny nxi)
              (Vc1.inject model srcs srcs_x srcs_y nx source_len t s).
Proof.
  intros Hx Hy fp fp'. unfold Vc1.inject. intros Hi.
  destruct (ld srcs_x s) as [x|] eqn:Hlx; simpl in Hi; [|done].
  destruct (iadd x 8) as [sx|] eqn:Hsx; simpl in Hi; [|done].
  destruct (ld srcs_y s) as [y|] eqn:Hly; simpl in Hi; [|done].
  destruct (iadd y 8) as [sy|] eqn:Hsy; simpl in Hi; [|done].
  destruct (at2 sy nx sx) as [q|] eqn:Hq; simpl in Hi; [|done].
  inv_int.
  destruct (ld fp _) as [old|]; simpl in Hi; [|done].
  destruct (ld model _) as [mq|]; simpl in Hi; [|done].
  destruct (imul s source_len ≫= _) as [a|]; simpl in Hi; [|done].
  apply (writes_only_st (interior_index nx ny nxi)) in Hi; [done|].
  exists (y + 8), (x + 8). specialize (Hx _ eq_refl). specialize (Hy _ eq_refl).
  unfold interior_cell. split; [lia|done].
Qed.
End Written.

Lemma mem_frame_refl {F} P (m : mem F) : mem_frame P m m.
Proof. unfold mem_frame. repeat split; auto. Qed.

Lemma mem_frame_trans {F} P (m1 m2 m3 : mem F) :
  mem_frame P m1 m2 -> mem_frame P m2 m3 -> mem_frame P m1 m3.
Proof.
  intros (HA & HB & Hh & HM & HS & HX & HY) (HA' & HB' & Hh' & HM' & HS' & HX' & HY').
  unfold mem_frame. repeat split; try congruence.
  - destruct (Hh q) as [E1 _], (Hh' q) as [E2 _]; congruence.
  - destruct (Hh q) as [_ E1], (Hh' q) as [_ E2]; congruence.
Qed.

Lemma sources_inside_frame {F} P (m m' : mem F) ny nxi num_sources :
  mem_frame P m m' -> sources_inside m ny nxi num_sources ->
  sources_inside m' ny nxi num_sources.
Proof.
  intros (_ & _ & _ & _ & _ & HX & HY) Hin. unfold sources_inside.
  now rewrite HX, HY.
Qed.

Section Partial.
Context {F : Type} `{FloatOps F}.

Lemma body_writes (c : list F) (m : mem F) b nx ny nxi num_sources source_len t :
  sources_inside m ny nxi num_sources ->
  writes_only (interior_index nx ny nxi)
    (fun fp =>
       fp1 ← Vc1.interior c (rd m (cur b)) (model_padded2_dt2 m) nx ny nxi fp;
       for_loop 0 num_sources
         (Vc1.inject (model_padded2_dt2 m) (sources m) (sources_x m)
                     (sources_y m) nx source_len t) fp1).
Proof.
  intros Hin fp fp'.
  destruct (Vc1.interior _ _ _ _ _ _ fp) as [fp1|] eqn:Hint; simpl; [|done].
  intros Hinj.
  destruct (interior_writes _ _ _ _ _ _ _ _ Hint) as [Hl1 Hq1].
  assert (writes_only (interior_index nx ny nxi)
            (for_loop 0 num_sources
               (Vc1.inject (model_padded2_dt2 m) (sources m) (sources_x m)
                           (sources_y m) nx source_len t))) as Hw.
  { apply writes_only_for_loop. intros s Hs.
    destruct (Hin s Hs) as [Hx Hy]. now apply (inject_writes _ _ _ _ nx ny nxi). }
  destruct (Hw _ _ Hinj) as [Hl2 Hq2].
  split; [congruence|]. intros q Hq. rewrite Hq2, Hq1; auto.
Qed.

Lemma time_step_frame (c : list F) nx ny nxi num_sources source_len t m b m' b' :
  sources_inside m ny nxi num_sources ->
  Vc1.time_step c nx ny nxi num_sources source_len t (m, b) = Some (m', b') ->
  mem_frame (interior_index nx ny nxi) m m'.
Proof.
  intros Hin Hs. apply time_step_inv in Hs as (fp' & Hb & -> & _).
  destruct (body_writes c m b nx ny nxi num_sources source_len t Hin _ _ Hb)
    as [Hl Hq].
  unfold mem_frame. destruct (prev b); simpl in *; repeat split; auto;
    apply Hq; auto.
Qed.

(** Whatever a defined run has written lies at interior indices. *)
Lemma run_frame (m m' : mem F) nx ny nxi dx num_sources source_len n b :
  sources_inside m ny nxi num_sources ->
  Vc1.run m nx ny nxi dx num_sources source_len n = Some (m', b) ->
  mem_frame (interior_index nx ny nxi) m m'.
Proof.
  intros Hin. destruct (Z.le_gt_cases n 0) as [Hn|Hn].
  - rewrite run_none by done. intros [= <- <-]. apply mem_frame_refl.
  - replace n with (Z.of_nat (Z.to_nat n)) by lia.
    generalize (Z.to_nat n) as k. clear Hn. intros k. revert m' b.
    induction k as [|k IH]; intros m' b.
    + rewrite run_none by done. intros [= <- <-]. apply mem_frame_refl.
    + replace (Z.of_nat (S k)) with (Z.of_nat k + 1) by lia.
      rewrite run_succ by lia.
      destruct (Vc1.run m nx ny nxi dx num_sources source_len (Z.of_nat k))
        as [[m0 b0]|]; simpl; [|done].
      intros Hs. specialize (IH m0 b0 eq_refl).
      apply (mem_frame_trans _ _ m0); [done|].
      apply (time_step_frame _ _ _ _ _ _ _ _ _ _ _
               (sources_inside_frame _ _ _ _ _ _ IH Hin) Hs).
  Qed.

(** A defined sweep over a non-empty interior of an ny x nx grid reads the
    cell 8 rows below the last interior cell, so the interior and its
    right halo fit in a row. *)
Lemma interior_fits (c f model fp fp1 : list F) nx ny nxi :
  Vc1.interior c f model nx ny nxi fp = Some fp1 ->
  Z.of_nat (length f) = ny * nx -> 16 < ny -> 0 < nxi ->
  nxi + 8 <= nx.
Proof.
  unfold Vc1.interior. intros Hint Hf Hny Hnxi.
  destruct (isub ny 8) as [hi|] eqn:Hhi; simpl in Hint; [|done].
  apply int_of_inv in Hhi as [-> _].
  destruct (for_loop_defined _ _ _ _ _ (ny - 9) Hint) as (s0 & [s1 Hrow]); [lia|].
  destruct (iadd nxi 8) as [hj|] eqn:Hhj; simpl in Hrow; [|done].
  apply int_of_inv in Hhj as [-> _].
  destruct (for_loop_defined _ _ _ _ _ (nxi + 7) Hrow) as (s2 & [s3 Hcell]); [lia|].
  rewrite <- cell_eq in Hcell. unfold Vc6.cell in Hcell.
  destruct (ld c 0); simpl in Hcell; [|done].
  destruct (at2 (ny - 9) nx (nxi + 7)) as [q|]; simpl in Hcell; [|done].
  destruct (ld f q); simpl in Hcell; [|done].
  destruct (tap c f nx (ny - 9) (nxi + 7) 1); simpl in Hcell; [|done].
  destruct (tap c f nx (ny - 9) (nxi + 7) 2); simpl in Hcell; [|done].
  destruct (tap c f nx (ny - 9) (nxi + 7) 3); simpl in Hcell; [|done].
  destruct (tap c f nx (ny - 9) (nxi + 7) 4); simpl in Hcell; [|done].
  destruct (tap c f nx (ny - 9) (nxi + 7) 5); simpl in Hcell; [|done].
  destruct (tap c f nx (ny - 9) (nxi + 7) 6); simpl in Hcell; [|done].
  destruct (tap c f nx (ny - 9) (nxi + 7) 7); simpl in Hcell; [|done].
  destruct (tap c f nx (ny - 9) (nxi + 7) 8) as [t8|] eqn:Ht8; simpl in Hcell; [|done].
  clear Hcell. unfold tap in Ht8.
  destruct (ld c 8); simpl in Ht8; [|done].
  destruct (at2 (ny - 9) nx (nxi + 7)) as [q'|]; simpl in Ht8; [|done].
  destruct (iadd q' 8) as [r1|]; simpl in Ht8; [|done].
  destruct (ld f r1); simpl in Ht8; [|done].
  destruct (isub q' 8) as [r2|]; simpl in Ht8; [|done].
  destruct (ld f r2); simpl in Ht8; [|done].
  destruct (iadd (ny - 9) 8) as [p|] eqn:Hp; simpl in Ht8; [|done].
  destruct (at2 p nx (nxi + 7)) as [r|] eqn:Hr; simpl in Ht8; [|done].
  destruct (ld f r) as [v|] eqn:Hv; simpl in Ht8; [|done].
  inv_int. apply ld_inv in Hv as [Hrange _]. nia.
Qed.
End Partial.

Lemma wf_sources_inside {F} (m : mem F) nx ny nxi num_sources source_len num_steps :
  wf_call m nx ny nxi num_sources source_len num_steps = true ->
  sources_inside m ny nxi num_sources.
Proof.
  intros Hwf.
  destruct (wf_call_inv _ _ _ _ _ _ _ Hwf)
    as (_ & _ & _ & _ & _ & _ & _ & _ & _ & _ & _ & Hx & Hy).
  intros s Hs. rewrite Forall_lookup in Hx, Hy. split.
  - intros x Hl. apply ld_inv in Hl as [_ Hl]. apply (Hx _ _ Hl).
  - intros y Hl. apply ld_inv in Hl as [_ Hl]. apply (Hy _ _ Hl).
Qed.

Lemma halo_not_interior nx ny nxi i j :
  0 <= j < nx -> ~ interior_cell ny nxi i j ->
  (16 < ny -> 0 < nxi -> nxi + 8 <= nx) ->
  ~ interior_index nx ny nxi (i * nx + j).
Proof.
  intros Hj Hout Hfit (i' & j' & [Hi' Hj'] & Heq).
  assert (nxi + 8 <= nx) by (apply Hfit; lia).
  apply flat_inj in Heq as [-> ->]; [|lia|lia].
  apply Hout. now split.
Qed.

Section FirstSweep.
Context {F : Type} `{FloatOps F}.

(** A defined run of at least one step has swept the arrays as passed. *)
Lemma first_sweep_defined (m m' : mem F) nx ny nxi dx num_sources source_len n b :
  0 < n ->
  Vc1.run m nx ny nxi dx num_sources source_len n = Some (m', b) ->
  is_Some (Vc1.interior (Vc1.fd_coeff dx) (arrA m) (model_padded2_dt2 m)
                        nx ny nxi (arrB m)).
Proof.
  intros Hn. rewrite (run_prefix _ _ _ _ _ _ _ 1 n) by lia.
  rewrite (run_succ _ _ _ _ _ _ _ 0), run_none by lia. simpl.
  unfold Vc1.body. simpl.
  destruct (Vc1.interior _ _ _ _ _ _ _); simpl; [eauto|done].
Qed.
End FirstSweep.

Lemma filter_iff_in {K} (P Q : K -> Prop) `{!forall k, Decision (P k)}
    `{!forall k, Decision (Q k)} (l : list K) :
  (forall k, k ∈ l -> P k <-> Q k) -> filter P l = filter Q l.
Proof.
  induction l as [|k l IH]; intros Hpq; [done|].
  rewrite !filter_cons. rewrite IH by (intros k' Hk'; apply Hpq; now right).
  destruct (decide (P k)) as [Hp|Hp], (decide (Q k)) as [Hq|Hq]; try done.
  - exfalso. apply Hq, Hpq; [left|done].
  - exfalso. apply Hp, Hpq; [left|done].
Qed.

Section TimeStep.
Context {F : Type} `{FloatOps F}.
Variables (m : mem F) (nx ny nxi num_sources source_len num_steps : Z).
Hypothesis Hwf : wf_call m nx ny nxi num_sources source_len num_steps = true.

Lemma rd_length p : Z.of_nat (length (rd m p)) = ny * nx.
Proof.
  destruct (wf_call_inv _ _ _ _ _ _ _ Hwf) as (_ & HA & HB & _).
  now destruct p.
Qed.

Lemma sources_at_on i j :
  0 <= i < ny -> 0 <= j < nx ->
  sources_at (sources_x m) (sources_y m) nx num_sources (i * nx + j)
  = sources_on (sources_x m) (sources_y m) num_sources i j.
Proof.
  intros Hi Hj.
  destruct (wf_call_inv _ _ _ _ _ _ _ Hwf)
    as (Hg & _ & _ & _ & _ & _ & _ & _ & Hsx & Hsy & _ & Hx & Hy).
  pose proof (wf_grid_inv _ _ _ Hg) as (? & ? & ? & ?).
  unfold sources_at, sources_on. apply filter_iff_in.
  intros s Hs. apply elem_of_seqZ in Hs.
  destruct (source_interior ny nxi _ _ _ s Hsx Hsy Hx Hy) as [Hr Hc]; [lia|].
  unfold source_cell. split.
  - intros Heq. apply flat_inj in Heq; [done|lia|lia].
  - now intros [-> ->].
Qed.

(** One time step on a well-formed call: the sweep, then the sources. *)
Lemma body_spec (c : list F) (b : bufs) t :
  length c = 9%nat -> 0 <= t < num_steps ->
  exists fp1 fp2,
    Vc1.interior c (rd m (cur b)) (model_padded2_dt2 m) nx ny nxi
                 (rd m (prev b)) = Some fp1 /\
    for_loop 0 num_sources
      (Vc1.inject (model_padded2_dt2 m) (sources m) (sources_x m)
                  (sources_y m) nx source_len t) fp1 = Some fp2 /\
    Vc1.body c m b nx ny nxi num_sources source_len t = Some fp2 /\
    length fp1 = length (rd m (prev b)) /\
    length fp2 = length (rd m (prev b)) /\
    (forall i j, 0 <= i < ny -> 0 <= j < nx ->
       cellv fp1 nx i j
       = if decide (interior_cell ny nxi i j)
         then leapfrog c (rd m (cur b)) (model_padded2_dt2 m)
                       (rd m (prev b)) nx i j
         else cellv (rd m (prev b)) nx i j) /\
    (forall q, val fp2 q
               = accumulate (model_padded2_dt2 m) (sources m) source_len t q
                   (sources_at (sources_x m) (sources_y m) nx num_sources q)
                   (val fp1 q)).
Proof.
  intros Hc Ht.
  destruct (wf_call_inv _ _ _ _ _ _ _ Hwf)
    as (Hg & HA & HB & HM & Hns & Hsl & Hint & Hn & Hsx & Hsy & Hsrc & Hx & Hy).
  destruct (interior_spec nx ny nxi Hg c (rd m (cur b)) (model_padded2_dt2 m)
              (rd m (prev b)) Hc (rd_length _) HM (rd_length _))
    as (fp1 & Hint1 & Hl1 & Hv1).
  destruct (inject_spec nx ny nxi (model_padded2_dt2 m) (sources m)
              (sources_x m) (sources_y m) num_sources source_len
              Hg HM Hsl Hint Hsx Hsy Hsrc Hx Hy t num_sources fp1)
    as (fp2 & Hinj & Hl2 & Hv2); [lia| lia | rewrite Hl1; apply rd_length |].
  exists fp1, fp2. unfold Vc1.body. rewrite Hint1. simpl.
  repeat split; auto. congruence.
Qed.

End TimeStep.

Section Run.
Context {F : Type} `{FloatOps F}.

(** A well-formed call runs to the end; after every number of steps the
    pointers have been swapped once per step and only interior cells of
    the two field arrays have changed. *)
Lemma run_spec_nat (m : mem F) nx ny nxi dx num_sources source_len num_steps k :
  wf_call m nx ny nxi num_sources source_len num_steps = true ->
  Z.of_nat k <= num_steps ->
  exists m_t,
    Vc1.run m nx ny nxi dx num_sources source_len (Z.of_nat k)
    = Some (m_t, Nat.iter k swap entry) /\
    mem_frame (interior_index nx ny nxi) m m_t.
Proof.
  intros Hwf. induction k as [|k IH]; intros Hk.
  - exists m. rewrite run_none by (simpl; lia). split; [done|apply mem_frame_refl].
  - destruct IH as (m_k & Hrun & Hfr); [lia|].
    replace (Z.of_nat (S k)) with (Z.of_nat k + 1) by lia.
    rewrite run_succ, Hrun by lia. simpl.
    pose proof (wf_call_frame _ _ _ _ _ _ _ _ _ Hfr Hwf) as Hwf_k.
    destruct (body_spec m_k nx ny nxi num_sources source_len num_steps Hwf_k
                (Vc1.fd_coeff dx) (Nat.iter k swap entry) (Z.of_nat k))
      as (fp1 & fp2 & _ & _ & Hb & _); [done|lia|].
    rewrite Hb. simpl. eexists. split; [done|].
    apply (mem_frame_trans _ _ m_k); [done|].
    apply (time_step_frame (Vc1.fd_coeff dx) nx ny nxi num_sources source_len
             (Z.of_nat k) m_k (Nat.iter k swap entry) _ (swap (Nat.iter k swap entry))).
    + apply (wf_sources_inside _ nx _ _ _ source_len num_steps Hwf_k).
    + unfold Vc1.time_step. now rewrite Hb.
Qed.

Lemma run_spec (m : mem F) nx ny nxi dx num_sources source_len num_steps t :
  wf_call m nx ny nxi num_sources source_len num_steps = true ->
  0 <= t <= num_steps ->
  exists m_t,
    Vc1.run m nx ny nxi dx num_sources source_len t
    = Some (m_t, Nat.iter (Z.to_nat t) swap entry) /\
    mem_frame (interior_index nx ny nxi) m m_t.
Proof.
  intros Hwf Ht.
  destruct (run_spec_nat m nx ny nxi dx num_sources source_len num_steps
              (Z.to_nat t) Hwf) as (m_t & Hrun & Hfr); [lia|].
  rewrite Z2Nat.id in Hrun by lia. now exists m_t.
Qed.
End Run.

Section Laplacian.
Context {F : Type} `{FloatOps F}.

(** The accumulation loop of vc1.c computes the Laplacian of the
    specification: coefficient 0 twice at the centre, coefficient k at
    offset k. *)
Lemma f_xx_inv (c f : list F) nx i j v :
  Vc1.f_xx c f nx i j = Some v -> v = laplacian c f nx i j.
Proof.
  unfold Vc1.f_xx. intros Hv.
  destruct (ld c 0) as [c0|] eqn:Hc; simpl in Hv; [|done].
  destruct (at2 i nx j) as [q|] eqn:Hq; simpl in Hv; [|done].
  apply at2_inv in Hq as ->.
  destruct (ld f (i * nx + j)) as [x|] eqn:Hx; simpl in Hv; [|done].
  rewrite for_loop_1_9 in Hv.
  destruct (tap c f nx i j 1) as [t1|] eqn:H1; simpl in Hv; [|done].
  destruct (tap c f nx i j 2) as [t2|] eqn:H2; simpl in Hv; [|done].
  destruct (tap c f nx i j 3) as [t3|] eqn:H3; simpl in Hv; [|done].
  destruct (tap c f nx i j 4) as [t4|] eqn:H4; simpl in Hv; [|done].
  destruct (tap c f nx i j 5) as [t5|] eqn:H5; simpl in Hv; [|done].
  destruct (tap c f nx i j 6) as [t6|] eqn:H6; simpl in Hv; [|done].
  destruct (tap c f nx i j 7) as [t7|] eqn:H7; simpl in Hv; [|done].
  destruct (tap c f nx i j 8) as [t8|] eqn:H8; simpl in Hv; [|done].
  injection Hv as <-.
  now apply (laplacian_taps c f nx i j c0 x t1 t2 t3 t4 t5 t6 t7 t8).
Qed.

Lemma f_xx_defined (c f : list F) nx ny nxi i j :
  wf_grid nx ny nxi = true ->
  length c = 9%nat -> Z.of_nat (length f) = ny * nx ->
  interior_cell ny nxi i j ->
  Vc1.f_xx c f nx i j = Some (laplacian c f nx i j).
Proof.
  intros Hg Hc Hf [Hi Hj]. pose proof (wf_grid_inv _ _ _ Hg) as (? & ? & ? & ?).
  assert (is_Some (Vc1.f_xx c f nx i j)) as [v Hv];
    [|now rewrite Hv, (f_xx_inv _ _ _ _ _ _ Hv)].
  unfold Vc1.f_xx. rewrite (ld_val c 0) by lia. simpl.
  rewrite (at2_grid nx ny nxi Hg) by lia. simpl.
  rewrite (ld_grid nx ny) by lia. simpl.
  rewrite for_loop_1_9.
  rewrite !(tap_defined nx ny nxi Hg) by lia. simpl. done.
Qed.
End Laplacian.

(** ** Parity and the demonstration runtime *)

Lemma even_to_nat n : 0 <= n -> Nat.even (Z.to_nat n) = Z.even n.
Proof.
  intros Hn. rewrite <- (Z2Nat.id n) at 2 by lia.
  induction (Z.to_nat n) as [|k IH]; [done|].
  rewrite Nat2Z.inj_succ, Z.even_succ, Nat.even_succ, <- Z.negb_even,
    <- Nat.negb_even. now rewrite IH.
Qed.

Lemma backwards_schedule t : schedule (Demo.backwards t).
Proof. intros l. apply reverse_Permutation. Qed.

(** ** Exact arithmetic on the coefficient table *)

Lemma Qc_sqr_nonneg (x : Qc) : (0 <= x * x)%Qc.
Proof.
  destruct x as [[n d] Hc]. unfold Qcle. simpl. clear Hc. rewrite (Qred_correct (_ * _)).
  unfold Qle, Qmult. simpl. nia.
Qed.

(** Every entry of the table is its numerator times 1 / (denominator * dx^2). *)
Lemma coefficient_scaled (dx : Qc) n :
  coefficient dx n
  = (Qc_of_Z n * (/ Qc_of_Z denominator * / (dx * dx)))%Qc.
Proof.
  unfold coefficient, numeral. simpl.
  destruct (Z.ltb_spec n 0) as [Hn|Hn].
  - replace (Qc_of_Z n) with (- Qc_of_Z (- n))%Qc.
    + unfold Qcdiv. ring.
    + apply Qc_is_canon. unfold Qc_of_Z. simpl. rewrite !Qred_correct.
      unfold Qeq. simpl. lia.
  - unfold Qcdiv. ring.
Qed.

Lemma weight_sum_zero (dx : Qc) : weight_sum (Vc1.fd_coeff dx) = 0%Qc.
Proof.
  change (Vc1.fd_coeff dx) with (coefficient dx <$> numerators).
  set (cf := coefficient dx). unfold weight_sum, tap_sum, val, ld. simpl.
  subst cf. rewrite !coefficient_scaled.
  set (u := (/ Qc_of_Z denominator * / (dx * dx))%Qc).
  transitivity ((Qc_of_Z 2 * Qc_of_Z (-924708642)
                 + (Qc_of_Z 538137600 + Qc_of_Z (-94174080)
                    + Qc_of_Z 22830080 + Qc_of_Z (-5350800)
                    + Qc_of_Z 1053696 + Qc_of_Z (-156800)
                    + Qc_of_Z 15360 + Qc_of_Z (-735)) * Qc_of_Z 4) * u)%Qc.
  - ring.
  - replace (Qc_of_Z 2 * Qc_of_Z (-924708642)
             + (Qc_of_Z 538137600 + Qc_of_Z (-94174080)
                + Qc_of_Z 22830080 + Qc_of_Z (-5350800)
                + Qc_of_Z 1053696 + Qc_of_Z (-156800)
                + Qc_of_Z 15360 + Qc_of_Z (-735)) * Qc_of_Z 4)%Qc
      with 0%Qc by (apply Qc_is_canon; reflexivity).
    ring.
Qed.

Lemma central_negative (dx : Qc) :
  dx <> 0%Qc -> (val (Vc1.fd_coeff dx) 0 < 0)%Qc.
Proof.
  intros Hdx. unfold val, ld. simpl.
  set (K := (- Qc_of_Z 924708642 / Qc_of_Z 302702400)%Qc).
  assert (K / (dx * dx) * (dx * dx) = K)%Qc as HK.
  { field. done. }
  destruct (Qclt_le_dec (K / (dx * dx)) 0) as [Hlt|Hge]; [done|exfalso].
  pose proof (Qcmult_le_compat_r _ _ _ Hge (Qc_sqr_nonneg dx)) as Hle.
  rewrite HK, Qcmult_0_l in Hle.
  apply (Qcle_not_lt _ _ Hle). reflexivity.
Qed.

Lemma val_replicate {F} `{FloatOps F} n (v : F) q :
  0 <= q < n -> val (replicate (Z.to_nat n) v) q = v.
Proof.
  intros Hq. apply val_ld. unfold ld. destruct (Z.leb_spec 0 q); [|lia].
  apply lookup_replicate_2. lia.
Qed.

(** On a constant field the Laplacian is the field value times the
    weighted coefficient sum. *)
Lemma laplacian_constant (c : list Qc) nx ny nxi i j (v : Qc) :
  wf_grid nx ny nxi = true -> interior_cell ny nxi i j ->
  laplacian c (replicate (Z.to_nat (ny * nx)) v) nx i j
  = (v * weight_sum c)%Qc.
Proof.
  intros Hg [Hi Hj]. pose proof (wf_grid_inv _ _ _ Hg) as (? & ? & ? & ?).
  assert (forall r k, 0 <= r < ny -> 0 <= k < nx ->
            cellv (replicate (Z.to_nat (ny * nx)) v) nx r k = v) as Hv.
  { intros r k Hr Hk. unfold cellv. apply val_replicate.
    pose proof (flat_range nx ny r k Hr Hk). lia. }
  unfold laplacian, neighbours, weight_sum, tap_sum. simpl.
  rewrite !Hv by lia. unfold fadd, fmul, of_int, exact.
  replace (Qc_of_Z 4) with (1 + 1 + 1 + 1)%Qc by (apply Qc_is_canon; reflexivity).
  ring.
Qed.

(** ** The table in binary32

    The central numerator is not a binary32 number: the literal
    [924708642.0f] denotes 924708672.  In binary32 the Laplacian of a
    constant field is small but not zero. *)

Remark central_literal_binary32 :
  @flit _ binary32 924708642 = b32_of_Z 924708672.
Proof. reflexivity. Qed.

Remark constant_field_binary32 :
  Vc1.f_xx (Vc1.fd_coeff (b32_of_Z 1)) (replicate 324 (b32_of_Z 1)) 18 8 8
  = Some (S754_finite true 13854976 (-48)).
Proof. vm_compute. reflexivity. Qed.

(** ** The single-source scenario

    After one step the array passed as [fp] holds model * amplitude = 6 at
    the padded cell (12, 12) and zero everywhere else; the array passed as
    [f] is still zero. *)

Example single_source_step :
  exists m',
    Vc1.step Demo.quiet 32 32 16 (b32_of_Z 1) 1 1 1 = Some m' /\
    ld (arrB m') (12 * 32 + 12) = Some (b32_of_Z 6) /\
    filter (fun x => Demo.nonzero x = true) (arrB m') = [b32_of_Z 6] /\
    filter (fun x => Demo.nonzero x = true) (arrA m') = [].
Proof. eexists. split; [vm_compute; reflexivity|]. vm_compute. auto. Qed.

(** ** Data races of the parallel loop *)





Section Races.
Context {F : Type} `{FloatOps F}.



End Races.

(** ** Resuming a run *)

Lemma ld_advance {A} (a : list A) n r :
  0 <= n -> 0 <= r -> ld (advance n a) r = ld a (n + r).
Proof.
  intros Hn Hr. unfold ld, advance.
  destruct (Z.leb_spec 0 r), (Z.leb_spec 0 (n + r)); try lia.
  rewrite lookup_drop. f_equal. lia.
Qed.

Lemma for_loop_ext_in {S} lo hi (b1 b2 : Z -> S -> option S) s :
  (forall k s, lo <= k < hi -> b1 k s = b2 k s) ->
  for_loop lo hi b1 s = for_loop lo hi b2 s.
Proof.
  intros Hb. rewrite !for_loop_seqZ. apply run_list_ext.
  intros k s' Hk. apply elem_of_seqZ in Hk. apply Hb. lia.
Qed.

Lemma for_loop_shift {S} lo hi d (body : Z -> S -> option S) s :
  for_loop (lo + d) (hi + d) body s = for_loop lo hi (fun t => body (t + d)) s.
Proof.
  unfold for_loop. replace (hi + d - (lo + d)) with (hi - lo) by lia.
  generalize (Z.to_nat (hi - lo)) as n. intros n. revert lo s.
  induction n as [|n IH]; intros lo s; simpl; [done|].
  destruct (body (lo + d) s) as [s'|]; simpl; [|done].
  replace (lo + d + 1) with (lo + 1 + d) by lia. apply IH.
Qed.

(** A loop whose body commutes with a change of representation [g]. *)
Lemma for_loop_sim {S S'} (g : S' -> S) (I : S' -> Prop) lo hi
    (body : Z -> S -> option S) (body' : Z -> S' -> option S') s' :
  I s' ->
  (forall t s', lo <= t < hi -> I s' ->
     body t (g s') = g <$> body' t s' /\
     forall s1, body' t s' = Some s1 -> I s1) ->
  for_loop lo hi body (g s') = g <$> for_loop lo hi body' s'.
Proof.
  intros Hi Hb. rewrite !for_loop_seqZ.
  assert (forall t, t ∈ seqZ lo (hi - lo) -> lo <= t < hi) as Hr
    by (intros t Ht; apply elem_of_seqZ in Ht; lia).
  revert s' Hi. induction (seqZ lo (hi - lo)) as [|t l IH]; intros s' Hi; simpl; [done|].
  destruct (Hb t s') as [Ht Hinv]; [apply Hr; left|done|].
  rewrite Ht. destruct (body' t s') as [s1|]; simpl; [|done].
  apply IH; [|now apply Hinv]. intros t' Ht'. apply Hr. now right.
Qed.

Section Resume.
Context {F : Type} `{FloatOps F}.

Lemma inject_advance (model srcs : list F) srcs_x srcs_y nx
    num_sources source_len n t i fp :
  0 <= n -> 0 <= t -> 0 <= source_len -> n + t < source_len ->
  num_sources * source_len <= INT_MAX -> 0 <= i < num_sources ->
  Vc1.inject model srcs srcs_x srcs_y nx source_len (n + t) i fp
  = Vc1.inject model (advance n srcs) srcs_x srcs_y nx source_len t i fp.
Proof.
  intros Hn Ht Hsl Hnt Hmax Hi. unfold Vc1.inject.
  assert ((p ← imul i source_len; r ← iadd p (n + t); ld srcs r)
          = (p ← imul i source_len; r ← iadd p t; ld (advance n srcs) r)) as ->;
    [|done].
  unfold imul, iadd.
  assert (0 <= i * source_len /\ i * source_len + source_len <= num_sources * source_len)
    as [? ?] by nia.
  rewrite int_of_Some by (unfold INT_MIN, INT_MAX in *; lia). simpl.
  rewrite !int_of_Some by (unfold INT_MIN, INT_MAX in *; lia). simpl.
  rewrite ld_advance by lia. f_equal. lia.
Qed.

Lemma rd_exchange (m : mem F) p : rd (exchange m) (flip p) = rd m p.
Proof. now destruct p. Qed.

Lemma wr_exchange (m : mem F) p v : wr (exchange m) (flip p) v = exchange (wr m p v).
Proof. now destruct p. Qed.

Lemma body_exchange (c : list F) (m : mem F) b nx ny nxi num_sources source_len t :
  Vc1.body c (exchange m) (flip_bufs b) nx ny nxi num_sources source_len t
  = Vc1.body c m b nx ny nxi num_sources source_len t.
Proof. unfold Vc1.body. simpl. now rewrite !rd_exchange. Qed.

Lemma body_advance (c : list F) (m : mem F) b nx ny nxi num_sources source_len n t :
  0 <= n -> 0 <= t -> 0 <= source_len -> n + t < source_len ->
  num_sources * source_len <= INT_MAX ->
  Vc1.body c m b nx ny nxi num_sources source_len (n + t)
  = Vc1.body c (with_sources (advance n (sources m)) m) b nx ny nxi
             num_sources source_len t.
Proof.
  intros Hn Ht Hsl Hnt Hmax. unfold Vc1.body.
  replace (rd (with_sources (advance n (sources m)) m) (cur b)) with (rd m (cur b))
    by now destruct (cur b).
  replace (rd (with_sources (advance n (sources m)) m) (prev b)) with (rd m (prev b))
    by now destruct (prev b).
  simpl. destruct (Vc1.interior _ _ _ _ _ _ _) as [fp1|]; simpl; [|done].
  apply for_loop_ext_in. intros i fp Hi. now apply (inject_advance _ _ _ _ _ num_sources).
Qed.

(** The tables a run has been given are the tables it returns. *)
Lemma run_tables (m m' : mem F) nx ny nxi dx num_sources source_len n b :
  Vc1.run m nx ny nxi dx num_sources source_len n = Some (m', b) ->
  model_padded2_dt2 m' = model_padded2_dt2 m /\ sources m' = sources m /\
  sources_x m' = sources_x m /\ sources_y m' = sources_y m.
Proof.
  destruct (Z.le_gt_cases n 0) as [Hn|Hn].
  - rewrite run_none by done. now intros [= <- <-].
  - replace n with (Z.of_nat (Z.to_nat n)) by lia.
    generalize (Z.to_nat n) as k. clear Hn. intros k. revert m' b.
    induction k as [|k IH]; intros m' b.
    + rewrite run_none by done. now intros [= <- <-].
    + intros Hr. apply run_last in Hr as (m0 & b0 & fp' & Hr & _ & -> & _); [|lia].
      replace (Z.of_nat (S k) - 1) with (Z.of_nat k) in Hr by lia.
      apply IH in Hr as (<- & <- & <- & <-). now destruct (prev b0).
Qed.
End Resume.

(** ** One time step, cell by cell *)

Section OneStep.
Context {F : Type} `{FloatOps F}.

(** One time step on a well-formed call, cell by cell. *)
Lemma body_cells (m : mem F) nx ny nxi num_sources source_len num_steps
    (c : list F) (b : bufs) t :
  wf_call m nx ny nxi num_sources source_len num_steps = true ->
  length c = 9%nat -> 0 <= t < num_steps ->
  exists fp2,
    Vc1.body c m b nx ny nxi num_sources source_len t = Some fp2 /\
    length fp2 = length (rd m (prev b)) /\
    forall i j, 0 <= i < ny -> 0 <= j < nx ->
      cellv fp2 nx i j
      = accumulate (model_padded2_dt2 m) (sources m) source_len t (i * nx + j)
          (sources_on (sources_x m) (sources_y m) num_sources i j)
          (if decide (interior_cell ny nxi i j)
           then leapfrog c (rd m (cur b)) (model_padded2_dt2 m)
                         (rd m (prev b)) nx i j
           else cellv (rd m (prev b)) nx i j).
Proof.
  intros Hwf Hc Ht.
  destruct (body_spec m nx ny nxi num_sources source_len num_steps Hwf c b t Hc Ht)
    as (fp1 & fp2 & _ & _ & Hb & _ & Hl2 & Hv1 & Hv2).
  exists fp2. split; [done|]. split; [done|]. intros i j Hi Hj.
  unfold cellv at 1. rewrite Hv2.
  rewrite (sources_at_on m nx ny nxi num_sources source_len num_steps Hwf) by lia.
  fold (cellv fp1 nx i j). now rewrite Hv1.
Qed.

Lemma wf_call_wr (m : mem F) nx ny nxi num_sources source_len num_steps p fp :
  wf_call m nx ny nxi num_sources source_len num_steps = true ->
  length fp = length (rd m p) ->
  wf_call (wr m p fp) nx ny nxi num_sources source_len num_steps = true.
Proof.
  intros Hwf Hl. unfold wf_call, wf_bufs, wf_sources in *.
  destruct p; simpl in *; now rewrite Hl.
Qed.
End OneStep.

(** ** What a call can see *)

Section Agree.
Context {F : Type} `{FloatOps F}.

Lemma neighbours_agree (P : Z -> Z -> Prop) (f f' : list F) nx i j k :
  (forall r c, P r c -> cellv f nx r c = cellv f' nx r c) ->
  P i (j + k) -> P i (j - k) -> P (i + k) j -> P (i - k) j ->
  neighbours f nx i j k = neighbours f' nx i j k.
Proof.
  intros Hf H1 H2 H3 H4. unfold neighbours.
  now rewrite (Hf _ _ H1), (Hf _ _ H2), (Hf _ _ H3), (Hf _ _ H4).
Qed.

Lemma leapfrog_agree (P : Z -> Z -> Prop) (c f f' model model' fp fp' : list F)
    nx i j :
  (forall r c, P r c -> cellv f nx r c = cellv f' nx r c) ->
  (forall k, 0 <= k <= 8 ->
     P i (j + k) /\ P i (j - k) /\ P (i + k) j /\ P (i - k) j) ->
  cellv model nx i j = cellv model' nx i j ->
  cellv fp nx i j = cellv fp' nx i j ->
  leapfrog c f model fp nx i j = leapfrog c f' model' fp' nx i j.
Proof.
  intros Hf HP Hm Hp. unfold leapfrog, forcing, laplacian.
  destruct (HP 0) as (H0 & _); [lia|]. rewrite Z.add_0_r in H0.
  rewrite Hm, Hp, (Hf i j H0). do 3 f_equal.
  apply foldl_ext_in. intros a k Hk. apply elem_of_seqZ in Hk.
  destruct (HP k) as (H1 & H2 & H3 & H4); [lia|].
  now rewrite (neighbours_agree P f f').
Qed.

Lemma accumulate_same (model model' srcs srcs' : list F) source_len t q l v :
  (forall s, s ∈ l ->
     val model q = val model' q /\
     amplitude srcs source_len s t = amplitude srcs' source_len s t) ->
  accumulate model srcs source_len t q l v
  = accumulate model' srcs' source_len t q l v.
Proof.
  intros Hl. unfold accumulate. apply foldl_ext_in. intros a s Hs.
  destruct (Hl s Hs) as [-> ->]. done.
Qed.

(** One time step on two memories: the cells of a region [Pp] of the
    written buffer agree afterwards when the memories agree on what the
    step reads for them, the current level on a region [Pf] that holds the
    stencil of every interior cell of [Pp]. *)
Lemma body_agree (Pf Pp : Z -> Z -> Prop) (m m' : mem F)
    nx ny nxi num_sources source_len num_steps (c : list F) (b : bufs) t
    fp2 fp2' :
  wf_call m nx ny nxi num_sources source_len num_steps = true ->
  wf_call m' nx ny nxi num_sources source_len num_steps = true ->
  length c = 9%nat -> 0 <= t < num_steps ->
  sources_x m = sources_x m' -> sources_y m = sources_y m' ->
  (forall r k, Pf r k ->
     cellv (rd m (cur b)) nx r k = cellv (rd m' (cur b)) nx r k) ->
  (forall r k, Pp r k ->
     cellv (rd m (prev b)) nx r k = cellv (rd m' (prev b)) nx r k) ->
  (forall i j, Pp i j -> interior_cell ny nxi i j ->
     cellv (model_padded2_dt2 m) nx i j = cellv (model_padded2_dt2 m') nx i j) ->
  (forall s, 0 <= s < num_sources ->
     Pp (source_row (sources_y m) s) (source_col (sources_x m) s) ->
     amplitude (sources m) source_len s t
     = amplitude (sources m') source_len s t) ->
  (forall i j k, Pp i j -> interior_cell ny nxi i j -> 0 <= k <= 8 ->
     Pf i (j + k) /\ Pf i (j - k) /\ Pf (i + k) j /\ Pf (i - k) j) ->
  Vc1.body c m b nx ny nxi num_sources source_len t = Some fp2 ->
  Vc1.body c m' b nx ny nxi num_sources source_len t = Some fp2' ->
  forall r k, 0 <= r < ny -> 0 <= k < nx -> Pp r k ->
    cellv fp2 nx r k = cellv fp2' nx r k.
Proof.
  intros Hwf Hwf' Hc Ht HX HY Hcur Hprev HM HS Hst Hb Hb' r k Hr Hk Hrk.
  destruct (body_cells m nx ny nxi num_sources source_len num_steps c b t Hwf Hc Ht)
    as (fp & Hfp & _ & Hv).
  destruct (body_cells m' nx ny nxi num_sources source_len num_steps c b t Hwf' Hc Ht)
    as (fp' & Hfp' & _ & Hv').
  rewrite Hb in Hfp. rewrite Hb' in Hfp'. injection Hfp as <-. injection Hfp' as <-.
  destruct (wf_call_inv _ _ _ _ _ _ _ Hwf)
    as (Hg & _ & _ & _ & _ & _ & _ & _ & Hsx & Hsy & _ & Hx & Hy).
  rewrite Hv, Hv' by lia. rewrite <- HX, <- HY.
  assert ((if decide (interior_cell ny nxi r k)
           then leapfrog c (rd m (cur b)) (model_padded2_dt2 m) (rd m (prev b)) nx r k
           else cellv (rd m (prev b)) nx r k)
          = (if decide (interior_cell ny nxi r k)
             then leapfrog c (rd m' (cur b)) (model_padded2_dt2 m')
                           (rd m' (prev b)) nx r k
             else cellv (rd m' (prev b)) nx r k)) as ->.
  { destruct (decide (interior_cell ny nxi r k)) as [Hin|Hout].
    - apply (leapfrog_agree Pf); auto.
    - now apply Hprev. }
  apply accumulate_same. intros s Hs.
  apply list_elem_of_filter in Hs as [[Hrow Hcol] Hs]. apply elem_of_seqZ in Hs.
  pose proof (source_interior ny nxi _ _ num_sources s Hsx Hsy Hx Hy) as Hin.
  rewrite Hrow, Hcol in Hin. split.
  - apply HM; [done|]. apply Hin. lia.
  - apply HS; [lia|]. now rewrite Hrow, Hcol.
Qed.
End Agree.

Section Reach.
Context {F : Type} `{FloatOps F}.

(** One time step keeps two memories in agreement on what a call reads. *)
Lemma body_same_reach (m m' : mem F) nx ny nxi num_sources source_len num_steps
    (c : list F) (b : bufs) t fp2 fp2' :
  wf_call m nx ny nxi num_sources source_len num_steps = true ->
  wf_call m' nx ny nxi num_sources source_len num_steps = true ->
  same_reach nx ny nxi num_sources source_len num_steps m m' ->
  length c = 9%nat -> 0 <= t < num_steps ->
  Vc1.body c m b nx ny nxi num_sources source_len t = Some fp2 ->
  Vc1.body c m' b nx ny nxi num_sources source_len t = Some fp2' ->
  forall r k, in_reach ny nxi r k -> cellv fp2 nx r k = cellv fp2' nx r k.
Proof.
  intros Hwf Hwf' (HAB & HM & HX & HY & HS) Hc Ht Hb Hb' r k Hrk.
  destruct (wf_call_inv _ _ _ _ _ _ _ Hwf) as (Hg & _).
  pose proof (wf_grid_inv _ _ _ Hg) as (? & ? & ? & ?).
  apply (body_agree (in_reach ny nxi) (in_reach ny nxi) m m' nx ny nxi
           num_sources source_len num_steps c b t fp2 fp2');
    try done; try (destruct Hrk as (? & ? & ?); lia).
  - intros r' k' Hr'. now apply HAB.
  - intros r' k' Hr'. now apply HAB.
  - intros i j _. apply HM.
  - intros s Hs _. apply HS; lia.
  - intros i j k' _ [Hi Hj] Hk'. unfold in_reach. lia.
Qed.

Lemma same_reach_wr (m m' : mem F) nx ny nxi num_sources source_len n p fp fp' :
  same_reach nx ny nxi num_sources source_len n m m' ->
  (forall r c, in_reach ny nxi r c -> cellv fp nx r c = cellv fp' nx r c) ->
  same_reach nx ny nxi num_sources source_len n (wr m p fp) (wr m' p fp').
Proof.
  intros (HAB & HM & HX & HY & HS) Hfp. unfold same_reach.
  split; [|by destruct p].
  intros p' r c Hrc. specialize (HAB p' r c Hrc).
  destruct p, p'; simpl in *; auto.
Qed.

Lemma run_same_reach (m m' : mem F) nx ny nxi dx num_sources source_len num_steps k :
  wf_call m nx ny nxi num_sources source_len num_steps = true ->
  wf_call m' nx ny nxi num_sources source_len num_steps = true ->
  same_reach nx ny nxi num_sources source_len num_steps m m' ->
  (Z.of_nat k <= num_steps) ->
  exists m_k m_k' b,
    Vc1.run m nx ny nxi dx num_sources source_len (Z.of_nat k) = Some (m_k, b) /\
    Vc1.run m' nx ny nxi dx num_sources source_len (Z.of_nat k) = Some (m_k', b) /\
    wf_call m_k nx ny nxi num_sources source_len num_steps = true /\
    wf_call m_k' nx ny nxi num_sources source_len num_steps = true /\
    same_reach nx ny nxi num_sources source_len num_steps m_k m_k'.
Proof.
  intros Hwf Hwf' Hsame. induction k as [|k IH]; intros Hk.
  - exists m, m', entry. rewrite !run_none by (simpl; lia). auto.
  - destruct IH as (m_k & m_k' & b & Hrun & Hrun' & Hwfk & Hwfk' & Hsk); [lia|].
    replace (Z.of_nat (S k)) with (Z.of_nat k + 1) by lia.
    rewrite !run_succ, Hrun, Hrun' by lia. cbn [mbind option_bind].
    unfold Vc1.time_step.
    destruct (body_cells m_k nx ny nxi num_sources source_len num_steps
                (Vc1.fd_coeff dx) b (Z.of_nat k) Hwfk) as (fp2 & Hb & Hl & _);
      [done|lia|].
    destruct (body_cells m_k' nx ny nxi num_sources source_len num_steps
                (Vc1.fd_coeff dx) b (Z.of_nat k) Hwfk') as (fp2' & Hb' & Hl' & _);
      [done|lia|].
    rewrite Hb, Hb'. cbn [mbind option_bind].
    exists (wr m_k (prev b) fp2), (wr m_k' (prev b) fp2'), (swap b).
    split; [done|]. split; [done|].
    split; [now apply wf_call_wr|]. split; [now apply wf_call_wr|].
    apply same_reach_wr; [done|].
    apply (body_same_reach m_k m_k' nx ny nxi num_sources source_len num_steps
             (Vc1.fd_coeff dx) b (Z.of_nat k)); auto. lia.
Qed.
End Reach.

(** ** What a defined call has touched *)

(** If a loop is defined, each of its iterations was defined in a state
    that satisfies every invariant of the loop. *)
Lemma run_list_reaches {K S} (I : S -> Prop) (l : list K)
    (body : K -> S -> option S) s s' k :
  I s -> (forall k s s1, I s -> body k s = Some s1 -> I s1) ->
  run_list l body s = Some s' -> k ∈ l ->
  exists s0, I s0 /\ is_Some (body k s0).
Proof.
  intros Hi Hinv. revert s Hi. induction l as [|k' l IH]; intros s Hi Hrun Hk;
    [inversion Hk|].
  simpl in Hrun. destruct (body k' s) as [s1|] eqn:Hb; simpl in Hrun; [|done].
  apply elem_of_cons in Hk as [->|Hk].
  - exists s. split; [done|]. now rewrite Hb.
  - apply (IH s1); eauto.
Qed.

Lemma for_loop_reaches {S} (I : S -> Prop) lo hi (body : Z -> S -> option S) s s' k :
  I s -> (forall k s s1, I s -> body k s = Some s1 -> I s1) ->
  for_loop lo hi body s = Some s' -> lo <= k < hi ->
  exists s0, I s0 /\ is_Some (body k s0).
Proof.
  rewrite for_loop_seqZ. intros Hi Hinv Hrun Hk.
  apply (run_list_reaches I _ _ _ _ k Hi Hinv Hrun). apply elem_of_seqZ. lia.
Qed.

Lemma for_loop_invariant {S} (I : S -> Prop) lo hi (body : Z -> S -> option S) s s' :
  I s -> (forall k s s1, I s -> body k s = Some s1 -> I s1) ->
  for_loop lo hi body s = Some s' -> I s'.
Proof.
  rewrite for_loop_seqZ. intros Hi Hinv. revert s Hi.
  induction (seqZ lo (hi - lo)) as [|k l IH]; intros s Hi; simpl.
  - now intros [= <-].
  - destruct (body k s) as [s1|] eqn:Hb; simpl; [|done]. apply IH. eauto.
Qed.

Lemma ld_readable {A} (a : list A) z q x :
  int_of z = Some q -> ld a q = Some x -> q = z /\ readable a z.
Proof.
  intros Hz Hx. apply int_of_inv in Hz as [-> ?]. apply ld_inv in Hx as [? _].
  unfold readable. split; [done|lia].
Qed.

Section Footprint.
Context {F : Type} `{FloatOps F}.

Lemma at2_readable (a : list F) i nx j x :
  (q ← at2 i nx j; ld a q) = Some x -> readable a (i * nx + j).
Proof.
  destruct (at2 i nx j) as [q|] eqn:Hq; simpl; [|done]. intros Hx.
  unfold at2, imul in Hq. destruct (int_of (i * nx)) as [p|] eqn:Hp; simpl in Hq; [|done].
  apply int_of_inv in Hp as [-> _]. now apply (ld_readable a _ _ _ Hq) in Hx as [_ ?].
Qed.

Lemma tap_reads (c f : list F) nx i j k t :
  tap c f nx i j k = Some t ->
  readable f (i * nx + j + k) /\ readable f (i * nx + j - k) /\
  readable f ((i + k) * nx + j) /\ readable f ((i - k) * nx + j).
Proof.
  unfold tap. intros Ht.
  destruct (ld c k); simpl in Ht; [|done].
  destruct (at2 i nx j) as [q|] eqn:Hq; simpl in Ht; [|done].
  apply at2_inv in Hq as ->.
  destruct (iadd (i * nx + j) k) as [r1|] eqn:H1; simpl in Ht; [|done].
  destruct (ld f r1) eqn:L1; simpl in Ht; [|done].
  destruct (isub (i * nx + j) k) as [r2|] eqn:H2; simpl in Ht; [|done].
  destruct (ld f r2) eqn:L2; simpl in Ht; [|done].
  destruct (iadd i k) as [p3|] eqn:H3; simpl in Ht; [|done].
  apply int_of_inv in H3 as [-> _].
  destruct (at2 (i + k) nx j) as [r3|] eqn:H3; simpl in Ht; [|done].
  destruct (ld f r3) eqn:L3; simpl in Ht; [|done].
  destruct (isub i k) as [p4|] eqn:H4; simpl in Ht; [|done].
  apply int_of_inv in H4 as [-> _].
  destruct (at2 (i - k) nx j) as [r4|] eqn:H4; simpl in Ht; [|done].
  destruct (ld f r4) eqn:L4; simpl in Ht; [|done].
  apply (ld_readable f _ _ _ H1) in L1 as [_ ?].
  apply (ld_readable f _ _ _ H2) in L2 as [_ ?].
  split; [done|]. split; [done|]. split.
  - apply (at2_readable f _ _ _ f3). now rewrite H3.
  - apply (at2_readable f _ _ _ f4). now rewrite H4.
Qed.

Lemma cell_reads (c f model : list F) nx i j fp fp' :
  Vc1.cell c f model nx i j fp = Some fp' ->
  readable f (i * nx + j) /\ readable fp (i * nx + j) /\
  readable model (i * nx + j) /\
  forall k, 1 <= k <= 8 ->
    readable f (i * nx + j + k) /\ readable f (i * nx + j - k) /\
    readable f ((i + k) * nx + j) /\ readable f ((i - k) * nx + j).
Proof.
  rewrite <- cell_eq. unfold Vc6.cell. intros Hc.
  destruct (ld c 0); simpl in Hc; [|done].
  destruct (at2 i nx j) as [q|] eqn:Hq; simpl in Hc; [|done].
  destruct (ld f q) as [x|] eqn:Lf; simpl in Hc; [|done].
  destruct (tap c f nx i j 1) eqn:T1; simpl in Hc; [|done].
  destruct (tap c f nx i j 2) eqn:T2; simpl in Hc; [|done].
  destruct (tap c f nx i j 3) eqn:T3; simpl in Hc; [|done].
  destruct (tap c f nx i j 4) eqn:T4; simpl in Hc; [|done].
  destruct (tap c f nx i j 5) eqn:T5; simpl in Hc; [|done].
  destruct (tap c f nx i j 6) eqn:T6; simpl in Hc; [|done].
  destruct (tap c f nx i j 7) eqn:T7; simpl in Hc; [|done].
  destruct (tap c f nx i j 8) eqn:T8; simpl in Hc; [|done].
  destruct (ld model q) as [mq|] eqn:Lm; simpl in Hc; [|done].
  destruct (ld fp q) as [old|] eqn:Lp; simpl in Hc; [|done].
  assert (readable f (i * nx + j))
    by (apply (at2_readable f i nx j x); now rewrite Hq).
  assert (readable model (i * nx + j))
    by (apply (at2_readable model i nx j mq); now rewrite Hq).
  assert (readable fp (i * nx + j))
    by (apply (at2_readable fp i nx j old); now rewrite Hq).
  repeat (split; [done|]). intros k Hk.
  assert (k = 1 \/ k = 2 \/ k = 3 \/ k = 4 \/ k = 5 \/ k = 6 \/ k = 7 \/ k = 8)
    as [->|[->|[->|[->|[->|[->|[->| ->]]]]]]] by lia;
    eapply tap_reads; eassumption.
Qed.

Lemma cell_length (c f model : list F) nx i j fp fp' :
  Vc1.cell c f model nx i j fp = Some fp' -> length fp' = length fp.
Proof.
  rewrite <- cell_eq.
  destruct (cell_shape c f model nx i j) as [Hn|Hs]; [now rewrite Hn|].
  rewrite Hs. unfold stencil_at, update_at.
  destruct (ld fp (i * nx + j)); simpl; [|done].
  intros Hst. apply st_inv in Hst as [_ ->]. apply length_insert.
Qed.

Lemma inject_length (model srcs : list F) srcs_x srcs_y nx source_len t s fp fp' :
  Vc1.inject model srcs srcs_x srcs_y nx source_len t s fp = Some fp' ->
  length fp' = length fp.
Proof.
  unfold Vc1.inject. intros Hi.
  destruct (ld srcs_x s ≫= _); simpl in Hi; [|done].
  destruct (ld srcs_y s ≫= _); simpl in Hi; [|done].
  destruct (at2 _ _ _); simpl in Hi; [|done].
  destruct (ld fp _); simpl in Hi; [|done].
  destruct (ld model _); simpl in Hi; [|done].
  destruct (imul s source_len ≫= _); simpl in Hi; [|done].
  apply st_inv in Hi as [_ ->]. apply length_insert.
Qed.

Lemma row_length (c f model : list F) nx nxi i fp fp' :
  (hj ← iadd nxi 8; for_loop 8 hj (Vc1.cell c f model nx i) fp) = Some fp' ->
  length fp' = length fp.
Proof.
  destruct (iadd nxi 8) as [hj|]; simpl; [|done]. intros Hrow.
  apply (for_loop_invariant (fun s => length s = length fp) _ _ _ _ _ eq_refl)
    with (2 := Hrow).
  intros j s s1 Hl Hc. apply cell_length in Hc. congruence.
Qed.

Lemma interior_length (c f model : list F) nx ny nxi fp fp1 :
  Vc1.interior c f model nx ny nxi fp = Some fp1 -> length fp1 = length fp.
Proof.
  unfold Vc1.interior. destruct (isub ny 8) as [hi|]; simpl; [|done].
  intros Hint.
  apply (for_loop_invariant (fun s => length s = length fp) _ _ _ _ _ eq_refl)
    with (2 := Hint).
  intros i s s1 Hl Hrow. apply row_length in Hrow. congruence.
Qed.

(** A defined sweep has updated every interior cell, each in a buffer of
    the length it started with. *)
Lemma interior_reaches (c f model : list F) nx ny nxi fp fp1 i j :
  Vc1.interior c f model nx ny nxi fp = Some fp1 ->
  interior_cell ny nxi i j ->
  exists fp0, length fp0 = length fp /\
    is_Some (Vc1.cell c f model nx i j fp0).
Proof.
  unfold Vc1.interior. intros Hint [Hi Hj].
  destruct (isub ny 8) as [hi|] eqn:Hhi; simpl in Hint; [|done].
  apply int_of_inv in Hhi as [-> _].
  assert (forall i' s s1, length s = length fp ->
            (hj ← iadd nxi 8; for_loop 8 hj (Vc1.cell c f model nx i') s) = Some s1 ->
            length s1 = length fp) as Hrows
    by (intros i' s s1 Hl Hrow; apply row_length in Hrow; congruence).
  destruct (for_loop_reaches (fun s => length s = length fp) _ _ _ _ _ i
              eq_refl Hrows Hint) as (fp0 & Hl & [fp0' Hrow]); [lia|].
  destruct (iadd nxi 8) as [hj|] eqn:Hhj; simpl in Hrow; [|done].
  apply int_of_inv in Hhj as [-> _].
  assert (forall j' s s1, length s = length fp ->
            Vc1.cell c f model nx i j' s = Some s1 -> length s1 = length fp)
    as Hcells
    by (intros j' s s1 Hl' Hc; apply cell_length in Hc; congruence).
  destruct (for_loop_reaches (fun s => length s = length fp) _ _ _ _ _ j
              Hl Hcells Hrow) as (fp2 & Hl2 & Hc); [lia|].
  now exists fp2.
Qed.

Lemma body_length (c : list F) (m : mem F) b nx ny nxi num_sources source_len t fp' :
  Vc1.body c m b nx ny nxi num_sources source_len t = Some fp' ->
  length fp' = length (rd m (prev b)).
Proof.
  unfold Vc1.body.
  destruct (Vc1.interior _ _ _ _ _ _ _) as [fp1|] eqn:Hint; simpl; [|done].
  apply interior_length in Hint. intros Hinj.
  apply (for_loop_invariant (fun s => length s = length (rd m (prev b))) _ _ _ _ _ Hint)
    with (2 := Hinj).
  intros s fp0 fp0' Hl Hi. apply inject_length in Hi. congruence.
Qed.

(** A run keeps the lengths of the two field arrays. *)
Lemma run_lengths (m m' : mem F) nx ny nxi dx num_sources source_len n b :
  Vc1.run m nx ny nxi dx num_sources source_len n = Some (m', b) ->
  forall p, length (rd m' p) = length (rd m p).
Proof.
  destruct (Z.le_gt_cases n 0) as [Hn|Hn].
  - rewrite run_none by done. now intros [= <- <-].
  - replace n with (Z.of_nat (Z.to_nat n)) by lia.
    generalize (Z.to_nat n) as k. clear Hn. intros k. revert m' b.
    induction k as [|k IH]; intros m' b.
    + rewrite run_none by done. now intros [= <- <-].
    + intros Hr p.
      apply run_last in Hr as (m0 & b0 & fp' & Hr & Hb & -> & _); [|lia].
      replace (Z.of_nat (S k) - 1) with (Z.of_nat k) in Hr by lia.
      rewrite <- (IH _ _ Hr p). apply body_length in Hb.
      destruct (prev b0), p; simpl in *; congruence.
Qed.

(** The state in which a defined run started each of its time steps. *)
Lemma run_reaches (m m' : mem F) nx ny nxi dx num_sources source_len n b t :
  Vc1.run m nx ny nxi dx num_sources source_len n = Some (m', b) ->
  0 <= t < n ->
  exists m_t fp',
    Vc1.run m nx ny nxi dx num_sources source_len t
    = Some (m_t, Nat.iter (Z.to_nat t) swap entry) /\
    Vc1.body (Vc1.fd_coeff dx) m_t (Nat.iter (Z.to_nat t) swap entry)
             nx ny nxi num_sources source_len t = Some fp'.
Proof.
  intros Hrun Ht. rewrite (run_prefix _ _ _ _ _ _ _ (t + 1) n) in Hrun by lia.
  destruct (Vc1.run m nx ny nxi dx num_sources source_len (t + 1))
    as [[m1 b1]|] eqn:H1; simpl in Hrun; [|done].
  rewrite run_succ in H1 by lia.
  destruct (Vc1.run m nx ny nxi dx num_sources source_len t)
    as [[m_t b_t]|] eqn:Hrt; simpl in H1; [|done].
  pose proof (run_bufs _ _ _ _ _ _ _ _ _ _ Hrt) as ->.
  apply time_step_inv in H1 as (fp' & Hb & _ & _).
  now exists m_t, fp'.
Qed.
End Footprint.

(** ** How far a change travels *)

Section Speed.
Context {F : Type} `{FloatOps F}.

Lemma agree_near_step (m m' : mem F) nx ny nxi num_sources source_len num_steps
    i0 j0 d (c : list F) (b : bufs) t fp2 fp2' :
  wf_call m nx ny nxi num_sources source_len num_steps = true ->
  wf_call m' nx ny nxi num_sources source_len num_steps = true ->
  agree_near nx ny nxi num_sources source_len num_steps i0 j0 (d + 8) m m' ->
  length c = 9%nat -> 0 <= t < num_steps ->
  Vc1.body c m b nx ny nxi num_sources source_len t = Some fp2 ->
  Vc1.body c m' b nx ny nxi num_sources source_len t = Some fp2' ->
  agree_near nx ny nxi num_sources source_len num_steps i0 j0 d
             (wr m (prev b) fp2) (wr m' (prev b) fp2').
Proof.
  intros Hwf Hwf' (HAB & HM & HX & HY & HS) Hc Ht Hb Hb'.
  destruct (wf_call_inv _ _ _ _ _ _ _ Hwf) as (Hg & _).
  pose proof (wf_grid_inv _ _ _ Hg) as (? & ? & ? & ?).
  assert (forall r k, near i0 j0 d r k -> near i0 j0 (d + 8) r k) as Hmono
    by (unfold near; lia).
  assert (forall r k, 0 <= r < ny -> 0 <= k < nx -> near i0 j0 d r k ->
            cellv fp2 nx r k = cellv fp2' nx r k) as Hnew.
  { intros r k Hr Hk Hrk.
    apply (body_agree
             (fun r k => (0 <= r < ny /\ 0 <= k < nx) /\ near i0 j0 (d + 8) r k)
             (fun r k => (0 <= r < ny /\ 0 <= k < nx) /\ near i0 j0 d r k)
             m m' nx ny nxi num_sources source_len num_steps c b t fp2 fp2');
      try done.
    - intros r' k' [[? ?] ?]. now apply HAB.
    - intros r' k' [[? ?] ?]. apply HAB; auto.
    - intros i j [_ ?] Hij. apply HM; auto.
    - intros s Hs [_ ?]. apply HS; auto.
    - intros i j k' [_ Hn] [Hi Hj] Hk'. unfold near in *. lia. }
  unfold agree_near. split; [|split; [|split; [|split]]].
  - intros p r k Hr Hk Hrk.
    specialize (HAB p r k Hr Hk (Hmono _ _ Hrk)).
    specialize (Hnew r k Hr Hk Hrk).
    destruct p, (prev b); simpl in *; auto.
  - intros r k Hij Hrk. replace (model_padded2_dt2 (wr m (prev b) fp2))
      with (model_padded2_dt2 m) by now destruct (prev b).
    replace (model_padded2_dt2 (wr m' (prev b) fp2'))
      with (model_padded2_dt2 m') by now destruct (prev b).
    apply HM; auto.
  - now destruct (prev b).
  - now destruct (prev b).
  - intros s t' Hs Ht'.
    replace (sources (wr m (prev b) fp2)) with (sources m) by now destruct (prev b).
    replace (sources (wr m' (prev b) fp2')) with (sources m') by now destruct (prev b).
    replace (sources_x (wr m (prev b) fp2)) with (sources_x m) by now destruct (prev b).
    replace (sources_y (wr m (prev b) fp2)) with (sources_y m) by now destruct (prev b).
    intros Hn. apply HS; auto.
Qed.

(** After k of n time steps two runs still agree within 8 * (n - k)
    cells. *)
Lemma run_agree_near (m m' : mem F) nx ny nxi dx num_sources source_len num_steps
    i0 j0 k :
  wf_call m nx ny nxi num_sources source_len num_steps = true ->
  wf_call m' nx ny nxi num_sources source_len num_steps = true ->
  agree_near nx ny nxi num_sources source_len num_steps i0 j0 (8 * num_steps) m m' ->
  Z.of_nat k <= num_steps ->
  exists m_k m_k' b,
    Vc1.run m nx ny nxi dx num_sources source_len (Z.of_nat k) = Some (m_k, b) /\
    Vc1.run m' nx ny nxi dx num_sources source_len (Z.of_nat k) = Some (m_k', b) /\
    wf_call m_k nx ny nxi num_sources source_len num_steps = true /\
    wf_call m_k' nx ny nxi num_sources source_len num_steps = true /\
    agree_near nx ny nxi num_sources source_len num_steps i0 j0
               (8 * (num_steps - Z.of_nat k)) m_k m_k'.
Proof.
  intros Hwf Hwf' Hagree. induction k as [|k IH]; intros Hk.
  - exists m, m', entry. rewrite !run_none by (simpl; lia).
    replace (8 * (num_steps - Z.of_nat 0)) with (8 * num_steps) by lia. auto.
  - destruct IH as (m_k & m_k' & b & Hrun & Hrun' & Hwfk & Hwfk' & Hak); [lia|].
    replace (Z.of_nat (S k)) with (Z.of_nat k + 1) by lia.
    rewrite !run_succ, Hrun, Hrun' by lia. cbn [mbind option_bind].
    unfold Vc1.time_step.
    destruct (body_cells m_k nx ny nxi num_sources source_len num_steps
                (Vc1.fd_coeff dx) b (Z.of_nat k) Hwfk) as (fp2 & Hb & Hl & _);
      [done|lia|].
    destruct (body_cells m_k' nx ny nxi num_sources source_len num_steps
                (Vc1.fd_coeff dx) b (Z.of_nat k) Hwfk') as (fp2' & Hb' & Hl' & _);
      [done|lia|].
    rewrite Hb, Hb'. cbn [mbind option_bind].
    exists (wr m_k (prev b) fp2), (wr m_k' (prev b) fp2'), (swap b).
    split; [done|]. split; [done|].
    split; [now apply wf_call_wr|]. split; [now apply wf_call_wr|].
    apply (agree_near_step m_k m_k' nx ny nxi num_sources source_len num_steps
             i0 j0 _ (Vc1.fd_coeff dx) b (Z.of_nat k)); auto; [|lia].
    now replace (8 * (num_steps - (Z.of_nat k + 1)) + 8)
      with (8 * (num_steps - Z.of_nat k)) by lia.
Qed.
End Speed.

(** * The stated properties *)

(** C1. On a well-formed call, at every time step [t] the step operation
    writes, into the slot of every interior cell (i, j) of the previous
    buffer, the value
    model(i,j) * f_xx + 2 * current(i,j) - previous(i,j), where f_xx is
    2 * coeff[0] * current(i,j) plus, for k = 1..8, coeff[k] times the sum
    of the four neighbours of (i, j) at offset k in the +x, -x, +y, -y
    directions.  The sweep of step [t], run on the two buffers the step
    finds, is defined and leaves exactly these values in the interior
    cells; what the body of the time loop returns is the source loop
    applied to that buffer, and this result is the array the step leaves
    in memory as its previous buffer, the current buffer being untouched.
    So after the step every interior cell holds the leapfrog value plus
    what the sources on that cell add, and the leapfrog value itself where
    no source sits.  The nested loops of vc1.c and the row-parallel loop
    of vc6.c, under any order of the rows, produce the same buffers and
    the same memory. *)
Theorem stencil_update {F} `{FloatOps F} (sched : Z -> list Z -> list Z)
    (m : mem F) nx ny nxi dx num_sources source_len num_steps t :
  wf_call m nx ny nxi num_sources source_len num_steps = true ->
  (forall t, schedule (sched t)) ->
  0 <= t < num_steps ->
  exists m_t b fp1 fp2 m_next,
    Vc1.run m nx ny nxi dx num_sources source_len t = Some (m_t, b) /\
    Vc1.run m nx ny nxi dx num_sources source_len num_steps
    = for_loop t num_steps
        (Vc1.time_step (Vc1.fd_coeff dx) nx ny nxi num_sources source_len)
        (m_t, b) /\
    Vc6.run sched m nx ny nxi dx num_sources source_len t = Some (m_t, b) /\
    Vc1.interior (Vc1.fd_coeff dx) (rd m_t (cur b)) (model_padded2_dt2 m_t)
                 nx ny nxi (rd m_t (prev b)) = Some fp1 /\
    Vc6.sweep (sched t) (Vc6.fd_coeff dx) (rd m_t (cur b))
              (model_padded2_dt2 m_t) nx ny nxi (rd m_t (prev b)) = Some fp1 /\
    (forall i j, interior_cell ny nxi i j ->
       ld fp1 (i * nx + j)
       = Some (leapfrog (Vc1.fd_coeff dx) (rd m_t (cur b))
                        (model_padded2_dt2 m_t) (rd m_t (prev b)) nx i j)) /\
    Vc1.body (Vc1.fd_coeff dx) m_t b nx ny nxi num_sources source_len t
    = for_loop 0 num_sources
        (Vc1.inject (model_padded2_dt2 m_t) (sources m_t) (sources_x m_t)
                    (sources_y m_t) nx source_len t) fp1 /\
    Vc1.body (Vc1.fd_coeff dx) m_t b nx ny nxi num_sources source_len t
    = Some fp2 /\
    Vc6.inner (sched t) (rd m_t (cur b)) (rd m_t (prev b)) nx ny nxi
              (model_padded2_dt2 m_t) (sources m_t) (sources_x m_t)
              (sources_y m_t) num_sources source_len (Vc6.fd_coeff dx) t
    = Some fp2 /\
    Vc1.time_step (Vc1.fd_coeff dx) nx ny nxi num_sources source_len t (m_t, b)
    = Some (m_next, swap b) /\
    Vc6.time_step sched (Vc6.fd_coeff dx) nx ny nxi num_sources source_len t
                  (m_t, b)
    = Some (m_next, swap b) /\
    Vc1.run m nx ny nxi dx num_sources source_len (t + 1)
    = Some (m_next, swap b) /\
    Vc6.run sched m nx ny nxi dx num_sources source_len (t + 1)
    = Some (m_next, swap b) /\
    rd m_next (prev b) = fp2 /\
    rd m_next (cur b) = rd m_t (cur b) /\
    forall i j, interior_cell ny nxi i j ->
      let on_cell :=
        filter (fun s => source_row (sources_y m_t) s = i /\
                         source_col (sources_x m_t) s = j)
               (seqZ 0 num_sources) in
      ld (rd m_next (prev b)) (i * nx + j)
      = Some (foldl (fun acc s =>
                       fadd acc (fmul (cellv (model_padded2_dt2 m_t) nx i j)
                                      (val (sources m_t) (s * source_len + t))))
                    (leapfrog (Vc1.fd_coeff dx) (rd m_t (cur b))
                              (model_padded2_dt2 m_t) (rd m_t (prev b)) nx i j)
                    on_cell) /\
      (on_cell = [] ->
       ld (rd m_next (prev b)) (i * nx + j)
       = Some (leapfrog (Vc1.fd_coeff dx) (rd m_t (cur b))
                        (model_padded2_dt2 m_t) (rd m_t (prev b)) nx i j)).
Proof.
  intros Hwf Hs Ht.
  destruct (run_spec m nx ny nxi dx num_sources source_len num_steps t Hwf)
    as (m_t & Hrun & Hfr); [lia|].
  pose proof (wf_call_frame _ _ _ _ _ _ _ _ _ Hfr Hwf) as Hwf_t.
  assert (prev (Nat.iter (Z.to_nat t) swap entry)
          <> cur (Nat.iter (Z.to_nat t) swap entry)) as Hne
    by (rewrite iter_swap; now destruct (Nat.even _)).
  set (b := Nat.iter (Z.to_nat t) swap entry) in *.
  destruct (body_spec m_t nx ny nxi num_sources source_len num_steps Hwf_t
              (Vc1.fd_coeff dx) b t)
    as (fp1 & fp2 & Hint & Hinj & Hbody & Hl1 & Hl2 & Hv1 & Hv2); [done|lia|].
  destruct (wf_call_inv _ _ _ _ _ _ _ Hwf_t) as (Hg & _).
  pose proof (wf_grid_inv _ _ _ Hg) as (? & ? & ? & ?).
  pose proof (rd_length m_t nx ny nxi num_sources source_len num_steps Hwf_t (prev b))
    as Hp.
  assert (Vc1.time_step (Vc1.fd_coeff dx) nx ny nxi num_sources source_len t
                        (m_t, b)
          = Some (wr m_t (prev b) fp2, swap b)) as Hts
    by (unfold Vc1.time_step; now rewrite Hbody).
  exists m_t, b, fp1, fp2, (wr m_t (prev b) fp2).
  split; [done|].
  split; [now rewrite (run_prefix _ _ _ _ _ _ _ t num_steps), Hrun by lia|].
  split; [now rewrite run_eq|].
  split; [done|]. split; [now rewrite sweep_eq|].
  split.
  { intros i j Hij. pose proof Hij as [Hi Hj].
    pose proof (flat_range nx ny i j) as Hq.
    rewrite ld_val by lia. f_equal. fold (cellv fp1 nx i j).
    rewrite Hv1 by lia. now destruct (decide (interior_cell ny nxi i j)). }
  split; [unfold Vc1.body; now rewrite Hint|].
  split; [done|].
  split; [unfold Vc6.inner; rewrite sweep_eq by done; exact Hbody|].
  split; [done|].
  split; [now rewrite time_step_eq|].
  split; [rewrite run_succ, Hrun by lia; exact Hts|].
  split; [rewrite run_eq, run_succ, Hrun by (done || lia); exact Hts|].
  split; [apply rd_wr_same|].
  split; [now apply rd_wr_other|].
  intros i j Hij on_cell. rewrite rd_wr_same.
  assert (ld fp2 (i * nx + j)
          = Some (foldl (fun acc s =>
                           fadd acc (fmul (cellv (model_padded2_dt2 m_t) nx i j)
                                          (val (sources m_t) (s * source_len + t))))
                        (leapfrog (Vc1.fd_coeff dx) (rd m_t (cur b))
                                  (model_padded2_dt2 m_t) (rd m_t (prev b)) nx i j)
                        on_cell)) as Hcell.
  { pose proof Hij as [Hi Hj]. pose proof (flat_range nx ny i j) as Hq.
    rewrite ld_val by lia. f_equal. rewrite Hv2.
    rewrite (sources_at_on m_t nx ny nxi num_sources source_len num_steps Hwf_t)
      by lia.
    fold (cellv fp1 nx i j). rewrite Hv1 by lia.
    now destruct (decide (interior_cell ny nxi i j)). }
  split; [done|]. intros Hnone. now rewrite Hcell, Hnone.
Qed.

Lemma stencil_update_witness :
  exists m_t b fp1 m_next,
    Vc1.run Demo.m Demo.nx Demo.ny Demo.nxi Demo.dx Demo.num_sources
            Demo.source_len 1 = Some (m_t, b) /\
    Vc6.sweep (Demo.backwards 1) (Vc6.fd_coeff Demo.dx) (rd m_t (cur b))
              (model_padded2_dt2 m_t) Demo.nx Demo.ny Demo.nxi
              (rd m_t (prev b)) = Some fp1 /\
    ld fp1 (9 * Demo.nx + 8)
    = Some (leapfrog (Vc1.fd_coeff Demo.dx) (rd m_t (cur b))
                     (model_padded2_dt2 m_t) (rd m_t (prev b)) Demo.nx 9 8) /\
    Vc1.run Demo.m Demo.nx Demo.ny Demo.nxi Demo.dx Demo.num_sources
            Demo.source_len (1 + 1) = Some (m_next, swap b) /\
    ld (rd m_next (prev b)) (9 * Demo.nx + 8)
    = Some (leapfrog (Vc1.fd_coeff Demo.dx) (rd m_t (cur b))
                     (model_padded2_dt2 m_t) (rd m_t (prev b)) Demo.nx 9 8).
Proof.
  destruct (stencil_update Demo.backwards Demo.m Demo.nx Demo.ny Demo.nxi
              Demo.dx Demo.num_sources Demo.source_len Demo.num_steps 1)
    as (m_t & b & fp1 & fp2 & m_next & Hrun & _ & _ & _ & Hsw & Hv & _ & _ & _
        & _ & _ & Hnext & _ & _ & _ & Hst);
    [reflexivity|apply backwards_schedule|unfold Demo.num_steps; lia|].
  exists m_t, b, fp1, m_next. split; [done|]. split; [done|].
  split; [apply Hv; unfold interior_cell, Demo.ny, Demo.nxi; lia|].
  split; [done|].
  destruct (Hst 9 8) as [_ Hfree];
    [unfold interior_cell, Demo.ny, Demo.nxi; lia|].
  apply Hfree.
  assert (sources_x m_t = [0; 0; 1] /\ sources_y m_t = [0; 0; 1]) as [-> ->].
  { vm_compute in Hrun. injection Hrun as <- _. split; reflexivity. }
  reflexivity.
Defined.

(** C2. On a well-formed call, at every time step [t] and for every source
    [s]: when the source loop reaches [s], all interior cells of step [t]
    have been written and the sources before [s] injected, so that the
    padded cell (sy, sx) = (sources_y[s] + 8, sources_x[s] + 8), an
    interior cell, holds its just-computed leapfrog value plus what the
    earlier sources on that cell added.  The loop body then adds
    model(sy,sx) * sources[s][t] to the value it finds there and changes
    nothing else: the new value is the old one plus the correction, never
    a reset.  What the body of the time loop returns is the rest of the
    source loop applied to that buffer, and this result is the array the
    step leaves in memory as its previous buffer, in which cell (sy, sx)
    holds the leapfrog value plus the contributions of all sources on it,
    [s] among them.  Both variants, under any order of the rows. *)
Theorem source_injection {F} `{FloatOps F} (sched : Z -> list Z -> list Z)
    (m : mem F) nx ny nxi dx num_sources source_len num_steps t s :
  wf_call m nx ny nxi num_sources source_len num_steps = true ->
  (forall t, schedule (sched t)) ->
  0 <= t < num_steps -> 0 <= s < num_sources ->
  exists m_t b fp1 fps sx sy fp2 m_next,
    Vc1.run m nx ny nxi dx num_sources source_len t = Some (m_t, b) /\
    Vc1.run m nx ny nxi dx num_sources source_len num_steps
    = for_loop t num_steps
        (Vc1.time_step (Vc1.fd_coeff dx) nx ny nxi num_sources source_len)
        (m_t, b) /\
    Vc1.interior (Vc1.fd_coeff dx) (rd m_t (cur b)) (model_padded2_dt2 m_t)
                 nx ny nxi (rd m_t (prev b)) = Some fp1 /\
    for_loop 0 s
      (Vc1.inject (model_padded2_dt2 m_t) (sources m_t) (sources_x m_t)
                  (sources_y m_t) nx source_len t) fp1 = Some fps /\
    (v ← ld (sources_x m_t) s; Some (v + 8)) = Some sx /\
    (v ← ld (sources_y m_t) s; Some (v + 8)) = Some sy /\
    interior_cell ny nxi sy sx /\
    let q := sy * nx + sx in
    let just_computed :=
      leapfrog (Vc1.fd_coeff dx) (rd m_t (cur b)) (model_padded2_dt2 m_t)
               (rd m_t (prev b)) nx sy sx in
    let new :=
      <[Z.to_nat q :=
          fadd (val fps q)
               (fmul (cellv (model_padded2_dt2 m_t) nx sy sx)
                     (val (sources m_t) (s * source_len + t)))]> fps in
    val fps q
    = accumulate (model_padded2_dt2 m_t) (sources m_t) source_len t q
        (sources_at (sources_x m_t) (sources_y m_t) nx s q) just_computed /\
    Vc1.inject (model_padded2_dt2 m_t) (sources m_t) (sources_x m_t)
               (sources_y m_t) nx source_len t s fps = Some new /\
    Vc6.inject (model_padded2_dt2 m_t) (sources m_t) (sources_x m_t)
               (sources_y m_t) nx source_len t s fps = Some new /\
    for_loop 0 (s + 1)
      (Vc1.inject (model_padded2_dt2 m_t) (sources m_t) (sources_x m_t)
                  (sources_y m_t) nx source_len t) fp1 = Some new /\
    Vc1.body (Vc1.fd_coeff dx) m_t b nx ny nxi num_sources source_len t
    = for_loop (s + 1) num_sources
        (Vc1.inject (model_padded2_dt2 m_t) (sources m_t) (sources_x m_t)
                    (sources_y m_t) nx source_len t) new /\
    Vc1.body (Vc1.fd_coeff dx) m_t b nx ny nxi num_sources source_len t
    = Some fp2 /\
    Vc6.inner (sched t) (rd m_t (cur b)) (rd m_t (prev b)) nx ny nxi
              (model_padded2_dt2 m_t) (sources m_t) (sources_x m_t)
              (sources_y m_t) num_sources source_len (Vc6.fd_coeff dx) t
    = Some fp2 /\
    Vc1.time_step (Vc1.fd_coeff dx) nx ny nxi num_sources source_len t (m_t, b)
    = Some (m_next, swap b) /\
    Vc6.time_step sched (Vc6.fd_coeff dx) nx ny nxi num_sources source_len t
                  (m_t, b)
    = Some (m_next, swap b) /\
    Vc1.run m nx ny nxi dx num_sources source_len (t + 1)
    = Some (m_next, swap b) /\
    Vc6.run sched m nx ny nxi dx num_sources source_len (t + 1)
    = Some (m_next, swap b) /\
    rd m_next (prev b) = fp2 /\
    s ∈ sources_at (sources_x m_t) (sources_y m_t) nx num_sources q /\
    ld (rd m_next (prev b)) q
    = Some (accumulate (model_padded2_dt2 m_t) (sources m_t) source_len t q
              (sources_at (sources_x m_t) (sources_y m_t) nx num_sources q)
              just_computed).
Proof.
  intros Hwf Hsc Ht Hs.
  destruct (run_spec m nx ny nxi dx num_sources source_len num_steps t Hwf)
    as (m_t & Hrun & Hfr); [lia|].
  pose proof (wf_call_frame _ _ _ _ _ _ _ _ _ Hfr Hwf) as Hwf_t.
  set (b := Nat.iter (Z.to_nat t) swap entry) in *.
  destruct (body_spec m_t nx ny nxi num_sources source_len num_steps Hwf_t
              (Vc1.fd_coeff dx) b t)
    as (fp1 & fp2 & Hint & Hinj & Hbody & Hl1 & Hl2 & Hv1 & Hv2); [done|lia|].
  destruct (wf_call_inv _ _ _ _ _ _ _ Hwf_t)
    as (Hg & HA & HB & HM & Hns & Hsl & Hmax & Hn & Hsx & Hsy & Hsrc & Hx & Hy).
  pose proof (wf_grid_inv _ _ _ Hg) as (? & ? & ? & ?).
  pose proof (rd_length m_t nx ny nxi num_sources source_len num_steps Hwf_t (prev b)) as Hp.
  destruct (inject_spec nx ny nxi (model_padded2_dt2 m_t) (sources m_t)
              (sources_x m_t) (sources_y m_t) num_sources source_len
              Hg HM Hsl Hmax Hsx Hsy Hsrc Hx Hy t s fp1)
    as (fps & Hpre & Hls & Hvs); [lia|lia|lia|].
  destruct (source_x_inside _ _ _ _ Hsx Hx Hs) as (x & Hlx & Hxr & Hcol).
  destruct (source_y_inside _ _ _ _ Hsy Hy Hs) as (y & Hly & Hyr & Hrow).
  assert (interior_cell ny nxi (y + 8) (x + 8)) as Hin
    by (unfold interior_cell; lia).
  pose proof (flat_range nx ny (y + 8) (x + 8)) as Hq.
  assert (val fp1 ((y + 8) * nx + (x + 8))
          = leapfrog (Vc1.fd_coeff dx) (rd m_t (cur b)) (model_padded2_dt2 m_t)
                     (rd m_t (prev b)) nx (y + 8) (x + 8)) as Hjust.
  { fold (cellv fp1 nx (y + 8) (x + 8)). rewrite Hv1 by lia.
    now destruct (decide (interior_cell ny nxi (y + 8) (x + 8))). }
  assert (Vc1.time_step (Vc1.fd_coeff dx) nx ny nxi num_sources source_len t
                        (m_t, b)
          = Some (wr m_t (prev b) fp2, swap b)) as Hts
    by (unfold Vc1.time_step; now rewrite Hbody).
  exists m_t, b, fp1, fps, (x + 8), (y + 8), fp2, (wr m_t (prev b) fp2).
  split; [done|].
  split; [now rewrite (run_prefix _ _ _ _ _ _ _ t num_steps), Hrun by lia|].
  split; [done|]. split; [done|].
  rewrite Hlx, Hly. split; [done|]. split; [done|].
  split; [done|].
  assert (Vc1.inject (model_padded2_dt2 m_t) (sources m_t) (sources_x m_t)
            (sources_y m_t) nx source_len t s fps
          = Some (<[Z.to_nat ((y + 8) * nx + (x + 8)) :=
                fadd (val fps ((y + 8) * nx + (x + 8)))
                     (fmul (cellv (model_padded2_dt2 m_t) nx (y + 8) (x + 8))
                           (val (sources m_t) (s * source_len + t)))]> fps))
    as Hi.
  { rewrite (inject_defined nx ny nxi _ _ _ _ num_sources source_len
               Hg HM Hsl Hmax Hsx Hsy Hsrc Hx Hy) by lia.
    unfold add_at, source_cell, amplitude. rewrite Hcol, Hrow.
    now rewrite (update_at_Some _ _ _ (val fps ((y + 8) * nx + (x + 8))))
      by (apply ld_val; lia). }
  assert (for_loop 0 (s + 1)
            (Vc1.inject (model_padded2_dt2 m_t) (sources m_t) (sources_x m_t)
                        (sources_y m_t) nx source_len t) fp1
          = Some (<[Z.to_nat ((y + 8) * nx + (x + 8)) :=
                fadd (val fps ((y + 8) * nx + (x + 8)))
                     (fmul (cellv (model_padded2_dt2 m_t) nx (y + 8) (x + 8))
                           (val (sources m_t) (s * source_len + t)))]> fps))
    as Hupto
    by (rewrite for_loop_last, Hpre by lia; exact Hi).
  cbv zeta.
  split; [now rewrite Hvs, Hjust|].
  split; [done|]. split; [done|]. split; [done|].
  split.
  { unfold Vc1.body. rewrite Hint. cbn [mbind option_bind].
    now rewrite (for_loop_split 0 (s + 1) num_sources), Hupto by lia. }
  split; [done|].
  split; [unfold Vc6.inner; rewrite sweep_eq by done; exact Hbody|].
  split; [done|].
  split; [now rewrite time_step_eq|].
  split; [rewrite run_succ, Hrun by lia; exact Hts|].
  split; [rewrite run_eq, run_succ, Hrun by (done || lia); exact Hts|].
  split; [apply rd_wr_same|].
  split.
  { unfold sources_at. apply list_elem_of_filter. split.
    - unfold source_cell. now rewrite Hrow, Hcol.
    - apply elem_of_seqZ. lia. }
  rewrite rd_wr_same, ld_val by lia. f_equal. now rewrite Hv2, Hjust.
Qed.

Lemma source_injection_witness :
  exists m_t b fp1 fps new m_next,
    Vc1.run Demo.m Demo.nx Demo.ny Demo.nxi Demo.dx Demo.num_sources
            Demo.source_len 1 = Some (m_t, b) /\
    Vc1.interior (Vc1.fd_coeff Demo.dx) (rd m_t (cur b))
                 (model_padded2_dt2 m_t) Demo.nx Demo.ny Demo.nxi
                 (rd m_t (prev b)) = Some fp1 /\
    for_loop 0 1
      (Vc1.inject (model_padded2_dt2 m_t) (sources m_t) (sources_x m_t)
                  (sources_y m_t) Demo.nx Demo.source_len 1) fp1 = Some fps /\
    Vc1.inject (model_padded2_dt2 m_t) (sources m_t) (sources_x m_t)
               (sources_y m_t) Demo.nx Demo.source_len 1 1 fps = Some new /\
    Vc1.body (Vc1.fd_coeff Demo.dx) m_t b Demo.nx Demo.ny Demo.nxi
             Demo.num_sources Demo.source_len 1
    = for_loop (1 + 1) Demo.num_sources
        (Vc1.inject (model_padded2_dt2 m_t) (sources m_t) (sources_x m_t)
                    (sources_y m_t) Demo.nx Demo.source_len 1) new /\
    Vc1.run Demo.m Demo.nx Demo.ny Demo.nxi Demo.dx Demo.num_sources
            Demo.source_len (1 + 1) = Some (m_next, swap b).
Proof.
  destruct (source_injection Demo.backwards Demo.m Demo.nx Demo.ny Demo.nxi
              Demo.dx Demo.num_sources Demo.source_len Demo.num_steps 1 1)
    as (m_t & b & fp1 & fps & sx & sy & fp2 & m_next & Hrun & _ & Hint & Hpre
        & _ & _ & _ & _ & Hinj & _ & _ & Hrest & _ & _ & _ & _ & Hnext & _);
    [reflexivity|apply backwards_schedule|unfold Demo.num_steps; lia|
     unfold Demo.num_sources; lia|].
  exists m_t, b, fp1, fps. eexists. exists m_next.
  repeat split; eassumption.
Defined.

(** C3. The nine coefficients are the fixed numerators -924708642,
    538137600, -94174080, 22830080, -5350800, 1053696, -156800, 15360, -735,
    each divided by the common denominator 302702400 and then by dx * dx, in
    both variants.  The table is computed once per call: every time step of
    the loop is run with that one table.  Its entry 0 is the central
    coefficient, used with factor 2 at the centre, and entry k is used for
    the four neighbours at offset k, k = 1..8. *)
Theorem coefficient_table {F} `{FloatOps F} (sched : Z -> list Z -> list Z)
    (m : mem F) nx ny nxi (dx : F) num_sources source_len num_steps :
  Vc1.fd_coeff dx = coefficient dx <$> numerators /\
  Vc6.fd_coeff dx = coefficient dx <$> numerators /\
  Vc1.run m nx ny nxi dx num_sources source_len num_steps
  = for_loop 0 num_steps
      (Vc1.time_step (coefficient dx <$> numerators)
                     nx ny nxi num_sources source_len) (m, entry) /\
  Vc6.run sched m nx ny nxi dx num_sources source_len num_steps
  = for_loop 0 num_steps
      (Vc6.time_step sched (coefficient dx <$> numerators)
                     nx ny nxi num_sources source_len) (m, entry) /\
  forall f i j v,
    Vc1.f_xx (Vc1.fd_coeff dx) f nx i j = Some v ->
    v = foldl (fun acc k =>
                 fadd acc (fmul (val (coefficient dx <$> numerators) k)
                                (neighbours f nx i j k)))
              (fmul (fmul (of_int 2) (val (coefficient dx <$> numerators) 0))
                    (cellv f nx i j))
              (seqZ 1 8).
Proof.
  repeat split; try reflexivity.
  intros f i j v Hv. now apply f_xx_inv in Hv.
Qed.

Lemma coefficient_table_witness :
  exists v,
    Vc1.f_xx (Vc1.fd_coeff Demo.dx) (arrA Demo.m) Demo.nx 8 8 = Some v /\
    v = laplacian (coefficient Demo.dx <$> numerators) (arrA Demo.m) Demo.nx 8 8.
Proof.
  eexists. split; [reflexivity|].
  destruct (coefficient_table Demo.backwards Demo.m Demo.nx Demo.ny Demo.nxi
              Demo.dx Demo.num_sources Demo.source_len Demo.num_steps)
    as (_ & _ & _ & _ & Hv).
  apply Hv. reflexivity.
Defined.

(** C4, as the specification states it, fails: in exact arithmetic, at
    dx = 1, the sum 2*coeff[0] + 2*sum(coeff[1..8])*4 is not 0 (it is
    1077749/176400, which is -2*coeff[0]). *)
Lemma claimed_sum_nonzero : claimed_sum (Vc1.fd_coeff (Qc_of_Z 1)) <> 0%Qc.
Proof. intros Hz. apply (f_equal this) in Hz. vm_compute in Hz. discriminate. Qed.

(** C4, amended. In exact rational arithmetic, for any nonzero [dx]: the
    central coefficient is negative; the sum
    2*coeff[0] + sum(coeff[1..8])*4 is 0; and on a constant field the
    Laplacian [f_xx] that [step] computes at an interior cell is exactly
    0. *)
Theorem constant_field_consistency (dx : Qc) nx ny nxi i j (v : Qc) :
  dx <> 0%Qc -> wf_grid nx ny nxi = true -> interior_cell ny nxi i j ->
  (val (Vc1.fd_coeff dx) 0 < 0)%Qc /\
  weight_sum (Vc1.fd_coeff dx) = 0%Qc /\
  Vc1.f_xx (Vc1.fd_coeff dx) (replicate (Z.to_nat (ny * nx)) v) nx i j
  = Some 0%Qc.
Proof.
  intros Hdx Hg Hij. split; [now apply central_negative|].
  split; [apply weight_sum_zero|].
  pose proof (wf_grid_inv _ _ _ Hg) as (? & ? & ? & ?).
  rewrite (f_xx_defined _ _ nx ny nxi);
    [|done|reflexivity|rewrite length_replicate; nia|done].
  rewrite (laplacian_constant _ _ _ nxi) by done.
  rewrite weight_sum_zero. f_equal. ring.
Qed.

Lemma constant_field_consistency_witness :
  (val (Vc1.fd_coeff (Qc_of_Z 3)) 0 < 0)%Qc /\
  weight_sum (Vc1.fd_coeff (Qc_of_Z 3)) = 0%Qc /\
  Vc1.f_xx (Vc1.fd_coeff (Qc_of_Z 3))
           (replicate (Z.to_nat (18 * 18)) (Qc_of_Z 5)) 18 9 8 = Some 0%Qc.
Proof.
  apply (constant_field_consistency (Qc_of_Z 3) 18 18 2 9 8 (Qc_of_Z 5)).
  - intros Hz. apply (f_equal this) in Hz. vm_compute in Hz. discriminate.
  - reflexivity.
  - unfold interior_cell. lia.
Defined.

(** C5. For every call with [num_steps >= 0]: the pointers are exchanged
    once after each step and no data moves with them, so after the call
    [f] points to the array passed as [fp] when [num_steps] is odd and to
    the array passed as [f] when it is even.  The most recently computed
    time level is in the array [f] then points to: the last step wrote it
    there, and left the array holding the level before it untouched.  Both
    variants end in the same state, and a well-formed call does end. *)
Theorem buffer_roles {F} `{FloatOps F} (sched : Z -> list Z -> list Z)
    (m : mem F) nx ny nxi dx num_sources source_len num_steps :
  0 <= num_steps -> (forall t, schedule (sched t)) ->
  (wf_call m nx ny nxi num_sources source_len num_steps = true ->
   is_Some (Vc1.run m nx ny nxi dx num_sources source_len num_steps)) /\
  Vc6.run sched m nx ny nxi dx num_sources source_len num_steps
  = Vc1.run m nx ny nxi dx num_sources source_len num_steps /\
  forall m' b,
    Vc1.run m nx ny nxi dx num_sources source_len num_steps = Some (m', b) ->
    b = Nat.iter (Z.to_nat num_steps) swap entry /\
    cur b = (if Z.odd num_steps then PB else PA) /\
    prev b = (if Z.odd num_steps then PA else PB) /\
    (0 < num_steps ->
     exists m0 b0 fp',
       Vc1.run m nx ny nxi dx num_sources source_len (num_steps - 1)
       = Some (m0, b0) /\
       Vc1.body (Vc1.fd_coeff dx) m0 b0 nx ny nxi num_sources source_len
                (num_steps - 1) = Some fp' /\
       b = swap b0 /\
       m' = wr m0 (cur b) fp' /\
       rd m' (cur b) = fp' /\
       rd m' (prev b) = rd m0 (cur b0)).
Proof.
  intros Hn Hs. split; [|split].
  - intros Hwf.
    destruct (run_spec m nx ny nxi dx num_sources source_len num_steps
                num_steps Hwf) as (m' & -> & _); [lia|done].
  - now apply run_eq.
  - intros m' b Hrun. pose proof (run_bufs _ _ _ _ _ _ _ _ _ _ Hrun) as Hb.
    assert (cur b = (if Z.odd num_steps then PB else PA) /\
            prev b = (if Z.odd num_steps then PA else PB)) as [Hc Hp].
    { rewrite Hb, iter_swap, even_to_nat, <- Z.negb_even by lia.
      now destruct (Z.even num_steps). }
    split; [done|]. split; [done|]. split; [done|]. intros Hpos.
    destruct (run_last _ _ _ _ _ _ _ _ _ _ Hpos Hrun)
      as (m0 & b0 & fp' & Hrun0 & Hbody & -> & ->).
    exists m0, b0, fp'. simpl. repeat split; auto.
    + apply rd_wr_same.
    + apply rd_wr_other.
      pose proof (run_bufs _ _ _ _ _ _ _ _ _ _ Hrun0) as Hb0.
      rewrite Hb0, iter_swap. now destruct (Nat.even _).
Qed.

Lemma buffer_roles_witness :
  exists m' b,
    Vc1.run Demo.m Demo.nx Demo.ny Demo.nxi Demo.dx Demo.num_sources
            Demo.source_len 1 = Some (m', b) /\
    cur b = PB /\ prev b = PA.
Proof.
  destruct (buffer_roles Demo.backwards Demo.m Demo.nx Demo.ny Demo.nxi
              Demo.dx Demo.num_sources Demo.source_len 1)
    as (Hdef & _ & Hroles); [lia|apply backwards_schedule|].
  destruct Hdef as [[m' b] Hrun]; [reflexivity|].
  exists m', b. split; [done|].
  destruct (Hroles m' b Hrun) as (_ & Hc & Hp & _). now split.
Defined.

(** C6. Calling [step] with [num_steps = 0] is a no-op, for every input and
    in both variants: the memory holding the two field buffers is returned
    as it was, cell for cell, and the pointers [f] and [fp] keep the roles
    they had on entry. *)
Theorem zero_steps_noop {F} `{FloatOps F} (sched : Z -> list Z -> list Z)
    (m : mem F) nx ny nxi dx num_sources source_len :
  Vc1.step m nx ny nxi dx num_sources source_len 0 = Some m /\
  Vc1.run m nx ny nxi dx num_sources source_len 0 = Some (m, entry) /\
  Vc6.step sched m nx ny nxi dx num_sources source_len 0 = Some m /\
  Vc6.run sched m nx ny nxi dx num_sources source_len 0 = Some (m, entry).
Proof. repeat split; reflexivity. Qed.

(** C7. For every call on two ny x nx field arrays in which each source
    the loop visits lies in the interior (0 <= sources_x[s] < nxi and
    0 <= sources_y[s] < ny - 16): if the call is defined, every cell of
    either field array outside [8, ny-8) x [8, nxi+8) holds after the call
    the value the caller supplied, and the model array, like the source
    tables, is as it was.  Both variants return the same memory, and a
    well-formed call is defined. *)
Theorem halo_untouched {F} `{FloatOps F} (sched : Z -> list Z -> list Z)
    (m : mem F) nx ny nxi dx num_sources source_len num_steps :
  Z.of_nat (length (arrA m)) = ny * nx ->
  Z.of_nat (length (arrB m)) = ny * nx ->
  sources_inside m ny nxi num_sources ->
  (forall t, schedule (sched t)) ->
  (wf_call m nx ny nxi num_sources source_len num_steps = true ->
   is_Some (Vc1.step m nx ny nxi dx num_sources source_len num_steps)) /\
  Vc6.step sched m nx ny nxi dx num_sources source_len num_steps
  = Vc1.step m nx ny nxi dx num_sources source_len num_steps /\
  forall m',
    Vc1.step m nx ny nxi dx num_sources source_len num_steps = Some m' ->
    (forall i j,
       0 <= i < ny -> 0 <= j < nx -> ~ (8 <= i < ny - 8 /\ 8 <= j < nxi + 8) ->
       ld (arrA m') (i * nx + j) = ld (arrA m) (i * nx + j) /\
       ld (arrB m') (i * nx + j) = ld (arrB m) (i * nx + j)) /\
    model_padded2_dt2 m' = model_padded2_dt2 m /\
    sources m' = sources m /\
    sources_x m' = sources_x m /\
    sources_y m' = sources_y m.
Proof.
  intros HA HB Hin Hs. unfold Vc1.step, Vc6.step. split; [|split].
  - intros Hwf. destruct (Z.le_gt_cases num_steps 0) as [Hn|Hn].
    + now rewrite run_none.
    + destruct (run_spec m nx ny nxi dx num_sources source_len num_steps
                  num_steps Hwf) as (m' & Hrun & _); [lia|].
      now rewrite Hrun.
  - now rewrite run_eq.
  - intros m' Hstep.
    destruct (Vc1.run m nx ny nxi dx num_sources source_len num_steps)
      as [[m1 b]|] eqn:Hrun; simpl in Hstep; [|done].
    injection Hstep as ->.
    destruct (Z.le_gt_cases num_steps 0) as [Hn|Hn].
    { rewrite run_none in Hrun by done. injection Hrun as <- _. auto. }
    destruct (first_sweep_defined _ _ _ _ _ _ _ _ _ _ Hn Hrun) as [fp1 Hsw].
    pose proof (interior_fits _ _ _ _ _ _ _ _ Hsw HA) as Hfit.
    destruct (run_frame _ _ _ _ _ _ _ _ _ _ Hin Hrun)
      as (_ & _ & Hq & HM & HS & HX & HY).
    repeat split; auto; apply Hq; apply halo_not_interior; auto.
Qed.

Lemma halo_untouched_witness :
  exists m',
    Vc1.step Demo.m Demo.nx Demo.ny Demo.nxi Demo.dx Demo.num_sources
             Demo.source_len Demo.num_steps = Some m' /\
    ld (arrA m') (7 * Demo.nx + 8) = ld (arrA Demo.m) (7 * Demo.nx + 8) /\
    ld (arrB m') (9 * Demo.nx + 10) = ld (arrB Demo.m) (9 * Demo.nx + 10) /\
    model_padded2_dt2 m' = model_padded2_dt2 Demo.m.
Proof.
  destruct (halo_untouched Demo.backwards Demo.m Demo.nx Demo.ny Demo.nxi
              Demo.dx Demo.num_sources Demo.source_len Demo.num_steps)
    as (Hdef & _ & Hh);
    [reflexivity|reflexivity|
     apply (wf_sources_inside _ Demo.nx _ _ _ Demo.source_len Demo.num_steps);
       reflexivity|
     apply backwards_schedule|].
  destruct Hdef as [m' Hstep]; [reflexivity|].
  exists m'. split; [done|].
  destruct (Hh m' Hstep) as (Hhalo & HM & _).
  split; [apply Hhalo; unfold Demo.nx, Demo.ny, Demo.nxi; lia|].
  split; [apply Hhalo; unfold Demo.nx, Demo.ny, Demo.nxi; lia|done].
Defined.




(** C9. With [num_steps < 0] the time loop body never runs: [step] behaves
    as with [num_steps = 0] and returns the memory unchanged with the
    pointer roles of entry, in both variants.  No element of the model or
    of the source tables is read: the call is defined with the same result
    when these arrays are empty, where any read would be undefined. *)
Theorem negative_steps_noop {F} `{FloatOps F} (sched : Z -> list Z -> list Z)
    (m : mem F) nx ny nxi dx num_sources source_len num_steps :
  num_steps < 0 ->
  Vc1.step m nx ny nxi dx num_sources source_len num_steps
  = Vc1.step m nx ny nxi dx num_sources source_len 0 /\
  Vc1.run m nx ny nxi dx num_sources source_len num_steps = Some (m, entry) /\
  Vc6.step sched m nx ny nxi dx num_sources source_len num_steps
  = Vc6.step sched m nx ny nxi dx num_sources source_len 0 /\
  Vc6.run sched m nx ny nxi dx num_sources source_len num_steps
  = Some (m, entry) /\
  (let bare := Mem (arrA m) (arrB m) [] [] [] [] in
   Vc1.step bare nx ny nxi dx num_sources source_len num_steps = Some bare /\
   Vc6.step sched bare nx ny nxi dx num_sources source_len num_steps
   = Some bare).
Proof.
  intros Hn.
  assert (forall (m : mem F),
            Vc1.run m nx ny nxi dx num_sources source_len num_steps
            = Some (m, entry)) as H1
    by (intros m0; apply run_none; lia).
  assert (forall (m : mem F),
            Vc6.run sched m nx ny nxi dx num_sources source_len num_steps
            = Some (m, entry)) as H6
    by (intros m0; unfold Vc6.run; apply for_loop_empty; lia).
  unfold Vc1.step, Vc6.step. rewrite !H1, !H6. repeat split; reflexivity.
Qed.

Lemma negative_steps_noop_witness :
  Vc1.step Demo.m Demo.nx Demo.ny Demo.nxi Demo.dx Demo.num_sources
           Demo.source_len (-3) = Some Demo.m /\
  Vc6.step Demo.backwards Demo.m Demo.nx Demo.ny Demo.nxi Demo.dx
           Demo.num_sources Demo.source_len (-3) = Some Demo.m.
Proof.
  destruct (negative_steps_noop Demo.backwards Demo.m Demo.nx Demo.ny
              Demo.nxi Demo.dx Demo.num_sources Demo.source_len (-3))
    as (E1 & _ & E6 & _); [lia|].
  rewrite E1, E6. split; reflexivity.
Defined.

(** C10. On a well-formed call, at every time step [t], sources that map
    to the same padded cell accumulate: after the step, every interior
    cell (i, j) of the buffer just written holds its stencil-updated value
    plus, for the sources [s] with
    (sources_y[s] + 8, sources_x[s] + 8) = (i, j) taken in increasing
    index order, model(i,j) * sources[s][t], added one after the other.
    Both variants leave the same buffer, and it becomes the array [f]
    points to in the next step. *)
Theorem sources_accumulate {F} `{FloatOps F} (sched : Z -> list Z -> list Z)
    (m : mem F) nx ny nxi dx num_sources source_len num_steps t :
  wf_call m nx ny nxi num_sources source_len num_steps = true ->
  (forall t, schedule (sched t)) ->
  0 <= t < num_steps ->
  exists m_t b fp2,
    Vc1.run m nx ny nxi dx num_sources source_len t = Some (m_t, b) /\
    Vc1.run m nx ny nxi dx num_sources source_len num_steps
    = for_loop t num_steps
        (Vc1.time_step (Vc1.fd_coeff dx) nx ny nxi num_sources source_len)
        (m_t, b) /\
    Vc1.body (Vc1.fd_coeff dx) m_t b nx ny nxi num_sources source_len t
    = Some fp2 /\
    Vc6.inner (sched t) (rd m_t (cur b)) (rd m_t (prev b)) nx ny nxi
              (model_padded2_dt2 m_t) (sources m_t) (sources_x m_t)
              (sources_y m_t) num_sources source_len (Vc6.fd_coeff dx) t
    = Some fp2 /\
    Vc1.run m nx ny nxi dx num_sources source_len (t + 1)
    = Some (wr m_t (prev b) fp2, swap b) /\
    forall i j, interior_cell ny nxi i j ->
      ld fp2 (i * nx + j)
      = Some (foldl (fun acc s =>
                       fadd acc (fmul (cellv (model_padded2_dt2 m_t) nx i j)
                                      (val (sources m_t) (s * source_len + t))))
                    (leapfrog (Vc1.fd_coeff dx) (rd m_t (cur b))
                              (model_padded2_dt2 m_t) (rd m_t (prev b)) nx i j)
                    (filter (fun s => source_row (sources_y m_t) s = i /\
                                      source_col (sources_x m_t) s = j)
                            (seqZ 0 num_sources))).
Proof.
  intros Hwf Hs Ht.
  destruct (run_spec m nx ny nxi dx num_sources source_len num_steps t Hwf)
    as (m_t & Hrun & Hfr); [lia|].
  pose proof (wf_call_frame _ _ _ _ _ _ _ _ _ Hfr Hwf) as Hwf_t.
  set (b := Nat.iter (Z.to_nat t) swap entry) in *.
  destruct (body_spec m_t nx ny nxi num_sources source_len num_steps Hwf_t
              (Vc1.fd_coeff dx) b t)
    as (fp1 & fp2 & Hint & Hinj & Hbody & Hl1 & Hl2 & Hv1 & Hv2); [done|lia|].
  exists m_t, b, fp2. split; [done|].
  split; [now rewrite (run_prefix _ _ _ _ _ _ _ t num_steps), Hrun by lia|].
  split; [done|]. split; [|split].
  - unfold Vc6.inner. rewrite sweep_eq by done. exact Hbody.
  - rewrite run_succ, Hrun by lia. simpl. now rewrite Hbody.
  - intros i j Hij. pose proof Hij as [Hi Hj].
    destruct (wf_call_inv _ _ _ _ _ _ _ Hwf_t) as (Hg & _).
    pose proof (wf_grid_inv _ _ _ Hg) as (? & ? & ? & ?).
    pose proof (flat_range nx ny i j) as Hq.
    pose proof (rd_length m_t nx ny nxi num_sources source_len num_steps
                  Hwf_t (prev b)).
    rewrite ld_val by lia. f_equal. rewrite Hv2.
    rewrite (sources_at_on m_t nx ny nxi num_sources source_len num_steps Hwf_t)
      by lia.
    fold (cellv fp1 nx i j). rewrite Hv1 by lia.
    now destruct (decide (interior_cell ny nxi i j)).
Qed.

Lemma sources_accumulate_witness :
  exists m_t b fp2,
    Vc1.run Demo.m Demo.nx Demo.ny Demo.nxi Demo.dx Demo.num_sources
            Demo.source_len 1 = Some (m_t, b) /\
    Vc1.body (Vc1.fd_coeff Demo.dx) m_t b Demo.nx Demo.ny Demo.nxi
             Demo.num_sources Demo.source_len 1 = Some fp2 /\
    ld fp2 (8 * Demo.nx + 8)
    = Some (fadd (fadd (leapfrog (Vc1.fd_coeff Demo.dx) (rd m_t (cur b))
                          (model_padded2_dt2 m_t) (rd m_t (prev b)) Demo.nx 8 8)
                       (fmul (cellv (model_padded2_dt2 m_t) Demo.nx 8 8)
                             (val (sources m_t) (0 * Demo.source_len + 1))))
                 (fmul (cellv (model_padded2_dt2 m_t) Demo.nx 8 8)
                       (val (sources m_t) (1 * Demo.source_len + 1)))).
Proof.
  destruct (sources_accumulate Demo.backwards Demo.m Demo.nx Demo.ny Demo.nxi
              Demo.dx Demo.num_sources Demo.source_len Demo.num_steps 1)
    as (m_t & b & fp2 & Hrun & _ & Hbody & _ & _ & Hv);
    [reflexivity|apply backwards_schedule|unfold Demo.num_steps; lia|].
  exists m_t, b, fp2. split; [done|]. split; [done|].
  rewrite (Hv 8 8) by (unfold interior_cell, Demo.ny, Demo.nxi; lia).
  assert (sources_x m_t = [0; 0; 1] /\ sources_y m_t = [0; 0; 1]) as [-> ->].
  { vm_compute in Hrun. injection Hrun as <- _. split; reflexivity. }
  reflexivity.
Defined.

(** * Further properties of the stepper *)

(** X1. Resuming a run.  For 0 <= n1, 0 <= n2, n1 + n2 <= source_len and
    num_sources * source_len within [int]: a call with n1 + n2 time steps
    does what a call with n1 steps followed by a second call with n2 steps
    does, when the second call is given the source table advanced by n1
    samples ([sources + n1]) and, for odd n1, the two field arrays in the
    other order.  The final contents of both arrays are the same, and one
    side is undefined exactly when the other is.  This holds for every
    input and for both variants, whatever row orders the runtime picks. *)
Theorem step_resume {F} `{FloatOps F} (sched sched' : Z -> list Z -> list Z)
    (m : mem F) nx ny nxi dx num_sources source_len n1 n2 :
  0 <= n1 -> 0 <= n2 -> n1 + n2 <= source_len ->
  num_sources * source_len <= INT_MAX ->
  (forall t, schedule (sched t)) -> (forall t, schedule (sched' t)) ->
  let again m1 :=
    with_sources (advance n1 (sources m)) (exchange_if (Z.odd n1) m1) in
  let back m2 := with_sources (sources m) (exchange_if (Z.odd n1) m2) in
  Vc1.step m nx ny nxi dx num_sources source_len (n1 + n2)
  = (m1 ← Vc1.step m nx ny nxi dx num_sources source_len n1;
     m2 ← Vc1.step (again m1) nx ny nxi dx num_sources source_len n2;
     Some (back m2)) /\
  Vc6.step sched m nx ny nxi dx num_sources source_len (n1 + n2)
  = (m1 ← Vc6.step sched m nx ny nxi dx num_sources source_len n1;
     m2 ← Vc6.step sched' (again m1) nx ny nxi dx num_sources source_len n2;
     Some (back m2)).
Proof.
  intros Hn1 Hn2 Hsl Hmax Hs Hs' again back.
  assert (Vc1.step m nx ny nxi dx num_sources source_len (n1 + n2)
          = (m1 ← Vc1.step m nx ny nxi dx num_sources source_len n1;
             m2 ← Vc1.step (again m1) nx ny nxi dx num_sources source_len n2;
             Some (back m2))) as H1;
    [|split; [done|]; unfold Vc6.step, Vc1.step in *;
      rewrite !(run_eq sched) by done;
      destruct (Vc1.run m nx ny nxi dx num_sources source_len n1) as [[m1 b1]|];
      simpl in *; [|done]; now rewrite (run_eq sched') by done].
  unfold Vc1.step. rewrite (run_prefix _ _ _ _ _ _ _ n1 (n1 + n2)) by lia.
  destruct (Vc1.run m nx ny nxi dx num_sources source_len n1)
    as [[m1 b1]|] eqn:Hrun; simpl; [|done].
  destruct (run_tables _ _ _ _ _ _ _ _ _ _ Hrun) as (_ & HS & _ & _).
  pose proof (run_bufs _ _ _ _ _ _ _ _ _ _ Hrun) as Hb.
  rewrite iter_swap, even_to_nat, <- Z.negb_odd in Hb by lia.
  set (g := fun s' : mem F * bufs =>
              (back s'.1, if Z.odd n1 then flip_bufs s'.2 else s'.2)).
  assert ((m1, b1) = g (again m1, entry)) as ->.
  { subst g again back. simpl. rewrite Hb, <- HS.
    destruct m1, (Z.odd n1); reflexivity. }
  assert (forall (body : Z -> mem F * bufs -> option (mem F * bufs)) s,
            for_loop n1 (n1 + n2) body s
            = for_loop 0 n2 (fun t => body (t + n1)) s) as ->
    by (intros body s; rewrite <- for_loop_shift; f_equal; lia).
  rewrite (for_loop_sim g
             (fun s' => sources s'.1 = advance n1 (sources m)) 0 n2 _
             (Vc1.time_step (Vc1.fd_coeff dx) nx ny nxi num_sources source_len)).
  - unfold Vc1.run.
    destruct (for_loop 0 n2 _ (again m1, entry)) as [[m2 b2]|]; reflexivity.
  - subst again. now destruct (Z.odd n1).
  - intros t [m' b'] Ht Hinv. simpl in Hinv. split.
    + unfold Vc1.time_step, g. simpl.
      rewrite (Z.add_comm t n1), body_advance by lia.
      assert (Vc1.body (Vc1.fd_coeff dx)
                (with_sources (advance n1 (sources (back m'))) (back m'))
                (if Z.odd n1 then flip_bufs b' else b')
                nx ny nxi num_sources source_len t
              = Vc1.body (Vc1.fd_coeff dx) m' b' nx ny nxi num_sources source_len t)
        as ->.
      { subst back. destruct (Z.odd n1); simpl.
        - rewrite <- (body_exchange _ m' b'). f_equal.
          unfold with_sources, exchange. simpl. now rewrite <- Hinv.
        - f_equal. unfold with_sources. simpl. rewrite <- Hinv. now destruct m'. }
      destruct (Vc1.body _ m' b' _ _ _ _ _ _) as [fp'|]; simpl; [|done].
      f_equal. subst back. destruct (Z.odd n1), b' as [[] []]; reflexivity.
    + intros [m2 b2] Hts. apply time_step_inv in Hts as (fp' & _ & -> & _).
      simpl. rewrite <- Hinv. now destruct (prev b').
Qed.

Lemma step_resume_witness :
  Vc1.step Demo.m Demo.nx Demo.ny Demo.nxi Demo.dx Demo.num_sources
           Demo.source_len (1 + 1)
  = (m1 ← Vc1.step Demo.m Demo.nx Demo.ny Demo.nxi Demo.dx Demo.num_sources
                   Demo.source_len 1;
     m2 ← Vc1.step (with_sources (advance 1 (sources Demo.m)) (exchange m1))
                   Demo.nx Demo.ny Demo.nxi Demo.dx Demo.num_sources
                   Demo.source_len 1;
     Some (with_sources (sources Demo.m) (exchange m2))).
Proof.
  destruct (step_resume Demo.backwards Demo.backwards Demo.m Demo.nx Demo.ny
              Demo.nxi Demo.dx Demo.num_sources Demo.source_len 1 1)
    as [E _]; try (unfold Demo.source_len, Demo.num_sources, INT_MAX; lia);
    try apply backwards_schedule.
  exact E.
Defined.

(** X4. What a call never reads.  Let two well-formed calls with the same
    arguments run on memories that agree on the reachable cells of both
    field arrays (the interior and the four halo strips beside it), on the
    model at the interior cells, on the source positions and on the first
    [num_steps] samples of every source.  Then both calls are defined and
    their results agree on all those again.  So the corner cells of the
    halo, the columns from nxi + 16 on, the model outside the interior and
    the samples from [num_steps] on never influence what the caller finds
    in the interior.  Both variants, under any row order. *)
Theorem unread_data_irrelevant {F} `{FloatOps F} (sched : Z -> list Z -> list Z)
    (m m' : mem F) nx ny nxi dx num_sources source_len num_steps :
  wf_call m nx ny nxi num_sources source_len num_steps = true ->
  wf_call m' nx ny nxi num_sources source_len num_steps = true ->
  same_reach nx ny nxi num_sources source_len num_steps m m' ->
  (forall t, schedule (sched t)) ->
  exists r r',
    Vc1.step m nx ny nxi dx num_sources source_len num_steps = Some r /\
    Vc1.step m' nx ny nxi dx num_sources source_len num_steps = Some r' /\
    Vc6.step sched m nx ny nxi dx num_sources source_len num_steps = Some r /\
    Vc6.step sched m' nx ny nxi dx num_sources source_len num_steps = Some r' /\
    same_reach nx ny nxi num_sources source_len num_steps r r' /\
    forall i j, interior_cell ny nxi i j ->
      ld (arrA r) (i * nx + j) = ld (arrA r') (i * nx + j) /\
      ld (arrB r) (i * nx + j) = ld (arrB r') (i * nx + j).
Proof.
  intros Hwf Hwf' Hsame Hs.
  assert (exists r r' b,
            Vc1.run m nx ny nxi dx num_sources source_len num_steps = Some (r, b) /\
            Vc1.run m' nx ny nxi dx num_sources source_len num_steps = Some (r', b) /\
            wf_call r nx ny nxi num_sources source_len num_steps = true /\
            wf_call r' nx ny nxi num_sources source_len num_steps = true /\
            same_reach nx ny nxi num_sources source_len num_steps r r')
    as (r & r' & b & Hrun & Hrun' & Hwfr & Hwfr' & Hsr).
  { destruct (Z.le_gt_cases num_steps 0) as [Hn|Hn].
    - exists m, m', entry. rewrite !run_none by done. auto.
    - destruct (run_same_reach m m' nx ny nxi dx num_sources source_len num_steps
                  (Z.to_nat num_steps) Hwf Hwf' Hsame) as (r & r' & b & Hr); [lia|].
      rewrite Z2Nat.id in Hr by lia. now exists r, r', b. }
  exists r, r'. unfold Vc6.step, Vc1.step. rewrite !run_eq, Hrun, Hrun' by done.
  repeat (split; [done|]). intros i j Hij.
  destruct (wf_call_inv _ _ _ _ _ _ _ Hwfr) as (Hg & HA & HB & _).
  destruct (wf_call_inv _ _ _ _ _ _ _ Hwfr') as (_ & HA' & HB' & _).
  pose proof (wf_grid_inv _ _ _ Hg) as (? & ? & ? & ?).
  destruct Hsr as (HAB & _). destruct Hij as [Hi Hj].
  rewrite !(ld_grid nx ny) by lia.
  pose proof (HAB PA i j) as EA. pose proof (HAB PB i j) as EB.
  simpl in EA, EB. now rewrite EA, EB by (unfold in_reach; lia).
Qed.

Lemma unread_data_irrelevant_witness :
  exists r r',
    Vc1.step Demo.m Demo.nx Demo.ny Demo.nxi Demo.dx Demo.num_sources
             Demo.source_len 1 = Some r /\
    Vc1.step DemoReach.m' Demo.nx Demo.ny Demo.nxi Demo.dx Demo.num_sources
             Demo.source_len 1 = Some r' /\
    ld (arrB r) (8 * Demo.nx + 8) = ld (arrB r') (8 * Demo.nx + 8).
Proof.
  destruct (unread_data_irrelevant Demo.backwards Demo.m DemoReach.m' Demo.nx
              Demo.ny Demo.nxi Demo.dx Demo.num_sources Demo.source_len 1)
    as (r & r' & Hr & Hr' & _ & _ & _ & Hv);
    [reflexivity|reflexivity| |apply backwards_schedule|].
  - unfold same_reach, DemoReach.m', Demo.nx, Demo.ny, Demo.nxi,
      Demo.num_sources, Demo.source_len.
    split; [|split; [|split; [done|split; [done|]]]].
    + intros [] r c (Hr & Hc & Hrc); [|done]. unfold cellv. cbn [rd arrA].
      rewrite val_insert by (simpl; lia).
      destruct (decide (0 = r * 18 + c)); [lia|done].
    + intros i j [Hi Hj]. unfold cellv. cbn [model_padded2_dt2].
      rewrite val_insert by (simpl; lia).
      destruct (decide (0 = i * 18 + j)); [lia|done].
    + intros s t Hs Ht. unfold amplitude. cbn [sources].
      rewrite val_insert by (simpl; lia).
      destruct (decide (1 = s * 2 + t)); [lia|done].
  - exists r, r'. split; [done|]. split; [done|].
    apply Hv. unfold interior_cell, Demo.ny, Demo.nxi. lia.
Defined.

(** X5. The extent a defined call needs.  If a call with at least one time
    step is defined (in either variant), then for every interior cell
    (i, j) all accesses of the stencil were inside the arrays and all flat
    indices were [int]s: the centre index in the two field arrays and in
    the model, and the indices i*nx+j+k, i*nx+j-k, (i+k)*nx+j, (i-k)*nx+j
    for k = 1..8 in the array passed as [f]; with two or more steps the
    same holds with the two field arrays exchanged.  In particular, when
    the interior is not empty, [nx] is not negative and the array passed as
    [f] extends to the index (ny-1)*nx + nxi+7 of the last halo row. *)
Theorem stencil_footprint {F} `{FloatOps F} (sched : Z -> list Z -> list Z)
    (m m' : mem F) nx ny nxi dx num_sources source_len num_steps :
  (forall t, schedule (sched t)) ->
  Vc1.step m nx ny nxi dx num_sources source_len num_steps = Some m' \/
  Vc6.step sched m nx ny nxi dx num_sources source_len num_steps = Some m' ->
  0 < num_steps ->
  (forall i j, interior_cell ny nxi i j ->
     stencil_fits (arrA m) (arrB m) (model_padded2_dt2 m) nx i j /\
     (1 < num_steps ->
      stencil_fits (arrB m) (arrA m) (model_padded2_dt2 m) nx i j)) /\
  (16 < ny -> 0 < nxi ->
   0 <= nx /\ readable (arrA m) ((ny - 1) * nx + nxi + 7)).
Proof.
  intros Hs Hdef Hn.
  assert (Vc1.step m nx ny nxi dx num_sources source_len num_steps = Some m')
    as Hstep.
  { destruct Hdef as [?|H6]; [done|].
    unfold Vc6.step in H6. now rewrite run_eq in H6. }
  clear Hdef. unfold Vc1.step in Hstep.
  destruct (Vc1.run m nx ny nxi dx num_sources source_len num_steps)
    as [[m1 b]|] eqn:Hrun; [|done]. clear Hstep.
  assert (forall t i j, 0 <= t < num_steps -> interior_cell ny nxi i j ->
            stencil_fits (rd m (cur (Nat.iter (Z.to_nat t) swap entry)))
                         (rd m (prev (Nat.iter (Z.to_nat t) swap entry)))
                         (model_padded2_dt2 m) nx i j) as Hfit.
  { intros t i j Ht Hij.
    destruct (run_reaches _ _ _ _ _ _ _ _ _ _ t Hrun Ht) as (m_t & fp' & Hrt & Hb).
    set (b_t := Nat.iter (Z.to_nat t) swap entry) in *.
    pose proof (run_lengths _ _ _ _ _ _ _ _ _ _ Hrt) as Hlen.
    destruct (run_tables _ _ _ _ _ _ _ _ _ _ Hrt) as (HM & _).
    unfold Vc1.body in Hb.
    destruct (Vc1.interior _ _ _ _ _ _ _) as [fp1|] eqn:Hint; [|done].
    destruct (interior_reaches _ _ _ _ _ _ _ _ _ _ Hint Hij) as (fp0 & Hl0 & [fp0' Hc]).
    apply cell_reads in Hc as (Hf & Hp & Hmod & Hk).
    unfold stencil_fits, readable in *.
    rewrite <- (Hlen (cur b_t)), <- (Hlen (prev b_t)), <- HM, <- Hl0. auto. }
  split.
  - intros i j Hij. split.
    + apply (Hfit 0 i j); [lia|done].
    + intros Hn2. apply (Hfit 1 i j); [lia|done].
  - intros Hny Hnxi.
    destruct (Hfit 0 8 8) as (_ & _ & _ & Hlo);
      [lia|unfold interior_cell; lia|].
    destruct (Hfit 0 (ny - 9) (nxi + 7)) as (_ & _ & _ & Hhi);
      [lia|unfold interior_cell; lia|].
    destruct (Hlo 8) as (_ & [Hge _] & _); [lia|].
    destruct (Hhi 8) as (_ & _ & Hlast & _); [lia|].
    simpl in Hge, Hlast. split; [lia|].
    now replace ((ny - 1) * nx + nxi + 7) with ((ny - 9 + 8) * nx + (nxi + 7)) by lia.
Qed.

Lemma stencil_footprint_witness :
  stencil_fits (arrA Demo.m) (arrB Demo.m) (model_padded2_dt2 Demo.m)
               Demo.nx 9 9 /\
  stencil_fits (arrB Demo.m) (arrA Demo.m) (model_padded2_dt2 Demo.m)
               Demo.nx 9 9.
Proof.
  destruct (Vc1.step Demo.m Demo.nx Demo.ny Demo.nxi Demo.dx Demo.num_sources
              Demo.source_len Demo.num_steps) as [m'|] eqn:Hstep;
    [|vm_compute in Hstep; discriminate].
  destruct (stencil_footprint Demo.backwards Demo.m m' Demo.nx Demo.ny Demo.nxi
              Demo.dx Demo.num_sources Demo.source_len Demo.num_steps)
    as [Hfit _]; [apply backwards_schedule|now left|unfold Demo.num_steps; lia|].
  destruct (Hfit 9 9) as [H0 H1]; [unfold interior_cell, Demo.ny, Demo.nxi; lia|].
  split; [done|]. apply H1. unfold Demo.num_steps. lia.
Defined.

(** X6. The source tables a defined call needs.  If a call is defined (in
    either variant), then for every time step t < num_steps and every
    source s < num_sources the loop found entries sources_x[s] and
    sources_y[s], the flat index (sources_y[s]+8)*nx + sources_x[s]+8 was
    an [int] inside the model and inside the array written in step t (the
    one passed as [fp] for even t, as [f] for odd t), and the sample index
    s*source_len + t was an [int] inside the source table. *)
Theorem source_footprint {F} `{FloatOps F} (sched : Z -> list Z -> list Z)
    (m m' : mem F) nx ny nxi dx num_sources source_len num_steps t s :
  (forall t, schedule (sched t)) ->
  Vc1.step m nx ny nxi dx num_sources source_len num_steps = Some m' \/
  Vc6.step sched m nx ny nxi dx num_sources source_len num_steps = Some m' ->
  0 <= t < num_steps -> 0 <= s < num_sources ->
  exists x y,
    ld (sources_x m) s = Some x /\ ld (sources_y m) s = Some y /\
    readable (if Z.even t then arrB m else arrA m) ((y + 8) * nx + (x + 8)) /\
    readable (model_padded2_dt2 m) ((y + 8) * nx + (x + 8)) /\
    readable (sources m) (s * source_len + t).
Proof.
  intros Hs Hdef Ht Hsrc.
  assert (Vc1.step m nx ny nxi dx num_sources source_len num_steps = Some m')
    as Hstep.
  { destruct Hdef as [?|H6]; [done|].
    unfold Vc6.step in H6. now rewrite run_eq in H6. }
  clear Hdef. unfold Vc1.step in Hstep.
  destruct (Vc1.run m nx ny nxi dx num_sources source_len num_steps)
    as [[m1 b]|] eqn:Hrun; [|done]. clear Hstep.
  destruct (run_reaches _ _ _ _ _ _ _ _ _ _ t Hrun Ht) as (m_t & fp' & Hrt & Hb).
  pose proof (run_lengths _ _ _ _ _ _ _ _ _ _ Hrt) as Hlen.
  destruct (run_tables _ _ _ _ _ _ _ _ _ _ Hrt) as (HM & HS & HX & HY).
  assert (rd m (prev (Nat.iter (Z.to_nat t) swap entry))
          = if Z.even t then arrB m else arrA m) as Hprev.
  { rewrite iter_swap, even_to_nat by lia. now destruct (Z.even t). }
  set (b_t := Nat.iter (Z.to_nat t) swap entry) in *.
  unfold Vc1.body in Hb.
  destruct (Vc1.interior _ _ _ _ _ _ _) as [fp1|] eqn:Hint; simpl in Hb; [|done].
  apply interior_length in Hint.
  assert (forall k fp0 fp0', length fp0 = length fp1 ->
            Vc1.inject (model_padded2_dt2 m_t) (sources m_t) (sources_x m_t)
                       (sources_y m_t) nx source_len t k fp0 = Some fp0' ->
            length fp0' = length fp1) as Hinv
    by (intros k fp0 fp0' Hl Hi; apply inject_length in Hi; congruence).
  destruct (for_loop_reaches (fun fp0 => length fp0 = length fp1) _ _ _ _ _ s
              eq_refl Hinv Hb) as (fp0 & Hl0 & [fp0' Hi]); [lia|].
  unfold Vc1.inject in Hi. rewrite HM, HS, HX, HY in Hi.
  destruct (ld (sources_x m) s) as [x|] eqn:Lx; simpl in Hi; [|done].
  destruct (iadd x 8) as [sx|] eqn:Hsx; simpl in Hi; [|done].
  apply int_of_inv in Hsx as [-> _].
  destruct (ld (sources_y m) s) as [y|] eqn:Ly; simpl in Hi; [|done].
  destruct (iadd y 8) as [sy|] eqn:Hsy; simpl in Hi; [|done].
  apply int_of_inv in Hsy as [-> _].
  destruct (at2 (y + 8) nx (x + 8)) as [q|] eqn:Hq; simpl in Hi; [|done].
  destruct (ld fp0 q) as [old|] eqn:Lp; simpl in Hi; [|done].
  destruct (ld (model_padded2_dt2 m) q) as [mq|] eqn:Lm; simpl in Hi; [|done].
  destruct (imul s source_len) as [p|] eqn:Hp; simpl in Hi; [|done].
  apply int_of_inv in Hp as [-> _].
  destruct (iadd (s * source_len) t) as [r|] eqn:Hr; simpl in Hi; [|done].
  destruct (ld (sources m) r) as [a|] eqn:La; simpl in Hi; [|done].
  exists x, y. split; [done|]. split; [done|].
  apply (ld_readable _ _ _ _ Hr) in La as [_ ?].
  assert (readable fp0 ((y + 8) * nx + (x + 8)))
    by (apply (at2_readable fp0 _ _ _ old); now rewrite Hq).
  assert (readable (model_padded2_dt2 m) ((y + 8) * nx + (x + 8)))
    by (apply (at2_readable _ _ _ _ mq); now rewrite Hq).
  split; [|done]. rewrite <- Hprev. unfold readable in *.
  rewrite <- (Hlen (prev b_t)), <- Hint, <- Hl0. done.
Qed.

Lemma source_footprint_witness :
  exists x y,
    ld (sources_x Demo.m) 2 = Some x /\ ld (sources_y Demo.m) 2 = Some y /\
    readable (arrA Demo.m) ((y + 8) * Demo.nx + (x + 8)) /\
    readable (model_padded2_dt2 Demo.m) ((y + 8) * Demo.nx + (x + 8)) /\
    readable (sources Demo.m) (2 * Demo.source_len + 1).
Proof.
  destruct (Vc1.step Demo.m Demo.nx Demo.ny Demo.nxi Demo.dx Demo.num_sources
              Demo.source_len Demo.num_steps) as [m'|] eqn:Hstep;
    [|vm_compute in Hstep; discriminate].
  apply (source_footprint Demo.backwards Demo.m m' Demo.nx Demo.ny Demo.nxi
           Demo.dx Demo.num_sources Demo.source_len Demo.num_steps 1 2).
  - apply backwards_schedule.
  - now left.
  - unfold Demo.num_steps. lia.
  - unfold Demo.num_sources. lia.
Defined.

(** X7. Source positions are not checked against the interior.  On an
    ny x nx grid the body of the source loop accepts a source on any cell
    of the padded grid, -8 <= sources_x[s] < nx - 8 and
    -8 <= sources_y[s] < ny - 8: it is defined and adds
    model * amplitude to the flat cell (sources_y[s]+8)*nx + sources_x[s]+8,
    which for a position outside [0, nxi) x [0, ny-16) is a halo cell that
    the sweep never rewrites.  Both variants. *)
Theorem source_any_padded_cell {F} `{FloatOps F} (model srcs fp : list F)
    (srcs_x srcs_y : list Z) nx ny nxi num_sources source_len t s x y :
  wf_grid nx ny nxi = true ->
  Z.of_nat (length fp) = ny * nx -> Z.of_nat (length model) = ny * nx ->
  num_sources * source_len <= INT_MAX ->
  Z.of_nat (length srcs) = num_sources * source_len ->
  0 <= s < num_sources -> 0 <= t < source_len ->
  ld srcs_x s = Some x -> ld srcs_y s = Some y ->
  -8 <= x < nx - 8 -> -8 <= y < ny - 8 ->
  let q := (y + 8) * nx + (x + 8) in
  let fp' :=
    <[Z.to_nat q := fadd (val fp q)
                         (fmul (val model q) (val srcs (s * source_len + t)))]> fp in
  Vc1.inject model srcs srcs_x srcs_y nx source_len t s fp = Some fp' /\
  Vc6.inject model srcs srcs_x srcs_y nx source_len t s fp = Some fp' /\
  ld fp' q = Some (fadd (val fp q)
                        (fmul (val model q) (val srcs (s * source_len + t)))) /\
  (~ interior_cell ny nxi (y + 8) (x + 8) ->
   ~ interior_index nx ny nxi q).
Proof.
  intros Hg Hfp Hmodel Hmax Hsrc Hs Ht Hlx Hly Hx Hy q fp'.
  pose proof (wf_grid_inv nx ny nxi Hg) as (? & ? & ? & ?).
  pose proof (flat_range nx ny (y + 8) (x + 8)) as Hq.
  assert (Vc1.inject model srcs srcs_x srcs_y nx source_len t s fp = Some fp')
    as Hinj.
  { unfold Vc1.inject. rewrite Hlx, Hly. simpl. unfold iadd, imul.
    assert (nx <= INT_MAX) by nia. assert (ny <= INT_MAX) by nia.
    assert (0 <= s * source_len /\
            s * source_len + t < num_sources * source_len) as [? ?] by nia.
    rewrite !int_of_Some by (unfold INT_MIN, INT_MAX in *; lia). simpl.
    rewrite !(at2_grid nx ny nxi Hg) by lia. simpl. fold q.
    rewrite (ld_val fp q), (ld_val model q) by (subst q; lia). simpl.
    rewrite int_of_Some by (unfold INT_MIN, INT_MAX in *; lia). simpl.
    rewrite (ld_val srcs) by lia. simpl.
    apply st_Some. subst q. lia. }
  split; [done|]. split; [done|]. split.
  - subst fp'. apply ld_insert_eq. subst q. lia.
  - intros Hout. subst q. apply halo_not_interior; [lia|done|lia].
Qed.

Lemma source_any_padded_cell_witness :
  Vc1.inject (model_padded2_dt2 Demo.m) (sources Demo.m) [-8; 0; 1] [-8; 0; 1]
             Demo.nx Demo.source_len 1 0 (arrB Demo.m)
  = Some (<[Z.to_nat 0 :=
              fadd (val (arrB Demo.m) 0)
                   (fmul (val (model_padded2_dt2 Demo.m) 0)
                         (val (sources Demo.m) 1))]> (arrB Demo.m)).
Proof.
  apply (source_any_padded_cell (model_padded2_dt2 Demo.m) (sources Demo.m)
           (arrB Demo.m) [-8; 0; 1] [-8; 0; 1] Demo.nx Demo.ny Demo.nxi
           Demo.num_sources Demo.source_len 1 0 (-8) (-8));
    try reflexivity;
    unfold Demo.nx, Demo.ny, Demo.num_sources, Demo.source_len, INT_MAX; lia.
Defined.

(** X8. A call without sources.  With num_sources <= 0 the source loop
    runs no iteration: for every input, the call does what it does on the
    same memory with empty source tables and any other [source_len], so no
    element of [sources], [sources_x] or [sources_y] is read and
    [source_len] is ignored.  Both variants. *)
Theorem no_sources_tables_unread {F} `{FloatOps F}
    (sched : Z -> list Z -> list Z) (m : mem F)
    nx ny nxi dx num_sources source_len source_len' num_steps :
  num_sources <= 0 -> (forall t, schedule (sched t)) ->
  Vc1.step m nx ny nxi dx num_sources source_len num_steps
  = with_tables_of m
      <$> Vc1.step (no_tables m) nx ny nxi dx num_sources source_len' num_steps /\
  Vc6.step sched m nx ny nxi dx num_sources source_len num_steps
  = with_tables_of m
      <$> Vc6.step sched (no_tables m) nx ny nxi dx num_sources source_len'
                   num_steps.
Proof.
  intros Hns Hs. unfold Vc6.step, Vc1.step. rewrite !run_eq by done.
  assert (Vc1.run m nx ny nxi dx num_sources source_len num_steps
          = (fun s' : mem F * bufs => (with_tables_of m s'.1, s'.2))
              <$> Vc1.run (no_tables m) nx ny nxi dx num_sources source_len'
                          num_steps) as ->.
  { unfold Vc1.run.
    rewrite <- (for_loop_sim
                  (fun s' : mem F * bufs => (with_tables_of m s'.1, s'.2))
                  (fun _ => True) 0 num_steps
                  (Vc1.time_step (Vc1.fd_coeff dx) nx ny nxi num_sources source_len)).
    - now destruct m.
    - done.
    - intros t [m' b] _ _. split; [|done].
      unfold Vc1.time_step, Vc1.body. cbn [fst snd].
      assert (forall p, rd (with_tables_of m m') p = rd m' p) as Hrd
        by (now intros []).
      rewrite !Hrd. cbn [with_tables_of model_padded2_dt2].
      destruct (Vc1.interior _ _ _ _ _ _ _) as [fp1|]; simpl; [|done].
      rewrite !for_loop_empty by done. simpl. now destruct (prev b). }
  split; now destruct (Vc1.run (no_tables m) _ _ _ _ _ _ _) as [[m' b]|].
Qed.

Lemma no_sources_tables_unread_witness :
  Vc1.step Demo.m Demo.nx Demo.ny Demo.nxi Demo.dx 0 Demo.source_len
           Demo.num_steps
  = with_tables_of Demo.m
      <$> Vc1.step (no_tables Demo.m) Demo.nx Demo.ny Demo.nxi Demo.dx 0 0
                   Demo.num_steps.
Proof.
  destruct (no_sources_tables_unread Demo.backwards Demo.m Demo.nx Demo.ny
              Demo.nxi Demo.dx 0 Demo.source_len 0 Demo.num_steps) as [E _];
    [lia|apply backwards_schedule|exact E].
Defined.

(** X9. A grid without interior.  When ny <= 16 or nxi <= 0 (with ny - 8
    and nxi + 8 still [int]s) the sweep updates no cell: it returns the
    buffer unchanged and reads no element of any array, whatever their
    sizes.  A call on such a grid with num_sources <= 0 returns the memory
    unchanged for every number of steps.  Both variants. *)
Theorem empty_interior_noop {F} `{FloatOps F} (sched : Z -> list Z -> list Z)
    (m : mem F) nx ny nxi dx num_sources source_len num_steps :
  ny <= 16 \/ nxi <= 0 ->
  INT_MIN + 8 <= ny <= INT_MAX -> INT_MIN <= nxi ->
  (forall t, schedule (sched t)) ->
  (forall order c f model fp, schedule order ->
     Vc1.interior c f model nx ny nxi fp = Some fp /\
     Vc6.sweep order c f model nx ny nxi fp = Some fp) /\
  (num_sources <= 0 ->
   Vc1.step m nx ny nxi dx num_sources source_len num_steps = Some m /\
   Vc6.step sched m nx ny nxi dx num_sources source_len num_steps = Some m).
Proof.
  intros Hempty Hny Hnxi Hs.
  assert (forall c f model fp, Vc1.interior c f model nx ny nxi fp = Some fp)
    as Hint.
  { intros c f model fp. unfold Vc1.interior, isub.
    rewrite int_of_Some by (unfold INT_MIN, INT_MAX in *; lia). simpl.
    destruct Hempty as [Hrows|Hcols]; [apply for_loop_empty; lia|].
    assert (forall i s,
              (hj ← iadd nxi 8; for_loop 8 hj (Vc1.cell c f model nx i) s)
              = Some s) as Hrow.
    { intros i s. unfold iadd.
      rewrite int_of_Some by (unfold INT_MIN, INT_MAX in *; lia). simpl.
      apply for_loop_empty. lia. }
    rewrite for_loop_seqZ. induction (seqZ 8 (ny - 8 - 8)) as [|i l IH]; [done|].
    cbn [run_list]. rewrite Hrow. exact IH. }
  split.
  - intros order c f model fp Ho. split; [done|]. now rewrite sweep_eq.
  - intros Hns.
    assert (forall k, Vc1.run m nx ny nxi dx num_sources source_len (Z.of_nat k)
                      = Some (m, Nat.iter k swap entry)) as Hrun.
    { induction k as [|k IH]; [now rewrite run_none|].
      replace (Z.of_nat (S k)) with (Z.of_nat k + 1) by lia.
      rewrite run_succ, IH by lia. simpl. unfold Vc1.body.
      rewrite Hint. simpl. rewrite for_loop_empty by done. simpl.
      f_equal. f_equal.
      rewrite iter_swap. now destruct m, (Nat.even k). }
    unfold Vc6.step, Vc1.step. rewrite run_eq by done.
    destruct (Z.le_gt_cases num_steps 0) as [Hn|Hn].
    + now rewrite run_none.
    + replace num_steps with (Z.of_nat (Z.to_nat num_steps)) by lia.
      now rewrite Hrun.
Qed.

Lemma empty_interior_noop_witness :
  Vc1.step Demo.m Demo.nx 16 Demo.nxi Demo.dx 0 Demo.source_len 5
  = Some Demo.m /\
  Vc1.step (no_tables (Mem [] [] [] [] [] [])) 0 0 0 Demo.dx 0 0 5
  = Some (no_tables (Mem [] [] [] [] [] [])).
Proof.
  split.
  - apply (empty_interior_noop Demo.backwards Demo.m Demo.nx 16 Demo.nxi
             Demo.dx 0 Demo.source_len 5);
      [left; lia|unfold INT_MIN, INT_MAX; lia|unfold INT_MIN, Demo.nxi; lia|
       apply backwards_schedule|lia].
  - apply (empty_interior_noop Demo.backwards (no_tables (Mem [] [] [] [] [] []))
             0 0 0 Demo.dx 0 0 5);
      [left; lia|unfold INT_MIN, INT_MAX; lia|unfold INT_MIN; lia|
       apply backwards_schedule|lia].
Defined.

(** X10. A change travels at most 8 cells per time step.  Let two
    well-formed calls with the same arguments and num_steps >= 0 run on
    memories that agree within 8 * num_steps cells of a cell (i0, j0),
    counting steps along rows and columns: on both field arrays, on the
    model, and on the samples of the sources placed there, the source
    positions being the same.  Then both calls are defined and leave the
    same values in cell (i0, j0) of both field arrays, whatever the
    memories hold farther away.  Both variants, under any row order. *)
Theorem finite_propagation_speed {F} `{FloatOps F}
    (sched : Z -> list Z -> list Z) (m m' : mem F)
    nx ny nxi dx num_sources source_len num_steps i0 j0 :
  wf_call m nx ny nxi num_sources source_len num_steps = true ->
  wf_call m' nx ny nxi num_sources source_len num_steps = true ->
  0 <= num_steps -> 0 <= i0 < ny -> 0 <= j0 < nx ->
  agree_near nx ny nxi num_sources source_len num_steps i0 j0
             (8 * num_steps) m m' ->
  (forall t, schedule (sched t)) ->
  exists r r',
    Vc1.step m nx ny nxi dx num_sources source_len num_steps = Some r /\
    Vc1.step m' nx ny nxi dx num_sources source_len num_steps = Some r' /\
    Vc6.step sched m nx ny nxi dx num_sources source_len num_steps = Some r /\
    Vc6.step sched m' nx ny nxi dx num_sources source_len num_steps = Some r' /\
    ld (arrA r) (i0 * nx + j0) = ld (arrA r') (i0 * nx + j0) /\
    ld (arrB r) (i0 * nx + j0) = ld (arrB r') (i0 * nx + j0).
Proof.
  intros Hwf Hwf' Hn Hi0 Hj0 Hagree Hs.
  destruct (run_agree_near m m' nx ny nxi dx num_sources source_len num_steps
              i0 j0 (Z.to_nat num_steps) Hwf Hwf' Hagree)
    as (r & r' & b & Hrun & Hrun' & Hwfr & Hwfr' & Har); [lia|].
  rewrite Z2Nat.id in Hrun, Hrun', Har by lia.
  exists r, r'. unfold Vc6.step, Vc1.step. rewrite !run_eq, Hrun, Hrun' by done.
  repeat (split; [done|]).
  destruct (wf_call_inv _ _ _ _ _ _ _ Hwfr) as (Hg & HA & HB & _).
  destruct (wf_call_inv _ _ _ _ _ _ _ Hwfr') as (_ & HA' & HB' & _).
  destruct Har as (HAB & _).
  rewrite !(ld_grid nx ny) by lia.
  pose proof (HAB PA i0 j0 Hi0 Hj0) as EA. pose proof (HAB PB i0 j0 Hi0 Hj0) as EB.
  simpl in EA, EB. now rewrite EA, EB by (unfold near; lia).
Qed.

Lemma finite_propagation_speed_witness :
  exists r r',
    Vc1.step Demo.quiet 32 32 16 Demo.dx 1 1 1 = Some r /\
    Vc1.step DemoReach.far 32 32 16 Demo.dx 1 1 1 = Some r' /\
    ld (arrB r) (8 * 32 + 8) = ld (arrB r') (8 * 32 + 8).
Proof.
  destruct (finite_propagation_speed Demo.backwards Demo.quiet DemoReach.far
              32 32 16 Demo.dx 1 1 1 8 8)
    as (r & r' & Hr & Hr' & _ & _ & _ & EB);
    [reflexivity|reflexivity|lia|lia|lia| |apply backwards_schedule|].
  - unfold agree_near, DemoReach.far.
    split; [|split; [done|split; [done|split; [done|done]]]].
    intros [] r c Hr Hc Hn; [|done]. unfold cellv. cbn [rd arrA].
    rewrite val_insert by (simpl; lia).
    destruct (decide (20 * 32 + 20 = r * 32 + c)); [|done].
    unfold near in Hn. lia.
  - exists r, r'. split; [exact Hr|]. split; [exact Hr'|exact EB].
Defined.
